(** * Creative studio orchestration core: a shallow embedding

    The development follows the TypeScript sources:
    - [utils/errorUtils.ts]      : [parseErrorMessage]
    - [services/geminiService.ts]: [withRetry], the scene pipeline, the
      camera-angle pipeline, speech and video assembly
    - [App.tsx]                  : the scene-tree handlers
      ([handleGenerateImage], [handleConfirmAngleGeneration],
      [handleDeleteScene], [handleExtendFromLastFrame]).

    Part I holds the definitions, Part II the theorems. *)

From Stdlib Require Import String Ascii List ZArith NArith Lia Bool Sorted.
From stdpp Require Import base gmap list strings pretty.

Set Warnings "-register-all".

Open Scope string_scope.
Open Scope list_scope.

(* ===================================================================== *)
(** * Part I — definitions *)
(* ===================================================================== *)

(** ** JavaScript strings

    A JavaScript string is represented by the bytes of its UTF-8 encoding.
    Every marker the code searches for is ASCII, so [includes], [startsWith]
    and equality are exact on this representation.  [toLowerCase] lowers the
    ASCII letters only: it is [String.prototype.toLowerCase] on the strings
    of ASCII characters ([is_ascii]), and the statements that depend on the
    lower-cased text of an arbitrary message are made for those. *)


Definition is_upper (c : ascii) : bool :=
  (65 <=? nat_of_ascii c)%nat && (nat_of_ascii c <=? 90)%nat.

Definition lower_char (c : ascii) : ascii :=
  if is_upper c then ascii_of_nat (nat_of_ascii c + 32) else c.

Fixpoint toLowerCase (s : string) : string :=
  match s with
  | EmptyString => EmptyString
  | String c s' => String (lower_char c) (toLowerCase s')
  end.

(** [startsWith s p] is [s.startsWith(p)]. *)
Fixpoint startsWith (s p : string) : bool :=
  match p, s with
  | EmptyString, _ => true
  | String _ _, EmptyString => false
  | String a p', String b s' => Ascii.eqb a b && startsWith s' p'
  end.

(** [includes s p] is [s.includes(p)]. *)
Fixpoint includes (s p : string) : bool :=
  startsWith s p ||
  match s with
  | EmptyString => false
  | String _ s' => includes s' p
  end.

(** [trim] removes the white space and the line terminators of
    ECMAScript: TAB, LF, VT, FF, CR, SPACE, U+00A0, U+1680, U+2000 to
    U+200A, U+2028, U+2029, U+202F, U+205F, U+3000 and U+FEFF.  The first
    six are one byte each. *)
Definition is_space (c : ascii) : bool :=
  let n := nat_of_ascii c in
  ((9 <=? n)%nat && (n <=? 13)%nat) || (n =? 32)%nat.

(** U+00A0 NO-BREAK SPACE is encoded in two bytes, [C2 A0]. *)
Definition is_space2 (a b : ascii) : bool :=
  (nat_of_ascii a =? 194)%nat && (nat_of_ascii b =? 160)%nat.

(** The others are encoded in three bytes: U+1680 ([E1 9A 80]), U+2000 to
    U+200A ([E2 80 80] to [E2 80 8A]), U+2028 and U+2029 ([E2 80 A8],
    [E2 80 A9]), U+202F ([E2 80 AF]), U+205F ([E2 81 9F]), U+3000
    ([E3 80 80]) and U+FEFF ([EF BB BF]). *)
Definition is_space3 (a b c : ascii) : bool :=
  let x := nat_of_ascii a in
  let y := nat_of_ascii b in
  let z := nat_of_ascii c in
  ((x =? 225)%nat && (y =? 154)%nat && (z =? 128)%nat)
  || ((x =? 226)%nat && (y =? 128)%nat
      && (((128 <=? z)%nat && (z <=? 138)%nat) || (z =? 168)%nat || (z =? 169)%nat
          || (z =? 175)%nat))
  || ((x =? 226)%nat && (y =? 129)%nat && (z =? 159)%nat)
  || ((x =? 227)%nat && (y =? 128)%nat && (z =? 128)%nat)
  || ((x =? 239)%nat && (y =? 187)%nat && (z =? 191)%nat).

Fixpoint trimStart (s : string) : string :=
  match s with
  | String a s1 =>
      if is_space a then trimStart s1
      else
        match s1 with
        | String b s2 =>
            if is_space2 a b then trimStart s2
            else
              match s2 with
              | String c s3 => if is_space3 a b c then trimStart s3 else s
              | EmptyString => s
              end
        | EmptyString => s
        end
  | EmptyString => s
  end.

(** [trimEnd] drops the trailing white space: what is left of the string
    from some character on is dropped when it is white space only.  (A byte
    inside an encoded character begins no white space, so the test is only
    met at the beginning of a character.) *)
Fixpoint trimEnd (s : string) : string :=
  match s with
  | EmptyString => EmptyString
  | String c s' =>
      if String.eqb (trimStart s) "" then EmptyString else String c (trimEnd s')
  end.

Definition trim (s : string) : string := trimEnd (trimStart s).

(** ** JavaScript values produced by [JSON.parse]

    A number keeps its decimal literal: sign, digits (integer and fraction
    part read as one integer) and decimal exponent, denoting
    [± mant × 10^exp10]. *)

Record jsnum := mkNum { num_neg : bool; num_mant : N; num_exp10 : Z }.

Inductive jsval :=
| JNull
| JBool (b : bool)
| JNumber (n : jsnum)
| JString (s : string)
| JArray (items : list jsval)
| JObject (members : list (string * jsval)).

(** The double nearest to a literal is zero when its digits are all zero or
    when it lies at or below [2^-1075], half of the least subnormal (a tie
    rounds to the even neighbour, which is zero). *)
Definition num_is_zero (n : jsnum) : bool :=
  (num_mant n =? 0)%N ||
  ((num_exp10 n <? 0)%Z &&
   (Z.of_N (num_mant n) * 2 ^ 1075 <=? 10 ^ (- num_exp10 n))%Z).

(** [truthy v] is [!!v]. *)
Definition truthy (v : jsval) : bool :=
  match v with
  | JNull => false
  | JBool b => b
  | JNumber n => negb (num_is_zero n)
  | JString s => negb (String.eqb s "")
  | JArray _ | JObject _ => true
  end.

(** [truthy_opt] extends [truthy] to [undefined] ([None]). *)
Definition truthy_opt (v : option jsval) : bool :=
  match v with Some x => truthy x | None => false end.

(** Own property of an object built by [JSON.parse]: the last member with
    the key wins. *)
Fixpoint lookup_member (k : string) (ms : list (string * jsval)) : option jsval :=
  match ms with
  | [] => None
  | (k', v) :: ms' =>
      match lookup_member k ms' with
      | Some v' => Some v'
      | None => if String.eqb k k' then Some v else None
      end
  end.

(** [getProp v k] is [v.k] for the keys the code reads ("error", "message",
    "prompts", "<angle>_view_prompt"): none of them is a built-in property
    of arrays or of primitive wrappers, so only objects answer.  Reading a
    property of [null] raises a TypeError: [None] on the outside, and
    [Some None] is [undefined]. *)
Definition getProp (v : jsval) (k : string) : option (option jsval) :=
  match v with
  | JNull => None
  | JObject ms => Some (lookup_member k ms)
  | _ => Some None
  end.

(** *** JSON lexer *)

Inductive token :=
| TLBrace | TRBrace | TLBrack | TRBrack | TColon | TComma
| TTrue | TFalse | TNull
| TStr (s : string)
| TNum (n : jsnum).

Definition is_digit (c : ascii) : bool :=
  (48 <=? nat_of_ascii c)%nat && (nat_of_ascii c <=? 57)%nat.

Definition digit_val (c : ascii) : N := N.of_nat (nat_of_ascii c - 48).

Definition hex_val (c : ascii) : option N :=
  let n := nat_of_ascii c in
  if is_digit c then Some (N.of_nat (n - 48))
  else if (97 <=? n)%nat && (n <=? 102)%nat then Some (N.of_nat (n - 87))
  else if (65 <=? n)%nat && (n <=? 70)%nat then Some (N.of_nat (n - 55))
  else None.

(** Characters of a string literal before encoding: a source byte, or the
    UTF-16 code unit of a [\uXXXX] escape. *)
Inductive strunit := Raw (c : ascii) | Esc (u : N).

Definition byte_of (n : N) : ascii := ascii_of_N n.

(** UTF-8 encoding of a code point. *)
Definition utf8 (cp : N) : string :=
  (if cp <? 128 then String (byte_of cp) ""
   else if cp <? 2048 then
     String (byte_of (192 + cp / 64)) (String (byte_of (128 + cp mod 64)) "")
   else if cp <? 65536 then
     String (byte_of (224 + cp / 4096))
       (String (byte_of (128 + (cp / 64) mod 64))
          (String (byte_of (128 + cp mod 64)) ""))
   else
     String (byte_of (240 + cp / 262144))
       (String (byte_of (128 + (cp / 4096) mod 64))
          (String (byte_of (128 + (cp / 64) mod 64))
             (String (byte_of (128 + cp mod 64)) ""))))%N.

Definition is_high_surrogate (u : N) : bool := ((55296 <=? u) && (u <=? 56319))%N.
Definition is_low_surrogate (u : N) : bool := ((56320 <=? u) && (u <=? 57343))%N.

(** A high surrogate followed by a low one is one code point. *)
Fixpoint encode_units (us : list strunit) : string :=
  match us with
  | [] => ""
  | Raw c :: r => String c (encode_units r)
  | Esc hi :: r =>
      match r with
      | Esc lo :: r' =>
          if is_high_surrogate hi && is_low_surrogate lo
          then utf8 (65536 + (hi - 55296) * 1024 + (lo - 56320))%N ++ encode_units r'
          else utf8 hi ++ encode_units r
      | _ => utf8 hi ++ encode_units r
      end
  end.

(** The double-quote character, and a string literal in JSON source. *)
Definition dquote : ascii := ascii_of_nat 34.
Definition quoted (s : string) : string := String dquote (s ++ String dquote EmptyString).

(** Body of a string literal, after the opening quote. *)
Fixpoint lex_string (s : string) : option (list strunit * string) :=
  match s with
  | EmptyString => None
  | String c s' =>
      if Ascii.eqb c dquote then Some ([], s')
      else if Ascii.eqb c "\" then
        match s' with
        | EmptyString => None
        | String e s'' =>
            let simple (c' : ascii) :=
              match lex_string s'' with
              | Some (us, r) => Some (Raw c' :: us, r)
              | None => None
              end in
            if Ascii.eqb e dquote then simple dquote
            else if Ascii.eqb e "\" then simple "\"%char
            else if Ascii.eqb e "/" then simple "/"%char
            else if Ascii.eqb e "b" then simple (ascii_of_nat 8)
            else if Ascii.eqb e "f" then simple (ascii_of_nat 12)
            else if Ascii.eqb e "n" then simple (ascii_of_nat 10)
            else if Ascii.eqb e "r" then simple (ascii_of_nat 13)
            else if Ascii.eqb e "t" then simple (ascii_of_nat 9)
            else if Ascii.eqb e "u" then
              match s'' with
              | String h1 (String h2 (String h3 (String h4 r4))) =>
                  match hex_val h1, hex_val h2, hex_val h3, hex_val h4 with
                  | Some a, Some b, Some c', Some d =>
                      match lex_string r4 with
                      | Some (us, r) =>
                          Some (Esc (a * 4096 + b * 256 + c' * 16 + d)%N :: us, r)
                      | None => None
                      end
                  | _, _, _, _ => None
                  end
              | _ => None
              end
            else None
        end
      else if (nat_of_ascii c <? 32)%nat then None
      else
        match lex_string s' with
        | Some (us, r) => Some (Raw c :: us, r)
        | None => None
        end
  end.

(** A run of digits, accumulated into [acc]; returns how many were read. *)
Fixpoint lex_digits (s : string) (acc : N) (count : nat) : N * nat * string :=
  match s with
  | String c s' =>
      if is_digit c then lex_digits s' (acc * 10 + digit_val c)%N (S count)
      else (acc, count, s)
  | EmptyString => (acc, count, s)
  end.

(** A number literal after its optional minus sign: an integer part (a
    single zero, or a non-zero digit and more digits), an optional fraction
    (a dot and at least one digit) and an optional exponent (e or E, an
    optional sign, at least one digit). *)
Definition lex_number (neg : bool) (s : string) : option (jsnum * string) :=
  let int_part :=
    match s with
    | String c s' =>
        if Ascii.eqb c "0" then Some (0%N, s')
        else if is_digit c then
          let '(m, _, r) := lex_digits s 0%N 0 in Some (m, r)
        else None
    | EmptyString => None
    end in
  match int_part with
  | None => None
  | Some (m, r) =>
      let frac_part :=
        match r with
        | String "." r' =>
            let '(m', k, r'') := lex_digits r' m 0 in
            if (k =? 0)%nat then None else Some (m', Z.of_nat k, r'')
        | _ => Some (m, 0%Z, r)
        end in
      match frac_part with
      | None => None
      | Some (m', k, r') =>
          let exponent (e_neg : bool) (t : string) :=
            let '(e, n, t') := lex_digits t 0%N 0 in
            if (n =? 0)%nat then None
            else Some (mkNum neg m' ((if e_neg then - Z.of_N e else Z.of_N e) - k)%Z, t') in
          match r' with
          | String c t =>
              if Ascii.eqb c "e" || Ascii.eqb c "E" then
                match t with
                | String "+" t' => exponent false t'
                | String "-" t' => exponent true t'
                | _ => exponent false t
                end
              else Some (mkNum neg m' (- k)%Z, r')
          | EmptyString => Some (mkNum neg m' (- k)%Z, r')
          end
      end
  end.

(** JSON white space: space, tab, LF, CR. *)
Definition is_json_ws (c : ascii) : bool :=
  let n := nat_of_ascii c in
  (n =? 32)%nat || (n =? 9)%nat || (n =? 10)%nat || (n =? 13)%nat.

Fixpoint lex (fuel : nat) (s : string) : option (list token) :=
  match fuel with
  | O => None
  | S fuel' =>
      match s with
      | EmptyString => Some []
      | String c s' =>
          let one (t : token) (r : string) :=
            match lex fuel' r with
            | Some ts => Some (t :: ts)
            | None => None
            end in
          if is_json_ws c then lex fuel' s'
          else if Ascii.eqb c "{" then one TLBrace s'
          else if Ascii.eqb c "}" then one TRBrace s'
          else if Ascii.eqb c "[" then one TLBrack s'
          else if Ascii.eqb c "]" then one TRBrack s'
          else if Ascii.eqb c ":" then one TColon s'
          else if Ascii.eqb c "," then one TComma s'
          else if Ascii.eqb c dquote then
            match lex_string s' with
            | Some (us, r) => one (TStr (encode_units us)) r
            | None => None
            end
          else if Ascii.eqb c "-" then
            match lex_number true s' with
            | Some (n, r) => one (TNum n) r
            | None => None
            end
          else if is_digit c then
            match lex_number false s with
            | Some (n, r) => one (TNum n) r
            | None => None
            end
          else if startsWith s "true" then one TTrue (String.substring 4 (String.length s - 4) s)
          else if startsWith s "false" then one TFalse (String.substring 5 (String.length s - 5) s)
          else if startsWith s "null" then one TNull (String.substring 4 (String.length s - 4) s)
          else None
      end
  end.

(** *** JSON parser *)

Fixpoint parse_value (fuel : nat) (ts : list token) : option (jsval * list token) :=
  match fuel with
  | O => None
  | S fuel' =>
      match ts with
      | TNull :: r => Some (JNull, r)
      | TTrue :: r => Some (JBool true, r)
      | TFalse :: r => Some (JBool false, r)
      | TStr s :: r => Some (JString s, r)
      | TNum n :: r => Some (JNumber n, r)
      | TLBrack :: TRBrack :: r => Some (JArray [], r)
      | TLBrack :: r =>
          match parse_value fuel' r with
          | Some (v, r1) => parse_elements fuel' [v] r1
          | None => None
          end
      | TLBrace :: TRBrace :: r => Some (JObject [], r)
      | TLBrace :: TStr k :: TColon :: r =>
          match parse_value fuel' r with
          | Some (v, r1) => parse_members fuel' [(k, v)] r1
          | None => None
          end
      | _ => None
      end
  end
with parse_elements (fuel : nat) (acc : list jsval) (ts : list token)
  : option (jsval * list token) :=
  match fuel with
  | O => None
  | S fuel' =>
      match ts with
      | TRBrack :: r => Some (JArray (rev acc), r)
      | TComma :: r =>
          match parse_value fuel' r with
          | Some (v, r1) => parse_elements fuel' (v :: acc) r1
          | None => None
          end
      | _ => None
      end
  end
with parse_members (fuel : nat) (acc : list (string * jsval)) (ts : list token)
  : option (jsval * list token) :=
  match fuel with
  | O => None
  | S fuel' =>
      match ts with
      | TRBrace :: r => Some (JObject (rev acc), r)
      | TComma :: TStr k :: TColon :: r =>
          match parse_value fuel' r with
          | Some (v, r1) => parse_members fuel' ((k, v) :: acc) r1
          | None => None
          end
      | _ => None
      end
  end.

(** [JSON_parse s] is [JSON.parse(s)]; [None] is the SyntaxError.  Every
    recursive call of the lexer and of the parser follows the consumption
    of at least one character or token, so the fuel below is never
    exhausted on an input the grammar accepts. *)
Definition JSON_parse (s : string) : option jsval :=
  match lex (S (String.length s)) s with
  | None => None
  | Some ts =>
      match parse_value (S (List.length ts)) ts with
      | Some (v, []) => Some v
      | _ => None
      end
  end.

(** ** Thrown values

    [JsErr m] is an [Error] instance with message [m]; [JsThrown s] is any
    other thrown value, with [s] its [String(...)] rendering. *)
Inductive jsError :=
| JsErr (message : string)
| JsThrown (rendering : string).

(** ** utils/errorUtils.ts *)

Definition defaultMessage : string :=
  "An unexpected error occurred. Please check the console for details.".

Definition msg_invalid_key : string :=
  "Invalid API Key. Please ensure your API key is correct and has the necessary permissions.".
Definition msg_content_policy : string :=
  "Your prompt was blocked due to the content policy. Please modify your prompt and try again.".
Definition msg_quota : string :=
  "You've exceeded your quota. Please check your plan and billing details, then try again.".
Definition msg_unavailable : string :=
  "The model is temporarily unavailable or overloaded. Please try again later.".
Definition msg_key_access : string :=
  "API Key error. The selected API key may not have access to this model. Please try selecting your key again.".

(** The [try] block of [parseErrorMessage]: [Some v] when it returns [v],
    [None] when it falls through (or its exception is caught). *)
Definition parseErrorMessage_json (message : string) : option jsval :=
  match JSON_parse message with
  | None => None
  | Some parsed =>
      match getProp parsed "error" with
      | None => None
      | Some err =>
          if truthy_opt err then
            match err with
            | Some e =>
                match getProp e "message" with
                | Some (Some m) =>
                    if truthy m then
                      match m with
                      | JString text =>
                          if includes (toLowerCase text) "quota"
                          then Some (JString ("Quota exceeded. " ++ text))
                          else Some m
                      | _ => Some m
                      end
                    else None
                | _ => None
                end
            | None => None
            end
          else None
      end
  end.

(** The substring matching on the lower-cased message. *)
Definition parseErrorMessage_match (message : string) : string :=
  let errorMessage := toLowerCase message in
  if includes errorMessage "api key not valid" then msg_invalid_key
  else if includes errorMessage "blocked" || includes errorMessage "safety" then msg_content_policy
  else if includes errorMessage "429" || includes errorMessage "resource_exhausted"
          || includes errorMessage "rate limit" then msg_quota
  else if includes errorMessage "503" || includes errorMessage "unavailable"
          || includes errorMessage "overloaded" then msg_unavailable
  else if includes errorMessage "requested entity was not found" then msg_key_access
  else if String.eqb message "" then defaultMessage else message.

Definition parseErrorMessage (error : jsError) : jsval :=
  match error with
  | JsThrown _ => JString defaultMessage
  | JsErr message =>
      match parseErrorMessage_json message with
      | Some v => v
      | None => JString (parseErrorMessage_match message)
      end
  end.

(** *** Engine-defined renderings

    What the JavaScript engine chooses is a parameter: how a number prints
    ([Number.prototype.toString]) and the messages of the SyntaxError of
    [JSON.parse] and of the TypeError of reading a property of [undefined]
    or [null]; and whether the browser parses a string as a URL. *)

Record Host := mkHost {
  numberToString : jsnum -> string;
  syntaxErrorMessage : string -> string;   (* by the text that failed to parse *)
  typeErrorMessage : string -> string;     (* by the property that was read *)
  validURL : string -> bool                (* [new URL(s)] does not throw *)
}.

Fixpoint join (sep : string) (l : list string) : string :=
  match l with
  | [] => ""
  | [x] => x
  | x :: r => x ++ sep ++ join sep r
  end.

(** [String(v)], also the interpolation of [v] in a template literal. *)
Fixpoint toString (host : Host) (v : jsval) : string :=
  match v with
  | JNull => "null"
  | JBool true => "true"
  | JBool false => "false"
  | JNumber n => numberToString host n
  | JString s => s
  | JArray items =>
      join "," (map (fun x => match x with JNull => "" | _ => toString host x end) items)
  | JObject _ => "[object Object]"
  end.

(** [new Error(v)]: the message is [String(v)]. *)
Definition newError (host : Host) (v : jsval) : jsError := JsErr (toString host v).

Definition syntaxError (host : Host) (text : string) : jsError :=
  JsErr (syntaxErrorMessage host text).

Definition typeError (host : Host) (property : string) : jsError :=
  JsErr (typeErrorMessage host property).

(** *** [JSON.stringify] *)

Definition hex_digit (n : N) : ascii :=
  if (n <? 10)%N then ascii_of_N (48 + n) else ascii_of_N (87 + n).

Definition backslash : ascii := ascii_of_nat 92.

Definition escape_char (c : ascii) : string :=
  let n := nat_of_ascii c in
  if Ascii.eqb c dquote then String backslash (String dquote "")
  else if Ascii.eqb c backslash then String backslash (String backslash "")
  else if (n =? 8)%nat then String backslash "b"
  else if (n =? 12)%nat then String backslash "f"
  else if (n =? 10)%nat then String backslash "n"
  else if (n =? 13)%nat then String backslash "r"
  else if (n =? 9)%nat then String backslash "t"
  else if (n <? 32)%nat then
    String backslash
      (String "u" (String "0" (String "0"
         (String (hex_digit (N.of_nat n / 16)) (String (hex_digit (N.of_nat n mod 16)) "")))))
  else String c "".

Fixpoint escape_string (s : string) : string :=
  match s with
  | EmptyString => EmptyString
  | String c s' => escape_char c ++ escape_string s'
  end.

Fixpoint JSON_stringify (host : Host) (v : jsval) : string :=
  match v with
  | JNull => "null"
  | JBool true => "true"
  | JBool false => "false"
  | JNumber n => numberToString host n
  | JString s => quoted (escape_string s)
  | JArray items => "[" ++ join "," (map (JSON_stringify host) items) ++ "]"
  | JObject members =>
      "{" ++ join ","
               (map (fun kv => (quoted (escape_string (fst kv)) ++ ":"
                                  ++ JSON_stringify host (snd kv))%string) members)
          ++ "}"
  end.

(** ** Asynchronous computations

    A computation runs on a world: a store (whatever the callee's state is)
    and a journal of the observable events in the order they happen.  A
    promise that rejects, like a [throw], is [Rejected]. *)

Inductive outcome (A : Type) :=
| Resolved (a : A)
| Rejected (e : jsError).
Arguments Resolved {A} a.
Arguments Rejected {A} e.

(** Remote operations of the generative backend, by SDK method and model. *)
Inductive endpoint :=
| EpText      (* models.generateContent, gemini-2.5-pro *)
| EpImage     (* models.generateContent, gemini-2.5-flash-image *)
| EpImagen    (* models.generateImages, imagen-4.0-generate-001 *)
| EpSpeech    (* models.generateContent, gemini-2.5-flash-preview-tts *)
| EpVideo     (* models.generateVideos *)
| EpPoll      (* operations.getVideosOperation *)
| EpFetch.    (* fetch of the download link *)

Inductive event :=
| EvInvoke                      (* the operation wrapped by withRetry starts *)
| EvRemote (ep : endpoint)      (* a request is sent *)
| EvDelay (ms : N)              (* delay(ms) elapses *)
| EvProgress (msg : string)     (* the progress callback is called *)
| EvLog (msg : string).         (* console.log *)

Record world (St : Type) := mkWorld { store : St; journal : list event }.
Arguments mkWorld {St} store journal.
Arguments store {St} w.
Arguments journal {St} w.

Definition M (St A : Type) : Type := world St -> outcome A * world St.

Definition ret {St A} (a : A) : M St A := fun w => (Resolved a, w).

Definition throw {St A} (e : jsError) : M St A := fun w => (Rejected e, w).

Definition bind {St A B} (m : M St A) (k : A -> M St B) : M St B :=
  fun w =>
    match m w with
    | (Resolved a, w') => k a w'
    | (Rejected e, w') => (Rejected e, w')
    end.

(** [try { m } catch (error) { handler error }] *)
Definition try_catch {St A} (m : M St A) (handler : jsError -> M St A) : M St A :=
  fun w =>
    match m w with
    | (Resolved a, w') => (Resolved a, w')
    | (Rejected e, w') => handler e w'
    end.

Declare Scope async_scope.
Delimit Scope async_scope with async.
Notation "x <- m ;; k" := (bind m (fun x => k))
  (at level 100, m at next level, right associativity) : async_scope.
Notation "m ;;; k" := (bind m (fun _ => k))
  (at level 100, right associativity) : async_scope.
Open Scope async_scope.

Definition emit {St} (e : event) : M St unit :=
  fun w => (Resolved tt, mkWorld (store w) (journal w ++ [e])).

(** [await delay(ms)] *)
Definition delay {St} (ms : N) : M St unit := emit (EvDelay ms).

Definition console_log {St} (msg : string) : M St unit := emit (EvLog msg).

(** The progress callbacks the UI passes: [setLoadingMessage], recorded in
    the journal, and [() => {}]. *)
Definition setLoadingMessage {St} (msg : string) : M St unit := emit (EvProgress msg).
Definition noProgress {St} (msg : string) : M St unit := ret tt.

(** Read and update the store. *)
Definition get_store {St} : M St St := fun w => (Resolved (store w), w).
Definition put_store {St} (s : St) : M St unit :=
  fun w => (Resolved tt, mkWorld s (journal w)).

(** An arbitrary zero-argument asynchronous operation over the store: each
    invocation is recorded in the journal. *)
Definition invoke {St T} (op : St -> outcome T * St) : M St T :=
  fun w =>
    let '(r, s') := op (store w) in
    (r, mkWorld s' (journal w ++ [EvInvoke])).

(** ** services/geminiService.ts: [withRetry] *)

Definition maxRetries : nat := 3.

Definition terminalError : jsError := JsErr "API call failed after multiple retries.".

(** [error instanceof Error ? error.message : String(error)] *)
Definition errorMessageOf (error : jsError) : string :=
  match error with
  | JsErr message => message
  | JsThrown rendering => rendering
  end.

Definition isRetryable (errorMessage : string) : bool :=
  includes errorMessage "503"
  || includes (toLowerCase errorMessage) "overloaded"
  || includes errorMessage "429".

(** [Math.pow(2, attempt) * 15] *)
Definition delaySeconds (attempt : nat) : N := (2 ^ N.of_nat attempt * 15)%N.

Definition retryMsg (attempt : nat) : string :=
  "Model is busy. Retrying in " ++ pretty (delaySeconds attempt) ++ "s... (Attempt "
    ++ pretty attempt ++ "/" ++ pretty maxRetries ++ ")".

Section WithRetry.
Context {St T : Type}.
Variable apiCall : M St T.
Variable onRetryMessage : option (string -> M St unit).

(** The [while (attempt < maxRetries)] loop.  Every iteration that does not
    leave the function increments [attempt], so the loop is defined by
    recursion on [remaining = maxRetries - attempt]; [remaining = 0] is the
    loop test failing, which leads to the statement after the loop. *)
Fixpoint withRetry_loop (remaining attempt : nat) : M St T :=
  match remaining with
  | O => throw terminalError
  | S remaining' =>
      try_catch apiCall (fun error =>
        let attempt := S attempt in
        let errorMessage := errorMessageOf error in
        if isRetryable errorMessage && (attempt <? maxRetries)%nat then
          (match onRetryMessage with
           | Some callback => callback (retryMsg attempt)
           | None => console_log (retryMsg attempt)
           end) ;;;
          delay (delaySeconds attempt * 1000) ;;;
          withRetry_loop remaining' attempt
        else throw error)
  end.

Definition withRetry : M St T := withRetry_loop (maxRetries - 0) 0.

End WithRetry.

(** Outcomes of the first [n] invocations of an operation started on [s],
    each on the store its predecessor left. *)
Fixpoint outcomes {St T} (op : St -> outcome T * St) (s : St) (n : nat) : list (outcome T) :=
  match n with
  | O => []
  | S n' => let '(r, s') := op s in r :: outcomes op s' n'
  end.

Fixpoint count_invocations (j : list event) : nat :=
  match j with
  | [] => 0
  | EvInvoke :: r => S (count_invocations r)
  | _ :: r => count_invocations r
  end.

Fixpoint delays (j : list event) : list N :=
  match j with
  | [] => []
  | EvDelay ms :: r => ms :: delays r
  | _ :: r => delays r
  end.

Definition transient_failure {T} (r : outcome T) : Prop :=
  match r with
  | Rejected e => isRetryable (errorMessageOf e) = true
  | Resolved _ => False
  end.

(** *** The classification of a failure in the words of the specification

    To be compared with [isRetryable]: a message is transient when it
    contains '503', 'overloaded' in any letter case, or '429'.  Two
    characters are the same letter when they are equal or are the upper and
    the lower case of one ASCII letter. *)
Definition same_letter (a b : ascii) : bool :=
  Ascii.eqb a b
  || (is_upper a && (nat_of_ascii b =? nat_of_ascii a + 32)%nat)
  || (is_upper b && (nat_of_ascii a =? nat_of_ascii b + 32)%nat).

Fixpoint startsWith_anycase (s p : string) : bool :=
  match p, s with
  | EmptyString, _ => true
  | String _ _, EmptyString => false
  | String a p', String b s' => same_letter a b && startsWith_anycase s' p'
  end.

Fixpoint includes_anycase (s p : string) : bool :=
  startsWith_anycase s p ||
  match s with
  | EmptyString => false
  | String _ s' => includes_anycase s' p
  end.

Definition transient_message (message : string) : Prop :=
  includes message "503" = true
  \/ includes_anycase message "overloaded" = true
  \/ includes message "429" = true.

Definition transient_outcome {T} (r : outcome T) : Prop :=
  match r with
  | Rejected e => transient_message (errorMessageOf e)
  | Resolved _ => False
  end.

Definition start {St} (s : St) : world St := mkWorld s [].

(** ** The generative backend

    The backend is a black box: for each remote operation, the reply to its
    n-th request.  Any backend, whatever it makes of the request text, gives
    the client such replies, so what holds for all scripts holds for all
    backends; requests are therefore recorded by operation only, and the
    instruction text sent with them is not part of the model. *)

(** One part of a candidate: [inlineData] when present, with its [data]. *)
Record Part := mkPart { inlineData : option (option string) }.

Record GenerateContentResponse := mkResponse {
  text : option string;                    (* response.text *)
  candidate_parts : option (list Part)     (* response.candidates?.[0]?.content?.parts *)
}.

(** [generatedImages], each with its [image?.imageBytes]. *)
Record GenerateImagesResponse := mkImages {
  generatedImages : option (list (option string))
}.

(** The video handle [operation.response?.generatedVideos?.[0]?.video]. *)
Record VideoObject := mkVideoObject { uri : option string }.

Record VideoOperation := mkOperation {
  done : bool;
  operation_error : option jsval;
  video : option VideoObject
}.

Record FetchResponse := mkFetch {
  ok : bool;
  http_status : nat;
  statusText : string;
  body_text : outcome string;     (* await response.text() *)
  body_blob : outcome string      (* await response.blob() *)
}.

Record Backend := mkBackend {
  API_KEY : option string;                               (* process.env.API_KEY *)
  text_replies : nat -> outcome GenerateContentResponse;
  image_replies : nat -> outcome GenerateContentResponse;
  imagen_replies : nat -> outcome GenerateImagesResponse;
  speech_replies : nat -> outcome GenerateContentResponse;
  video_replies : nat -> outcome VideoOperation;
  poll_replies : nat -> outcome VideoOperation;
  fetch_replies : nat -> outcome FetchResponse;
  served : endpoint -> nat;                              (* requests answered so far *)
  object_urls : nat                                      (* URL.createObjectURL calls so far *)
}.

Definition endpoint_eqb (a b : endpoint) : bool :=
  match a, b with
  | EpText, EpText | EpImage, EpImage | EpImagen, EpImagen | EpSpeech, EpSpeech
  | EpVideo, EpVideo | EpPoll, EpPoll | EpFetch, EpFetch => true
  | _, _ => false
  end.

Definition answered (ep : endpoint) (b : Backend) : Backend :=
  mkBackend (API_KEY b) (text_replies b) (image_replies b) (imagen_replies b)
    (speech_replies b) (video_replies b) (poll_replies b) (fetch_replies b)
    (fun e => if endpoint_eqb e ep then S (served b e) else served b e)
    (object_urls b).

(** One request to [ep]: the reply is the next one of the script. *)
Definition request {A} (ep : endpoint) (replies : Backend -> nat -> outcome A)
  : M Backend A :=
  fun w =>
    let b := store w in
    (replies b (served b ep), mkWorld (answered ep b) (journal w ++ [EvRemote ep])).

(** [!!s] for a string that may be null or undefined. *)
Definition truthy_str (s : option string) : bool :=
  match s with
  | Some x => negb (String.eqb x "")
  | None => false
  end.

(** [getAiClient]: only the check of the key matters here. *)
Definition getAiClient : M Backend unit :=
  b <- get_store ;;
  if truthy_str (API_KEY b) then ret tt
  else throw (JsErr "API_KEY environment variable not set").

(** ** services/geminiService.ts: data *)

Record Character := mkCharacter {
  id : nat;
  name : string;
  imagePreview : option string;
  originalImageBase64 : option string;
  originalImageMimeType : option string;
  description : option string;
  detectedImageStyle : option string;
  isDescribing : bool
}.

(** [StoryboardScene] with the [App.tsx] extension [AppStoryboardScene].
    [prompt] and [error] are typed [string] in the source, but hold whatever
    the parsed replies contain.  An absent optional field and [null] are
    both [None]. *)
Record Scene := mkScene {
  src : option string;
  prompt : jsval;
  error : option jsval;
  isCameraAngleFor : option nat;
  isRegenerating : bool;
  isGeneratingAngles : bool;
  isEditing : bool;
  previousSrc : option string
}.

(** [{ prompt, src, error }] *)
Definition scene (prompt : jsval) (src : option string) (error : option jsval) : Scene :=
  mkScene src prompt error None false false false None.

Record ImageResult := mkImageResult {
  result_src : option string;
  result_error : option jsval
}.

Definition msg_no_image : string :=
  "The model returned a success status but no image data. This may be due to a safety filter or an issue with the complexity of the prompt. Please try a different prompt.".

Section Services.
Variable host : Host.

(** [response.text.trim()] *)
Definition text_trim (response : GenerateContentResponse) : M Backend string :=
  match text response with
  | Some t => ret (trim t)
  | None => throw (typeError host "trim")
  end.

Definition describeImageForConsistency (imageBase64 : string) : M Backend string :=
  getAiClient ;;;
  response <- withRetry (request EpText text_replies) None ;;
  text_trim response.

(** [for (const part of parts) if (part.inlineData) return part.inlineData.data] *)
Fixpoint first_inlineData (parts : list Part) : option (option string) :=
  match parts with
  | [] => None
  | p :: r =>
      match inlineData p with
      | Some data => Some data
      | None => first_inlineData r
      end
  end.

Definition has_reference_image (c : Character) : bool :=
  truthy_str (originalImageBase64 c) && truthy_str (originalImageMimeType c).

Definition generateSingleImage
  (prompt : jsval) (aspectRatio imageStyle genre : string)
  (charactersForPrompt allCharactersWithStyles : list Character)
  (imageModel : string)
  (referenceImageSrc referenceDescriptionOverride : option string)
  : M Backend ImageResult :=
  getAiClient ;;;
  try_catch
    (referenceDescription <-
       (if truthy_str referenceDescriptionOverride
        then ret (default "" referenceDescriptionOverride)
        else match referenceImageSrc with
             | Some ref => if negb (String.eqb ref "")
                           then describeImageForConsistency ref else ret ""
             | None => ret ""
             end) ;;
     let forceNanoBanana := existsb has_reference_image allCharactersWithStyles in
     let isNanoBanana := String.eqb imageModel "gemini-2.5-flash-image" || forceNanoBanana in
     if isNanoBanana then
       response <- withRetry (request EpImage image_replies) None ;;
       match first_inlineData (default [] (candidate_parts response)) with
       | Some data => ret (mkImageResult data None)
       | None => ret (mkImageResult None (Some (JString msg_no_image)))
       end
     else
       response <- withRetry (request EpImagen imagen_replies) None ;;
       match generatedImages response with
       | Some (image :: _) =>
           if truthy_str image then ret (mkImageResult image None)
           else ret (mkImageResult None (Some (JString msg_no_image)))
       | _ => ret (mkImageResult None (Some (JString msg_no_image)))
       end)
    (fun error => ret (mkImageResult None (Some (parseErrorMessage error)))).

(** The [for] loop of [generateImagesFromPrompts], at index [i] with the
    prompts from [i] on still to do; [total] is [prompts.length]. *)
Fixpoint generateImagesFromPrompts_loop
  (rest : list jsval) (i total : nat) (scenes : list Scene)
  (aspectRatio imageStyle genre : string)
  (charactersForPrompt allCharactersWithStyles : list Character) (imageModel : string)
  (onProgress : string -> M Backend unit)
  : M Backend (list Scene) :=
  match rest with
  | [] => ret scenes
  | p :: rest' =>
      onProgress ("Generating image " ++ pretty (i + 1) ++ " of " ++ pretty total ++ "...")%string ;;;
      r <- generateSingleImage p aspectRatio imageStyle genre
             charactersForPrompt allCharactersWithStyles imageModel None None ;;
      let scenes := (scenes ++ [scene p (result_src r) (result_error r)])%list in
      (if (i <? total - 1)%nat
       then (onProgress "Pausing to avoid rate limits..." ;;; delay 15000)
       else ret tt) ;;;
      generateImagesFromPrompts_loop rest' (S i) total scenes
        aspectRatio imageStyle genre charactersForPrompt allCharactersWithStyles imageModel
        onProgress
  end.

Definition generateImagesFromPrompts
  (prompts : list jsval) (aspectRatio imageStyle genre : string)
  (charactersForPrompt allCharactersWithStyles : list Character) (imageModel : string)
  (onProgress : string -> M Backend unit)
  : M Backend (list Scene) :=
  generateImagesFromPrompts_loop prompts 0 (length prompts) []
    aspectRatio imageStyle genre charactersForPrompt allCharactersWithStyles imageModel
    onProgress.

(** [JSON.parse(text)] as a computation. *)
Definition JSON_parse_or_throw (text : string) : M Backend jsval :=
  match JSON_parse text with
  | Some v => ret v
  | None => throw (syntaxError host text)
  end.

(** The validation of the breakdown reply:
    [!parsed.prompts || !Array.isArray(parsed.prompts) || parsed.prompts.length === 0]
    throws; otherwise [parsed.prompts] is returned as it is. *)
Definition validate_prompts (parsed : jsval) : M Backend (list jsval) :=
  match getProp parsed "prompts" with
  | None => throw (typeError host "prompts")
  | Some (Some (JArray (p :: ps))) => ret (p :: ps)
  | Some _ => throw (JsErr "AI failed to return a valid array of prompts.")
  end.

Definition generatePromptsFromBase
  (basePrompt : string) (sceneCount : nat) (genre : string) (characters : list Character)
  : M Backend (list jsval) :=
  getAiClient ;;;
  response <- withRetry (request EpText text_replies) None ;;
  jsonStr <- text_trim response ;;
  parsed <- JSON_parse_or_throw jsonStr ;;
  validate_prompts parsed.

Definition generateImageSet
  (promptText : string) (imageCount : nat) (aspectRatio imageStyle genre : string)
  (charactersForPrompt allCharactersWithStyles : list Character) (imageModel : string)
  (onProgress : string -> M Backend unit)
  : M Backend (list Scene) :=
  try_catch
    (onProgress "Breaking down the story into scenes..." ;;;
     scenePrompts <- generatePromptsFromBase promptText imageCount genre charactersForPrompt ;;
     generateImagesFromPrompts scenePrompts aspectRatio imageStyle genre
       charactersForPrompt allCharactersWithStyles imageModel onProgress)
    (fun error =>
       match error with
       | JsErr _ => throw (newError host (parseErrorMessage error))
       | JsThrown _ => throw (JsErr "An unknown error occurred during image set generation.")
       end).

(** *** Camera-angle pipeline *)

Definition msg_no_edit : string :=
  "The model did not return an edited image. The edit may have been rejected by a safety filter.".

(** [EditImageParams] without the image payloads, which only go into the
    request. *)
Definition editImage (editPrompt : jsval) (aspectRatio imageStyle genre : string)
  (characters : list Character) : M Backend ImageResult :=
  getAiClient ;;;
  try_catch
    (response <- withRetry (request EpImage image_replies) None ;;
     match first_inlineData (default [] (candidate_parts response)) with
     | Some data => ret (mkImageResult data None)
     | None => ret (mkImageResult None (Some (JString msg_no_edit)))
     end)
    (fun error => ret (mkImageResult None (Some (parseErrorMessage error)))).

Definition analyzeEnvironmentForCameraPlacement (imageBase64 : string) (angles : list string)
  : M Backend jsval :=
  getAiClient ;;;
  response <- withRetry (request EpText text_replies) None ;;
  try_catch
    (jsonStr <- text_trim response ;;
     JSON_parse_or_throw jsonStr)
    (fun _ => throw (JsErr "AI failed to return a valid camera placement plan.")).

(** [cameraPrompts]: the parsed plan, and the canned front instruction once
    it has been assigned to the key [front_view_prompt]. *)
Record CameraPrompts := mkCameraPrompts {
  plan : jsval;
  front_view_prompt : option string
}.

Definition front_instruction : string :=
  "Render the scene from a direct front-on camera angle, facing the main character. The character's pose and the room's layout remain unchanged.".

(** [cameraPrompts['front_view_prompt'] = ...]: objects and arrays take the
    property; on a primitive or [null] the assignment is a TypeError (module
    code is strict). *)
Definition assign_front (cameraPrompts : CameraPrompts) : M Backend CameraPrompts :=
  match plan cameraPrompts with
  | JObject _ | JArray _ => ret (mkCameraPrompts (plan cameraPrompts) (Some front_instruction))
  | _ => throw (typeError host "front_view_prompt")
  end.

(** [cameraPrompts[`${angle}_view_prompt`]] *)
Definition lookup_prompt (cameraPrompts : CameraPrompts) (angle : string)
  : M Backend (option jsval) :=
  let anglePromptKey := (angle ++ "_view_prompt")%string in
  match front_view_prompt cameraPrompts with
  | Some front =>
      if String.eqb anglePromptKey "front_view_prompt" then ret (Some (JString front))
      else match getProp (plan cameraPrompts) anglePromptKey with
           | Some v => ret v
           | None => throw (typeError host anglePromptKey)
           end
  | None =>
      match getProp (plan cameraPrompts) anglePromptKey with
      | Some v => ret v
      | None => throw (typeError host anglePromptKey)
      end
  end.

Fixpoint generateCameraAngles_loop
  (rest : list string) (i total : nat) (generatedScenes : list Scene)
  (cameraPrompts : CameraPrompts) (aspectRatio imageStyle genre : string)
  (characters : list Character) (onProgress : string -> M Backend unit)
  : M Backend (list Scene) :=
  match rest with
  | [] => ret generatedScenes
  | angle :: rest' =>
      finalEditPrompt <- lookup_prompt cameraPrompts angle ;;
      if negb (truthy_opt finalEditPrompt) then
        generateCameraAngles_loop rest' (S i) total
          (generatedScenes ++
             [scene (JString ("Failed to generate prompt for " ++ angle ++ " view")) None
                (Some (JString ("AI analysis did not provide a prompt for the "
                                  ++ angle ++ " view.")))])%list
          cameraPrompts aspectRatio imageStyle genre characters onProgress
      else
        onProgress ("Generating '" ++ angle ++ "' view... (" ++ pretty (i + 1) ++ "/"
                      ++ pretty total ++ ")")%string ;;;
        r <- editImage (default JNull finalEditPrompt) aspectRatio imageStyle genre characters ;;
        let generatedScenes :=
          (generatedScenes ++
             [scene (default JNull finalEditPrompt) (result_src r) (result_error r)])%list in
        (if (i <? total - 1)%nat
         then (onProgress "Pausing before next angle..." ;;; delay 15000)
         else ret tt) ;;;
        generateCameraAngles_loop rest' (S i) total generatedScenes
          cameraPrompts aspectRatio imageStyle genre characters onProgress
  end.

Definition generateCameraAnglesFromImage
  (referenceScene : Scene) (aspectRatio imageStyle genre : string)
  (characters : list Character) (imageModel : string)
  (angleNames : list string) (onProgress : string -> M Backend unit)
  : M Backend (list Scene) :=
  if negb (truthy_str (src referenceScene))
  then throw (JsErr "Reference scene is missing image source.")
  else
    onProgress "Extending original image..." ;;;
    extended <- editImage (JString "Perform 'outpainting' on this image. Extend the image on all sides to reveal more of the surrounding environment. Fill in the new areas naturally, seamlessly blending with the existing content, style, and lighting. Do not alter any of the original pixels. The goal is to create a wider, more complete view of the scene.")
                  aspectRatio imageStyle genre characters ;;
    if truthy_opt (result_error extended) || negb (truthy_str (result_src extended)) then
      throw (JsErr ("Could not extend the base image: "
                      ++ (if truthy_opt (result_error extended)
                          then toString host (default JNull (result_error extended))
                          else "Unknown error")))
    else
      onProgress "Analyzing extended environment..." ;;;
      let anglesToAnalyze := List.filter (fun name => negb (String.eqb name "front")) angleNames in
      cameraPrompts <-
        (match anglesToAnalyze with
         | [] => ret (JObject [])
         | _ :: _ => analyzeEnvironmentForCameraPlacement
                       (default "" (result_src extended)) anglesToAnalyze
         end) ;;
      cameraPrompts <-
        (if existsb (String.eqb "front") angleNames
         then assign_front (mkCameraPrompts cameraPrompts None)
         else ret (mkCameraPrompts cameraPrompts None)) ;;
      generateCameraAngles_loop angleNames 0 (length angleNames) [] cameraPrompts
        aspectRatio imageStyle genre characters onProgress.

End Services.

(** ** App.tsx: data *)

Inductive VideoStatus := idle | loading | success | failed.   (* 'error' *)

Inductive VoiceoverMode := tts | upload.

Record VideoClip := mkVideoClip {
  videoUrl : option string;
  audioUrl : option string;
  videoObject : option VideoObject;
  audioBase64 : option string
}.

Record VideoState := mkVideoState {
  status : VideoStatus;
  clips : list VideoClip;
  currentClipIndex : nat;
  video_error : option string;          (* error *)
  loadingMessage : string;
  showScriptInput : bool;
  scriptPrompt : string;
  voiceoverMode : VoiceoverMode;
  voiceoverFile : option string;
  speaker : string;
  cameraMovement : string
}.

Definition getInitialVideoState : VideoState :=
  mkVideoState idle [] 0 None "" false "" tts None "Narrator" "Static Hold".

Record GenerationItem := mkGenerationItem {
  item_id : nat;                        (* id *)
  item_prompt : string;                 (* prompt *)
  imageSet : list Scene;
  videoStates : list VideoState;
  item_aspectRatio : string;
  item_imageStyle : string;
  item_genre : string;
  item_characters : list Character;
  item_imageModel : string
}.

Definition with_scenes (item : GenerationItem) (scenes : list Scene) (vs : list VideoState)
  : GenerationItem :=
  mkGenerationItem (item_id item) (item_prompt item) scenes vs (item_aspectRatio item)
    (item_imageStyle item) (item_genre item) (item_characters item) (item_imageModel item).

Definition with_imageSet (item : GenerationItem) (scenes : list Scene) : GenerationItem :=
  with_scenes item scenes (videoStates item).

(** [{ ...scene, isCameraAngleFor: p }] *)
Definition set_parent (s : Scene) (p : option nat) : Scene :=
  mkScene (src s) (prompt s) (error s) p (isRegenerating s) (isGeneratingAngles s)
    (isEditing s) (previousSrc s).

(** [{ ...scene, isGeneratingAngles: flag }] *)
Definition set_generating (s : Scene) (flag : bool) : Scene :=
  mkScene (src s) (prompt s) (error s) (isCameraAngleFor s) (isRegenerating s) flag
    (isEditing s) (previousSrc s).

(** [{ ...scene, isGeneratingAngles: false, error: e }] *)
Definition settle_angles (s : Scene) (e : option jsval) : Scene :=
  mkScene (src s) (prompt s) e (isCameraAngleFor s) (isRegenerating s) false
    (isEditing s) (previousSrc s).

Record AppStatus := mkAppStatus {
  app_status : VideoStatus;             (* 'idle' | 'loading' | 'error' *)
  app_error : option jsval
}.

(** What [handleGenerateImage] reads from the component state. *)
Record Inputs := mkInputs {
  promptText : string;
  imageCount : nat;
  aspectRatio : string;
  imageStyle : string;
  imageModel : string;
  genre : string;
  characters : list Character
}.

(** [arr.splice(start, 0, ...items)]: [start] is clamped to the length. *)
Definition splice {A} (arr : list A) (start : nat) (items : list A) : list A :=
  take start arr ++ items ++ drop start arr.

(** [arr.findIndex(item => item.id === generationId)] *)
Fixpoint findIndex (generationId : nat) (l : list GenerationItem) : option nat :=
  match l with
  | [] => None
  | item :: r =>
      if (item_id item =? generationId)%nat then Some 0
      else option_map S (findIndex generationId r)
  end.

Section Handlers.
Variable host : Host.

(** *** [handleGenerateImage]

    [now] is [Date.now()].  The deep copy of the roster through JSON is the
    identity on the fields of [Character]. *)
Definition handleGenerateImage (now : nat) (inputs : Inputs) (prev : list GenerationItem)
  : M Backend (list GenerationItem * AppStatus) :=
  if String.eqb (promptText inputs) "" then
    ret (prev, mkAppStatus failed
                 (Some (JString "Please enter a prompt or upload audio to generate one.")))
  else
    setLoadingMessage "Initializing..." ;;;
    try_catch
      (storyboard <-
         generateImageSet host (promptText inputs) (imageCount inputs) (aspectRatio inputs)
           (imageStyle inputs) (genre inputs)
           (List.filter (fun c => negb (String.eqb (name c) "") && truthy_str (description c))
              (characters inputs))
           (characters inputs) (imageModel inputs) setLoadingMessage ;;
       let newGenerationItem :=
         mkGenerationItem now (promptText inputs) storyboard
           (map (fun _ => getInitialVideoState) (replicate (length storyboard) tt))
           (aspectRatio inputs) (imageStyle inputs) (genre inputs) (characters inputs)
           (imageModel inputs) in
       ret (newGenerationItem :: prev, mkAppStatus idle None))
      (fun err => ret (prev, mkAppStatus failed (Some (parseErrorMessage err)))).

(** *** [handleConfirmAngleGeneration] (generated items) *)

(** The first [map] of the state update: parent references past the scene
    move by the number of new scenes. *)
Definition shift_parent (sceneIndex count : nat) (s : Scene) : Scene :=
  match isCameraAngleFor s with
  | Some p => if (sceneIndex <? p)%nat then set_parent s (Some (p + count)) else s
  | None => s
  end.

(** The state update for the item of the request.  The last assignment
    writes at [sceneIndex]: past the end of the array JavaScript would
    extend it with empty slots, which is no array of scenes any more
    ([None]). *)
Definition insertAngles (sceneIndex : nat) (newScenes : list Scene) (item : GenerationItem)
  : option GenerationItem :=
  let newImageSet := imageSet item in
  let newVideoStates := videoStates item in
  let updatedImageSet := map (shift_parent sceneIndex (length newScenes)) newImageSet in
  let updatedImageSet :=
    splice updatedImageSet (sceneIndex + 1)
      (map (fun s => set_parent s (Some sceneIndex)) newScenes) in
  let newVideoStates :=
    splice newVideoStates (sceneIndex + 1)
      (map (fun _ => getInitialVideoState) (replicate (length newScenes) tt)) in
  match updatedImageSet !! sceneIndex with
  | Some s =>
      Some (with_scenes item (<[sceneIndex := settle_angles s None]> updatedImageSet)
              newVideoStates)
  | None => None
  end.

(** The same state update with the scene array as JavaScript leaves it in
    every case.  An element of that array is a scene; or the object
    [{ isGeneratingAngles: false, error: null }], which is what the last
    assignment builds when there is nothing at [sceneIndex] to spread; or
    an empty slot, when that assignment lands past the end. *)
Inductive Slot :=
| Full (s : Scene)
| FlagsOnly
| EmptySlot.

(** [arr[index] = value]: past the end the array grows, with empty slots
    in between. *)
Definition assign (index : nat) (value : Slot) (arr : list Slot) : list Slot :=
  if (index <? length arr)%nat then <[index := value]> arr
  else arr ++ replicate (index - length arr) EmptySlot ++ [value].

Definition insertAngles_slots (sceneIndex : nat) (newScenes : list Scene) (item : GenerationItem)
  : list Slot * list VideoState :=
  let newImageSet := imageSet item in
  let newVideoStates := videoStates item in
  let updatedImageSet := map (shift_parent sceneIndex (length newScenes)) newImageSet in
  let updatedImageSet :=
    splice updatedImageSet (sceneIndex + 1)
      (map (fun s => set_parent s (Some sceneIndex)) newScenes) in
  let newVideoStates :=
    splice newVideoStates (sceneIndex + 1)
      (map (fun _ => getInitialVideoState) (replicate (length newScenes) tt)) in
  (assign sceneIndex
     (match updatedImageSet !! sceneIndex with
      | Some s => Full (settle_angles s None)
      | None => FlagsOnly
      end)
     (Full <$> updatedImageSet),
   newVideoStates).

(** An item as its two arrays. *)
Definition slots_of (item : GenerationItem) : list Slot * list VideoState :=
  (Full <$> imageSet item, videoStates item).

(** [prev.map(item => item.id !== generationId ? item : update item)] *)
Fixpoint update_items (generationId : nat) (update : GenerationItem -> option GenerationItem)
  (prev : list GenerationItem) : option (list GenerationItem) :=
  match prev with
  | [] => Some []
  | item :: r =>
      match update_items generationId update r with
      | None => None
      | Some r' =>
          if (item_id item =? generationId)%nat
          then option_map (fun item' => item' :: r') (update item)
          else Some (item :: r')
      end
  end.

(** [Object.entries(selectedAngles).filter(([, on]) => on).map(([name]) => name)] *)
Definition selected_names (front back side : bool) : list string :=
  (if front then ["front"] else []) ++ (if back then ["back"] else [])
    ++ (if side then ["side"] else []).

(** [imageSet.map((s, i) => i === sceneIndex ? f s : s)] *)
Definition map_at (sceneIndex : nat) (f : Scene -> Scene) (l : list Scene) : list Scene :=
  imap (fun i s => if (i =? sceneIndex)%nat then f s else s) l.

(** The handler, for a generated item ([angleModal.isUploaded] false), with
    no other state change between the request and its completion.  [None]
    is the ill-formed array of [insertAngles]. *)
Definition handleConfirmAngleGeneration
  (front back side : bool) (generationId sceneIndex : nat)
  (generationHistory : list GenerationItem)
  : M Backend (option (list GenerationItem)) :=
  let angleNames := selected_names front back side in
  match angleNames with
  | [] => ret (Some generationHistory)
  | _ :: _ =>
      match List.find (fun item => (item_id item =? generationId)%nat) generationHistory with
      | None => ret (Some generationHistory)
      | Some generationItem =>
          match imageSet generationItem !! sceneIndex with
          | None => ret (Some generationHistory)
          | Some sceneToUpdate =>
              if negb (truthy_str (src sceneToUpdate)) then ret (Some generationHistory)
              else
                let mark (f : Scene -> Scene) (h : list GenerationItem) :=
                  map (fun item =>
                         if (item_id item =? generationId)%nat
                         then with_imageSet item (map_at sceneIndex f (imageSet item))
                         else item) h in
                let marked := mark (fun s => set_generating s true) generationHistory in
                try_catch
                  (newScenes <-
                     generateCameraAnglesFromImage host sceneToUpdate
                       (item_aspectRatio generationItem) (item_imageStyle generationItem)
                       (item_genre generationItem) (item_characters generationItem)
                       (item_imageModel generationItem) angleNames noProgress ;;
                   ret (update_items generationId (insertAngles sceneIndex newScenes) marked))
                  (fun error =>
                     let parsedError := parseErrorMessage error in
                     ret (Some (mark (fun s =>
                                        settle_angles s
                                          (Some (JString ("Angle generation failed: "
                                                            ++ toString host parsedError))))
                                  marked)))
          end
      end
  end.

(** The handler when the history changes while the request is pending.
    Its state updates are functions of the history that is current when
    React applies them ([setGenerationHistory(prev => ...)]), while
    [generationId], [sceneIndex] and [sceneToUpdate] are those of the
    moment of the request; [meanwhile] is what the other handlers made of
    the history between the first update and the last.  The result gives
    each item as its two arrays. *)
Definition handleConfirmAngleGeneration_meanwhile
  (meanwhile : list GenerationItem -> list GenerationItem)
  (front back side : bool) (generationId sceneIndex : nat)
  (generationHistory : list GenerationItem)
  : M Backend (list (list Slot * list VideoState)) :=
  let angleNames := selected_names front back side in
  match angleNames with
  | [] => ret (slots_of <$> generationHistory)
  | _ :: _ =>
      match List.find (fun item => (item_id item =? generationId)%nat) generationHistory with
      | None => ret (slots_of <$> generationHistory)
      | Some generationItem =>
          match imageSet generationItem !! sceneIndex with
          | None => ret (slots_of <$> generationHistory)
          | Some sceneToUpdate =>
              if negb (truthy_str (src sceneToUpdate)) then ret (slots_of <$> generationHistory)
              else
                let mark (f : Scene -> Scene) (h : list GenerationItem) :=
                  map (fun item =>
                         if (item_id item =? generationId)%nat
                         then with_imageSet item (map_at sceneIndex f (imageSet item))
                         else item) h in
                let marked := mark (fun s => set_generating s true) generationHistory in
                try_catch
                  (newScenes <-
                     generateCameraAnglesFromImage host sceneToUpdate
                       (item_aspectRatio generationItem) (item_imageStyle generationItem)
                       (item_genre generationItem) (item_characters generationItem)
                       (item_imageModel generationItem) angleNames noProgress ;;
                   ret (map (fun item =>
                               if (item_id item =? generationId)%nat
                               then insertAngles_slots sceneIndex newScenes item
                               else slots_of item)
                          (meanwhile marked)))
                  (fun error =>
                     let parsedError := parseErrorMessage error in
                     ret (slots_of <$>
                            mark (fun s =>
                                    settle_angles s
                                      (Some (JString ("Angle generation failed: "
                                                        ++ toString host parsedError))))
                              (meanwhile marked)))
          end
      end
  end.

(** *** [handleDeleteScene] *)

Definition is_angle_of (index : nat) (s : Scene) : bool :=
  match isCameraAngleFor s with
  | Some p => (p =? index)%nat
  | None => false
  end.

(** Indices, counted from [i], of the elements that satisfy [f]. *)
Fixpoint indices_where {A} (f : A -> bool) (l : list A) (i : nat) : list nat :=
  match l with
  | [] => []
  | x :: r => (if f x then [i] else []) ++ indices_where f r (S i)
  end.

(** [imageSet[index]?.isCameraAngleFor === undefined]: a root, or no scene
    at all. *)
Definition root_or_missing (scenes : list Scene) (index : nat) : bool :=
  match scenes !! index with
  | Some s => match isCameraAngleFor s with None => true | Some _ => false end
  | None => true
  end.

(** [finalIndicesToRemove]: the initial indices and, for each that is a
    root, its angle-children. *)
Definition cascade (scenes : list Scene) (initialIndicesToRemove : list nat) : gset nat :=
  fold_left
    (fun final index =>
       if root_or_missing scenes index
       then final ∪ list_to_set (indices_where (is_angle_of index) scenes 0)
       else final)
    initialIndicesToRemove (list_to_set initialIndicesToRemove).

Record Compaction := mkCompaction {
  newImageSet : list Scene;
  newVideoStates : list VideoState;
  indexMap : gmap nat nat;
  currentNewIndex : nat
}.

(** One iteration of the copying loop.  [item.videoStates[i]] past the end
    of the video states would push [undefined] ([None]). *)
Definition compact_step (oldImageSet : list Scene) (oldVideoStates : list VideoState)
  (finalIndicesToRemove : gset nat) (acc : option Compaction) (i : nat)
  : option Compaction :=
  match acc with
  | None => None
  | Some c =>
      if bool_decide (i ∈ finalIndicesToRemove) then Some c
      else
        match oldImageSet !! i, oldVideoStates !! i with
        | Some s, Some v =>
            Some (mkCompaction (newImageSet c ++ [s]) (newVideoStates c ++ [v])
                    (<[i := currentNewIndex c]> (indexMap c)) (S (currentNewIndex c)))
        | _, _ => None
        end
  end.

Definition compact (oldImageSet : list Scene) (oldVideoStates : list VideoState)
  (finalIndicesToRemove : gset nat) : option Compaction :=
  fold_left (compact_step oldImageSet oldVideoStates finalIndicesToRemove)
    (seq 0 (length oldImageSet)) (Some (mkCompaction [] [] ∅ 0)).

Definition reindex (finalIndicesToRemove : gset nat) (indexMap : gmap nat nat) (s : Scene)
  : Scene :=
  match isCameraAngleFor s with
  | Some oldParentIndex =>
      if bool_decide (oldParentIndex ∈ finalIndicesToRemove) then set_parent s None
      else match indexMap !! oldParentIndex with
           | Some newParentIndex => set_parent s (Some newParentIndex)
           | None => s
           end
  | None => s
  end.

Definition confirm_plain : string :=
  "Are you sure you want to delete this scene? This action cannot be undone.".
Definition confirm_children (childrenCount : nat) : string :=
  "This will also delete " ++ pretty childrenCount ++ " associated camera angle(s). Are you sure?".
Definition confirm_last_angle : string :=
  "This is the last camera angle. Deleting it will also remove the parent scene. Are you sure?".

(** What the user is asked, and the initial indices to remove. *)
Definition deletion_request (scenes : list Scene) (sceneIndex : nat) (sceneToDelete : Scene)
  : string * list nat :=
  match isCameraAngleFor sceneToDelete with
  | None =>
      let childrenCount := length (List.filter (is_angle_of sceneIndex) scenes) in
      (if (0 <? childrenCount)%nat then confirm_children childrenCount else confirm_plain,
       [sceneIndex])
  | Some parentIndex =>
      let siblingCount := length (List.filter (is_angle_of parentIndex) scenes) in
      if (siblingCount =? 1)%nat
      then (confirm_last_angle,
            if (parentIndex =? sceneIndex)%nat then [sceneIndex] else [sceneIndex; parentIndex])
      else (confirm_plain, [sceneIndex])
  end.

Inductive Deletion :=
| Kept                          (* [return prev] *)
| Deleted (item : GenerationItem).

(** The body of the state update for the item found; [confirm] is the
    user's answer to [window.confirm]. *)
Definition deleteScene (confirm : string -> bool) (sceneIndex : nat) (item : GenerationItem)
  : option Deletion :=
  match imageSet item !! sceneIndex with
  | None => Some Kept
  | Some sceneToDelete =>
      let '(confirmMessage, initialIndicesToRemove) :=
        deletion_request (imageSet item) sceneIndex sceneToDelete in
      if negb (confirm confirmMessage) then Some Kept
      else
        let finalIndicesToRemove := cascade (imageSet item) initialIndicesToRemove in
        match compact (imageSet item) (videoStates item) finalIndicesToRemove with
        | None => None
        | Some c =>
            let reindexedImageSet :=
              map (reindex finalIndicesToRemove (indexMap c)) (newImageSet c) in
            Some (Deleted (with_scenes item reindexedImageSet (newVideoStates c)))
        end
  end.

Definition handleDeleteScene (confirm : string -> bool) (generationId sceneIndex : nat)
  (prev : list GenerationItem) : option (list GenerationItem) :=
  match findIndex generationId prev with
  | None => Some prev
  | Some itemIndex =>
      match prev !! itemIndex with
      | None => Some prev
      | Some item =>
          match deleteScene confirm sceneIndex item with
          | None => None
          | Some Kept => Some prev
          | Some (Deleted item') =>
              match imageSet item' with
              | [] => Some (take itemIndex prev ++ drop (S itemIndex) prev)%list
              | _ :: _ => Some (<[itemIndex := item']> prev)
              end
          end
      end
  end.

(** *** [handleExtendFromLastFrame] (generated items) *)

(** The scan for the last angle-child that directly follows the parent:
    [rest] are the scenes from index [i] on. *)
Fixpoint scan_children (parentIndex : nat) (rest : list Scene) (i lastChildIndex : nat) : nat :=
  match rest with
  | [] => lastChildIndex
  | s :: rest' =>
      if is_angle_of parentIndex s then scan_children parentIndex rest' (S i) i
      else lastChildIndex
  end.

Definition extendItem (sceneIndex : nat) (newScene : Scene) (item : GenerationItem)
  : GenerationItem :=
  let newImageSet := imageSet item in
  let newVideoStates := videoStates item in
  let parentIndex := sceneIndex in
  let lastChildIndex :=
    scan_children parentIndex (drop (parentIndex + 1) newImageSet) (parentIndex + 1)
      parentIndex in
  let insertionPoint := lastChildIndex + 1 in
  with_scenes item (splice newImageSet insertionPoint [newScene])
    (splice newVideoStates insertionPoint [getInitialVideoState]).

(** [frame] is the outcome of [extractFrameAsBase64] on the last clip. *)
Definition handleExtendFromLastFrame (frame : outcome string) (generationId sceneIndex : nat)
  (generationHistory : list GenerationItem) : list GenerationItem :=
  match List.find (fun item => (item_id item =? generationId)%nat) generationHistory with
  | None => generationHistory
  | Some targetItem =>
      match videoStates targetItem !! sceneIndex with
      | None => generationHistory
      | Some videoState =>
          match last (clips videoState) with
          | None => generationHistory
          | Some lastClip =>
              if negb (truthy_str (videoUrl lastClip)) then generationHistory
              else
                match frame with
                | Rejected _ => generationHistory
                | Resolved frameBase64 =>
                    let newScene :=
                      mkScene (Some frameBase64)
                        (JString "Animation from the last frame of the previous scene.")
                        None (Some sceneIndex) false false false None in
                    map (fun item =>
                           if (item_id item =? generationId)%nat
                           then extendItem sceneIndex newScene item else item)
                      generationHistory
                end
          end
      end
  end.

End Handlers.

(** ** services/geminiService.ts: speech and video *)

Inductive AudioAssignment :=
| AssignCharacter (characterName : string)
| AssignBackground.

Inductive AudioOptions :=
| AudioUpload (data mimeType : string) (assignment : option AudioAssignment)
| AudioTts (data : string).

(** *** [atob], by the forgiving-base64 rules: ASCII white space is dropped,
    one or two trailing [=] of a length that is a multiple of four are
    dropped, and then the length must not be 1 modulo 4 and every character
    must be in the alphabet. *)

Definition is_base64_ws (c : ascii) : bool :=
  let n := nat_of_ascii c in
  (n =? 9)%nat || (n =? 10)%nat || (n =? 12)%nat || (n =? 13)%nat || (n =? 32)%nat.

Definition is_base64_char (c : ascii) : bool :=
  let n := nat_of_ascii c in
  is_digit c || ((65 <=? n)%nat && (n <=? 90)%nat) || ((97 <=? n)%nat && (n <=? 122)%nat)
  || (n =? 43)%nat || (n =? 47)%nat.

Definition strip_padding (l : list ascii) : list ascii :=
  if (length l mod 4 =? 0)%nat then
    match rev l with
    | a :: b :: r =>
        if Ascii.eqb a "=" then
          if Ascii.eqb b "=" then rev r else rev (b :: r)
        else l
    | _ => l
    end
  else l.

Definition atob_valid (s : string) : bool :=
  let l := strip_padding (List.filter (fun c => negb (is_base64_ws c)) (list_ascii_of_string s)) in
  negb (length l mod 4 =? 1)%nat && forallb is_base64_char l.

Section Video.
Variable host : Host.

(** [base64ToBytes]: the bytes only go into the blob; what matters is
    whether [atob] throws. *)
Definition base64ToBytes (base64 : string) : M Backend unit :=
  if atob_valid base64 then ret tt
  else throw (JsThrown "InvalidCharacterError").

(** [URL.createObjectURL(blob)]: a fresh handle. *)
Definition createObjectURL : M Backend string :=
  b <- get_store ;;
  put_store (mkBackend (API_KEY b) (text_replies b) (image_replies b) (imagen_replies b)
               (speech_replies b) (video_replies b) (poll_replies b) (fetch_replies b)
               (served b) (S (object_urls b))) ;;;
  ret ("blob:" ++ pretty (object_urls b))%string.

(** [candidates?.[0]?.content?.parts?.[0]?.inlineData?.data || null] *)
Definition first_part_data (response : GenerateContentResponse) : option string :=
  match candidate_parts response with
  | Some (p :: _) =>
      match inlineData p with
      | Some data => if truthy_str data then data else None
      | None => None
      end
  | _ => None
  end.

(** [generateSpeech].  The speakers detected in the script choose between
    the multi-speaker and the single-speaker voice configuration of the
    request; both branches then make the same retried call and read the
    reply the same way, so the detection leaves no trace here. *)
Definition generateSpeech (script : string) (characters : list Character) (imageStyle : string)
  : M Backend (option string) :=
  getAiClient ;;;
  if String.eqb script "" then ret None
  else
    try_catch
      (ttsResponse <- withRetry (request EpSpeech speech_replies) None ;;
       ret (first_part_data ttsResponse))
      (fun err =>
         throw (JsErr ("TTS generation failed: " ++ toString host (parseErrorMessage err)))).

(** The [try] block of the audio branch. *)
Definition audio_try (audioOptions : AudioOptions) (characters : list Character)
  (imageStyle : string) : M Backend (option (string * string)) :=
  audioBase64 <-
    (match audioOptions with
     | AudioUpload data _ _ => ret (Some data)
     | AudioTts data =>
         if negb (String.eqb data "") then generateSpeech data characters imageStyle
         else ret None
     end) ;;
  if truthy_str audioBase64 then
    base64ToBytes (default "" audioBase64) ;;;
    audioUrl <- createObjectURL ;;
    ret (Some (audioUrl, default "" audioBase64))
  else ret None.

(** [audioDataPromise]: [(audioUrl, audioBase64)]. *)
Definition audioDataPromise (audioOptions : option AudioOptions)
  (characters : list Character) (imageStyle : string)
  (onProgress : string -> M Backend unit) : M Backend (option string * option string) :=
  match audioOptions with
  | None => ret (None, None)
  | Some options =>
      onProgress "Generating voiceover..." ;;;
      r <- try_catch (audio_try options characters imageStyle)
             (fun err =>
                onProgress "Audio generation failed. Continuing without audio." ;;;
                ret None) ;;
      match r with
      | Some (audioUrl, audioBase64) => ret (Some audioUrl, Some audioBase64)
      | None => ret (None, None)
      end
  end.

(** The [while (!operation.done)] loop has no bound of its own: [fuel]
    bounds the polls, and [None] is a loop still polling when it runs out. *)
Fixpoint poll (fuel : nat) (operation : VideoOperation)
  (onProgress : string -> M Backend unit) : M Backend (option VideoOperation) :=
  if done operation then ret (Some operation)
  else
    match fuel with
    | O => ret None
    | S fuel' =>
        delay 10000 ;;;
        onProgress "Checking video status..." ;;;
        operation <- withRetry (request EpPoll poll_replies)
                       (Some (fun msg => onProgress ("Polling: " ++ msg)%string)) ;;
        poll fuel' operation onProgress
    end.

Definition msg_no_video : string :=
  "Video generation completed, but no video was returned. This may be due to the prompt being blocked by a safety filter. Please try a different prompt.".

Definition await {A} (r : outcome A) : M Backend A :=
  match r with
  | Resolved a => ret a
  | Rejected e => throw e
  end.

(** The [try] block of [generateVideoFromScene] up to the download: the
    object URL of the video and the video handle. *)
Definition videoJob (fuel : nat) (onProgress : string -> M Backend unit)
  : M Backend (option (string * VideoObject)) :=
  operation <- withRetry (request EpVideo video_replies)
                 (Some (fun msg => onProgress ("Initial request: " ++ msg)%string)) ;;
  onProgress "Video generation in progress..." ;;;
  polled <- poll fuel operation onProgress ;;
  match polled with
  | None => ret None
  | Some operation =>
      onProgress "Finalizing video..." ;;;
      if truthy_opt (operation_error operation) then
        throw (JsErr (JSON_stringify host
                        (JObject [("error", default JNull (operation_error operation))])))
      else
        match video operation with
        | None => throw (JsErr msg_no_video)
        | Some videoObject =>
            if negb (truthy_str (uri videoObject)) then throw (JsErr msg_no_video)
            else if negb (validURL host (default "" (uri videoObject)))
            then throw (typeError host "URL")
            else
              videoResponse <- request EpFetch fetch_replies ;;
              if negb (ok videoResponse) then
                errorBody <- await (body_text videoResponse) ;;
                let userMessage :=
                  ("Failed to download the generated video. Status: "
                     ++ statusText videoResponse ++ " ("
                     ++ pretty (http_status videoResponse) ++ ").")%string in
                throw (JsErr
                         (if (http_status videoResponse =? 403)%nat
                          then userMessage ++ " This may be due to an API key permission issue."
                          else if (http_status videoResponse =? 404)%nat
                          then userMessage ++ " The video link may have expired or is invalid."
                          else userMessage))
              else
                videoBlob <- await (body_blob videoResponse) ;;
                videoUrl <- createObjectURL ;;
                ret (Some (videoUrl, videoObject))
        end
  end.

(** [generateVideoFromScene].  The audio branch starts first and is joined
    at the end; it shares with the video job only the journal and the
    object-URL counter, and is run here to its end before the job starts,
    which is one of the interleavings the event loop allows.  The result is
    [None] when [fuel] runs out while polling. *)
Definition generateVideoFromScene
  (fuel : nat) (scene : Scene) (aspectRatio script : string) (characters : list Character)
  (audioOptions : option AudioOptions) (imageStyle videoModel videoResolution
   cameraMovement : string) (onProgress : string -> M Backend unit)
  : M Backend (option VideoClip) :=
  getAiClient ;;;
  if negb (truthy_str (src scene))
  then throw (JsErr "Cannot generate video from an empty or failed scene.")
  else
    audio <- audioDataPromise audioOptions characters imageStyle onProgress ;;
    onProgress "Starting video generation..." ;;;
    job <- videoJob fuel onProgress ;;
    match job with
    | None => ret None
    | Some (videoUrl, videoObject) =>
        ret (Some (mkVideoClip (Some videoUrl) (fst audio) (Some videoObject) (snd audio)))
    end.

End Video.

(** ** Vocabulary of the statements *)

(** The callbacks [withRetry] is given in the source forward the notice to
    the progress callback, after decorating it ([msg => onProgress(`Polling:
    ${msg}`)]); without one the notice goes to the console. *)
Definition notify {St} (cb : option (string -> string)) : option (string -> M St unit) :=
  option_map (fun f msg => setLoadingMessage (f msg)) cb.

Definition notice (cb : option (string -> string)) (attempt : nat) : event :=
  match cb with
  | Some f => EvProgress (f (retryMsg attempt))
  | None => EvLog (retryMsg attempt)
  end.

(** [withRetry] around an arbitrary operation, from an empty journal. *)
Definition retried {St T} (op : St -> outcome T * St) (cb : option (string -> string)) (s : St)
  : outcome T * world St :=
  withRetry (invoke op) (notify cb) (start s).

(** An operation whose store counts its invocations: the first [failures]
    of them reject with [message], the later ones resolve with [value]. *)
Definition flaky (failures : nat) (message : string) (value : nat) (s : nat)
  : outcome nat * nat :=
  if (s <? failures)%nat then (Rejected (JsErr message), S s) else (Resolved value, S s).


(** The JSON text [{"error":{"message":"quota exceeded for project"}}]. *)
Definition quota_json : string :=
  "{" ++ quoted "error" ++ ":{" ++ quoted "message" ++ ":"
      ++ quoted "quota exceeded for project" ++ "}}".

(** A host for the examples. *)
Definition sample_host : Host :=
  mkHost (fun n => pretty (num_mant n))
    (fun text => "Unexpected token in JSON")
    (fun property => ("Cannot read properties of undefined (reading '" ++ property ++ "')")%string)
    (fun s => startsWith s "https://").

(** *** Scene trees *)

(** The tree-shape invariant: every parent reference is the index of an
    existing scene that has no parent reference itself. *)
Definition well_formed (scenes : list Scene) : Prop :=
  forall i s p, scenes !! i = Some s -> isCameraAngleFor s = Some p ->
    exists r, scenes !! p = Some r /\ isCameraAngleFor r = None.

Definition well_formedb (scenes : list Scene) : bool :=
  forallb (fun s =>
             match isCameraAngleFor s with
             | None => true
             | Some p =>
                 match scenes !! p with
                 | Some r => match isCameraAngleFor r with None => true | Some _ => false end
                 | None => false
                 end
             end) scenes.

(** The elements of [l], numbered from [i], whose index is not removed. *)
Fixpoint keep_from {A} (removed : gset nat) (i : nat) (l : list A) : list A :=
  match l with
  | [] => []
  | x :: r =>
      if bool_decide (i ∈ removed) then keep_from removed (S i) r
      else x :: keep_from removed (S i) r
  end.

(** How many of the [n] indices from [a] on are not removed. *)
Fixpoint kept_between (removed : gset nat) (a n : nat) : nat :=
  match n with
  | O => 0
  | S n' => (if bool_decide (a ∈ removed) then 0 else 1) + kept_between removed (S a) n'
  end.

(** The position, after the removal, of the element that was at [i]. *)
Definition new_index (removed : gset nat) (i : nat) : nat := kept_between removed 0 i.

(** A root with its angle-children. *)
Definition removed_block (scenes : list Scene) (root : nat) : gset nat :=
  {[root]} ∪ list_to_set (indices_where (is_angle_of root) scenes 0).

(** A scene whose parent reference follows the parent to its new position. *)
Definition moved (removed : gset nat) (s : Scene) : Scene :=
  set_parent s (new_index removed <$> isCameraAngleFor s).

(** A scene without its parent reference. *)
Definition payload (s : Scene) : Scene := set_parent s None.

(** Sample trees. *)
Definition node (label : string) (parent : option nat) : Scene :=
  mkScene (Some label) (JString label) None parent false false false None.

Definition vstate (label : string) : VideoState :=
  mkVideoState idle [] 0 None "" false label tts None "Narrator" "Static Hold".

Definition item_of (scenes : list Scene) (videos : list VideoState) : GenerationItem :=
  mkGenerationItem 1 "idea" scenes videos "16:9" "Anime" "General" [] "gemini-2.5-flash-image".

(** A root at 5 with children at 6 and 7, a root at 9 with a child at 10. *)
Definition eleven_scenes : list Scene :=
  [node "s0" None; node "s1" None; node "s2" None; node "s3" None; node "s4" None;
   node "s5" None; node "s6" (Some 5); node "s7" (Some 5); node "s8" None;
   node "s9" None; node "s10" (Some 9)].

Definition eleven_videos : list VideoState :=
  [vstate "v0"; vstate "v1"; vstate "v2"; vstate "v3"; vstate "v4"; vstate "v5"; vstate "v6";
   vstate "v7"; vstate "v8"; vstate "v9"; vstate "v10"].

(** A root at 1 with its only child at 2, and a root at 3 with a child. *)
Definition five_scenes : list Scene :=
  [node "a" None; node "b" None; node "b1" (Some 1); node "c" None; node "c1" (Some 3)].

Definition five_videos : list VideoState :=
  [vstate "va"; vstate "vb"; vstate "vb1"; vstate "vc"; vstate "vc1"].

(** Two roots, the second with an angle-child; the first has a finished
    video with one clip. *)
Definition three_scenes : list Scene :=
  [node "a" None; node "b" None; node "b1" (Some 1)].

Definition three_videos : list VideoState :=
  [mkVideoState success [mkVideoClip (Some "blob:0") None None None] 0 None "" false "va"
     tts None "Narrator" "Static Hold";
   vstate "vb"; vstate "vb1"].

(** Three roots, and the confirmed deletion of the first scene of
    generation 1, twice. *)
Definition three_roots : list Scene := [node "a" None; node "b" None; node "c" None].

Definition three_root_videos : list VideoState := [vstate "va"; vstate "vb"; vstate "vc"].

Definition first_two_deleted (h : list GenerationItem) : list GenerationItem :=
  match handleDeleteScene (fun _ => true) 1 0 h with
  | Some h1 => default h1 (handleDeleteScene (fun _ => true) 1 0 h1)
  | None => h
  end.

(** *** Pipelines *)



(** Every value the computation resolves with satisfies [P]. *)
Definition returns {A} (P : A -> Prop) (m : M Backend A) : Prop :=
  forall w a w', m w = (Resolved a, w') -> P a.

(** An image result, or a scene, is a success, or has no image and a
    populated error. *)
Definition image_shape (r : ImageResult) : Prop :=
  result_error r = None \/ (result_src r = None /\ truthy_opt (result_error r) = true).

Definition scene_shape (s : Scene) : Prop :=
  error s = None \/ (src s = None /\ truthy_opt (error s) = true).



(** The image request of [generateSingleImage] goes to the image-conditioned
    model when it is selected or a character carries a reference image. *)
Definition isNanoBanana (imageModel : string) (allCharactersWithStyles : list Character) : bool :=
  String.eqb imageModel "gemini-2.5-flash-image"
  || existsb has_reference_image allCharactersWithStyles.

(** *** A run of the image loop, call by call *)






Section Runs.
Variable host : Host.
Variables (aspectRatio imageStyle genre : string).
Variables (charactersForPrompt allCharactersWithStyles : list Character).
Variable imageModel : string.



End Runs.

(** A backend that answers every text request with [reply], every image
    request with the image [png], and has a key. *)
Definition steady_backend (reply : string) (png : string) : Backend :=
  mkBackend (Some "key")
    (fun _ => Resolved (mkResponse (Some reply) None))
    (fun _ => Resolved (mkResponse None (Some [mkPart (Some (Some png))])))
    (fun _ => Resolved (mkImages (Some [Some png])))
    (fun _ => Resolved (mkResponse None (Some [mkPart (Some (Some "UklGRg=="))])))
    (fun _ => Resolved (mkOperation true None (Some (mkVideoObject (Some "https://video/1")))))
    (fun _ => Resolved (mkOperation true None (Some (mkVideoObject (Some "https://video/1")))))
    (fun _ => Resolved (mkFetch true 200 "OK" (Resolved "") (Resolved "mp4")))
    (fun _ => 0) 0.

(** The JSON text [{"prompts":["one","two"]}]. *)
Definition two_prompts_json : string :=
  "{" ++ quoted "prompts" ++ ":[" ++ quoted "one" ++ "," ++ quoted "two" ++ "]}".

(** A backend like [steady_backend] whose first image request is refused. *)
Definition refusing_backend (png : string) : Backend :=
  mkBackend (Some "key")
    (fun _ => Resolved (mkResponse None None))
    (fun n => if (n =? 0)%nat then Rejected (JsErr "blocked by safety settings")
              else Resolved (mkResponse None (Some [mkPart (Some (Some png))])))
    (fun _ => Resolved (mkImages (Some [Some png])))
    (fun _ => Resolved (mkResponse None None))
    (fun _ => Resolved (mkOperation true None None))
    (fun _ => Resolved (mkOperation true None None))
    (fun _ => Resolved (mkFetch true 200 "OK" (Resolved "") (Resolved "mp4")))
    (fun _ => 0) 0.

(** The world after the progress message [msg]. *)
Definition said {St} (msg : string) (w : world St) : world St :=
  mkWorld (store w) (journal w ++ [EvProgress msg]).

(* ===================================================================== *)
(** * Part I, continued — the rest of the application *)
(* ===================================================================== *)

(** ** services/geminiService.ts: [generateCharacterDescription] *)

Definition msg_no_text : string :=
  "Failed to get a valid text response from the AI. The prompt may have been blocked or the model returned an empty result.".

Definition msg_bad_description : string :=
  "Failed to get a valid JSON response from the AI for character description.".

Section Description.
Variable host : Host.

(** [parsed.key.trim()] for the keys [description] and [detectedStyle]:
    neither is a built-in property of an array or of a primitive, and only
    a string has [trim]; anything else is a TypeError. *)
Definition trimmed_property (parsed : jsval) (key : string) : M Backend string :=
  match getProp parsed key with
  | Some (Some (JString s)) => ret (trim s)
  | _ => throw (typeError host key)
  end.

Definition generateCharacterDescription (imageBase64 mimeType : string)
  : M Backend (string * string) :=
  getAiClient ;;;
  response <- withRetry (request EpText text_replies) None ;;
  match text response with
  | None => throw (JsErr msg_no_text)
  | Some text =>
      try_catch
        (parsed <- JSON_parse_or_throw host text ;;
         description <- trimmed_property parsed "description" ;;
         detectedStyle <- trimmed_property parsed "detectedStyle" ;;
         ret (description, detectedStyle))
        (fun _ => throw (JsErr msg_bad_description))
  end.

End Description.

(** ** App.tsx: handlers that rewrite a scene or a video state in place *)

(** *** [handleVideoStateChange], [handleDeleteVideo], [handleDeleteClip] *)

(** [Partial<VideoState>]: [None] is a key that is absent. *)
Record VideoStateChanges := mkChanges {
  new_status : option VideoStatus;
  new_clips : option (list VideoClip);
  new_currentClipIndex : option nat;
  new_error : option (option string);
  new_loadingMessage : option string;
  new_showScriptInput : option bool;
  new_scriptPrompt : option string;
  new_voiceoverMode : option VoiceoverMode;
  new_voiceoverFile : option (option string);
  new_speaker : option string;
  new_cameraMovement : option string
}.

(** [{ ...videoState, ...changes }] *)
Definition spread (v : VideoState) (c : VideoStateChanges) : VideoState :=
  mkVideoState (default (status v) (new_status c)) (default (clips v) (new_clips c))
    (default (currentClipIndex v) (new_currentClipIndex c))
    (default (video_error v) (new_error c)) (default (loadingMessage v) (new_loadingMessage c))
    (default (showScriptInput v) (new_showScriptInput c))
    (default (scriptPrompt v) (new_scriptPrompt c))
    (default (voiceoverMode v) (new_voiceoverMode c))
    (default (voiceoverFile v) (new_voiceoverFile c)) (default (speaker v) (new_speaker c))
    (default (cameraMovement v) (new_cameraMovement c)).

(** A whole video state passed as the changes: every key is present. *)
Definition every_key (v : VideoState) : VideoStateChanges :=
  mkChanges (Some (status v)) (Some (clips v)) (Some (currentClipIndex v)) (Some (video_error v))
    (Some (loadingMessage v)) (Some (showScriptInput v)) (Some (scriptPrompt v))
    (Some (voiceoverMode v)) (Some (voiceoverFile v)) (Some (speaker v))
    (Some (cameraMovement v)).

(** The body of the [map] of [handleVideoStateChange] for the item of the
    request. *)
Definition changeVideoState (sceneIndex : nat) (changes : VideoStateChanges)
  (item : GenerationItem) : GenerationItem :=
  let newVideoStates := videoStates item in
  let newVideoStates :=
    match newVideoStates !! sceneIndex with
    | Some v => <[sceneIndex := spread v changes]> newVideoStates
    | None => newVideoStates
    end in
  with_scenes item (imageSet item) newVideoStates.

Definition handleVideoStateChange (generationId sceneIndex : nat) (changes : VideoStateChanges)
  (prev : list GenerationItem) : list GenerationItem :=
  map (fun item =>
         if negb (item_id item =? generationId)%nat then item
         else changeVideoState sceneIndex changes item) prev.

Definition handleDeleteVideo (generationId sceneIndex : nat) (prev : list GenerationItem)
  : list GenerationItem :=
  handleVideoStateChange generationId sceneIndex (every_key getInitialVideoState) prev.

(** [arr.filter((_, index) => keep index)] *)
Fixpoint filter_index {A} (keep : nat -> bool) (l : list A) (i : nat) : list A :=
  match l with
  | [] => []
  | x :: r => if keep i then x :: filter_index keep r (S i) else filter_index keep r (S i)
  end.

(** The body of the [map] of [handleDeleteClip] for the item of the
    request.  [currentClipIndex] is a natural number, so the test
    [newClipIndex < 0] never fires. *)
Definition deleteClip (sceneIndex clipIndex : nat) (item : GenerationItem) : GenerationItem :=
  let newVideoStates := videoStates item in
  let newVideoStates :=
    match newVideoStates !! sceneIndex with
    | Some currentVideoState =>
        if (clipIndex <? length (clips currentVideoState))%nat then
          let newClips :=
            filter_index (fun index => negb (index =? clipIndex)%nat)
              (clips currentVideoState) 0 in
          if (length newClips =? 0)%nat
          then <[sceneIndex := getInitialVideoState]> newVideoStates
          else
            let newClipIndex := currentClipIndex currentVideoState in
            let newClipIndex :=
              if (length newClips <=? newClipIndex)%nat then length newClips - 1
              else newClipIndex in
            <[sceneIndex :=
                mkVideoState (status currentVideoState) newClips newClipIndex
                  (video_error currentVideoState) (loadingMessage currentVideoState)
                  (showScriptInput currentVideoState) (scriptPrompt currentVideoState)
                  (voiceoverMode currentVideoState) (voiceoverFile currentVideoState)
                  (speaker currentVideoState) (cameraMovement currentVideoState)]>
              newVideoStates
        else newVideoStates
    | None => newVideoStates
    end in
  with_scenes item (imageSet item) newVideoStates.

Definition handleDeleteClip (generationId sceneIndex clipIndex : nat)
  (prev : list GenerationItem) : list GenerationItem :=
  map (fun item =>
         if negb (item_id item =? generationId)%nat then item
         else deleteClip sceneIndex clipIndex item) prev.

(** *** [handleRegenerateImage], [handleEditImage], [handleUndoEdit] *)

(** [prev.map(item => item.id === generationId
      ? { ...item, imageSet: item.imageSet.map((s, i) => i === sceneIndex ? f s : s) }
      : item)] *)
Definition rewrite_scene (generationId sceneIndex : nat) (f : Scene -> Scene)
  (prev : list GenerationItem) : list GenerationItem :=
  map (fun item =>
         if (item_id item =? generationId)%nat
         then with_imageSet item (map_at sceneIndex f (imageSet item))
         else item) prev.

Section Rewrites.
Variable host : Host.

(** With no other state change between the request and its completion. *)
Definition handleRegenerateImage (generationId sceneIndex : nat)
  (generationHistory : list GenerationItem) : M Backend (list GenerationItem) :=
  match List.find (fun item => (item_id item =? generationId)%nat) generationHistory with
  | None => ret generationHistory
  | Some generationItem =>
      match imageSet generationItem !! sceneIndex with
      | None => ret generationHistory
      | Some sceneToRegenerate =>
          let marked :=
            rewrite_scene generationId sceneIndex
              (fun s => mkScene (src s) (prompt s) (error s) (isCameraAngleFor s) true
                          (isGeneratingAngles s) (isEditing s) (previousSrc s))
              generationHistory in
          try_catch
            (r <- generateSingleImage host (prompt sceneToRegenerate)
                    (item_aspectRatio generationItem) (item_imageStyle generationItem)
                    (item_genre generationItem)
                    (List.filter
                       (fun c => negb (String.eqb (name c) "") && truthy_str (description c))
                       (item_characters generationItem))
                    (item_characters generationItem) (item_imageModel generationItem)
                    None None ;;
             ret (rewrite_scene generationId sceneIndex
                    (fun s => mkScene (result_src r) (prompt s) (result_error r)
                                (isCameraAngleFor s) false (isGeneratingAngles s)
                                (isEditing s) (previousSrc s))
                    marked))
            (fun error =>
               let parsedError := parseErrorMessage error in
               ret (rewrite_scene generationId sceneIndex
                      (fun s => mkScene (src s) (prompt s) (Some parsedError)
                                  (isCameraAngleFor s) false (isGeneratingAngles s)
                                  (isEditing s) (previousSrc s))
                      marked))
      end
  end.

End Rewrites.

(** With no other state change between the request and its completion. *)
Definition handleEditImage (generationId sceneIndex : nat) (editPrompt : string)
  (generationHistory : list GenerationItem) : M Backend (list GenerationItem) :=
  match List.find (fun item => (item_id item =? generationId)%nat) generationHistory with
  | None => ret generationHistory
  | Some generationItem =>
      match imageSet generationItem !! sceneIndex with
      | None => ret generationHistory
      | Some sceneToEdit =>
          if negb (truthy_str (src sceneToEdit)) then ret generationHistory
          else
            let newPreviousSrc := src sceneToEdit in
            let marked :=
              rewrite_scene generationId sceneIndex
                (fun s => mkScene (src s) (prompt s) (error s) (isCameraAngleFor s)
                            (isRegenerating s) (isGeneratingAngles s) true newPreviousSrc)
                generationHistory in
            try_catch
              (r <- editImage (JString editPrompt) (item_aspectRatio generationItem)
                      (item_imageStyle generationItem) (item_genre generationItem)
                      (item_characters generationItem) ;;
               ret (rewrite_scene generationId sceneIndex
                      (fun s => mkScene (result_src r) (prompt s) (result_error r)
                                  (isCameraAngleFor s) (isRegenerating s)
                                  (isGeneratingAngles s) false (previousSrc s))
                      marked))
              (fun error =>
                 let parsedError := parseErrorMessage error in
                 ret (rewrite_scene generationId sceneIndex
                        (fun s => mkScene (src s) (prompt s) (Some parsedError)
                                    (isCameraAngleFor s) (isRegenerating s)
                                    (isGeneratingAngles s) false (previousSrc s))
                        marked))
      end
  end.

Definition handleUndoEdit (generationId sceneIndex : nat) (prev : list GenerationItem)
  : list GenerationItem :=
  map (fun item =>
         if negb (item_id item =? generationId)%nat then item
         else
           let newImageSet :=
             map_at sceneIndex
               (fun s => if truthy_str (previousSrc s)
                         then mkScene (previousSrc s) (prompt s) (error s) (isCameraAngleFor s)
                                (isRegenerating s) (isGeneratingAngles s) (isEditing s) None
                         else s)
               (imageSet item) in
           with_imageSet item newImageSet) prev.

(** ** App.tsx: saved items *)

(** [videoState] is [None] for the object [{ voiceoverFile: null }] that
    the spread of an undefined video state leaves. *)
Record SavedItem := mkSavedItem {
  saved_id : string;                    (* id *)
  saved_scene : Scene;                  (* scene *)
  saved_videoState : option VideoState; (* videoState *)
  originalPrompt : string;
  saved_aspectRatio : string;
  saved_imageStyle : string;
  saved_genre : string;
  saved_characters : list Character;
  saved_imageModel : string;
  expiresAt : Z
}.

(** What the key [creativeSuiteSavedItems] holds: nothing, a text that
    [JSON.parse] or the [filter] call rejects, or the text of an array of
    items.  The serialization itself is not modelled: an entry is the array
    that was written. *)
Inductive Content :=
| NoEntry
| Unreadable
| Entry (items : list SavedItem).

(** What [setItem] does with the text of an array: it stores it, or throws
    an error with a name and a message. *)
Inductive WriteOutcome :=
| Written
| Refused (name message : string).

(** The storage ([window.aistudio.storage] or [localStorage], whichever the
    page has): its content and, for every array, what writing it does. *)
Record Storage := mkStorage {
  content : Content;
  write : list SavedItem -> WriteOutcome
}.

(** [saveData]; its exception is returned as a value for the [catch]
    that follows. *)
Definition saveData (dataToSave : list SavedItem) : M Storage WriteOutcome :=
  s <- get_store ;;
  match write s dataToSave with
  | Written => put_store (mkStorage (Entry dataToSave) (write s)) ;;; ret Written
  | Refused name message => ret (Refused name message)
  end.

(** [currentItems.sort((a, b) => a.expiresAt - b.expiresAt)]: the sort is
    stable. *)
Fixpoint insert_by_expiry (x : SavedItem) (l : list SavedItem) : list SavedItem :=
  match l with
  | [] => [x]
  | y :: r =>
      if (expiresAt x <=? expiresAt y)%Z then x :: y :: r else y :: insert_by_expiry x r
  end.

Definition sort_by_expiry (l : list SavedItem) : list SavedItem :=
  foldr insert_by_expiry [] l.

(** [error.name === 'QuotaExceededError' ||
     (error.message && error.message.toLowerCase().includes('quota'))] *)
Definition is_quota_error (name message : string) : bool :=
  String.eqb name "QuotaExceededError"
  || (negb (String.eqb message "") && includes (toLowerCase message) "quota").

(** The [while (currentItems.length > 0)] loop.  Every iteration that does
    not return drops an item, so [fuel], the length at the start, is never
    used up before the array is empty.  The result is [true] when the loop
    was left through a [return]. *)
Fixpoint saveItems_loop (fuel : nat) (currentItems : list SavedItem) : M Storage bool :=
  match currentItems with
  | [] => ret false
  | _ :: _ =>
      match fuel with
      | O => ret false
      | S fuel' =>
          r <- saveData currentItems ;;
          match r with
          | Written => ret true
          | Refused name message =>
              if is_quota_error name message then
                console_log "Storage quota exceeded. Removing the oldest item and retrying..." ;;;
                saveItems_loop fuel' (tail (sort_by_expiry currentItems))
              else
                console_log "Failed to save items:" ;;; ret true
          end
      end
  end.

Definition saveItems (items : list SavedItem) : M Storage unit :=
  returned <- saveItems_loop (length items) items ;;
  if returned then ret tt
  else if (0 <? length items)%nat
  then console_log "Failed to save items: Could not save even a single item due to storage quota."
  else ret tt.

(** [loadItems]; [now] is [Date.now()]. *)
Definition loadItems (now : Z) : M Storage (list SavedItem) :=
  s <- get_store ;;
  match content s with
  | NoEntry => ret []
  | Unreadable => console_log "Failed to load items:" ;;; ret []
  | Entry items =>
      let validItems := List.filter (fun item => (now <? expiresAt item)%Z) items in
      (if negb (length validItems =? length items)%nat then saveItems validItems else ret tt) ;;;
      ret validItems
  end.

(** [`${generationItem.id}-${sceneIndex}`] *)
Definition saved_item_id (generationItem : GenerationItem) (sceneIndex : nat) : string :=
  pretty (item_id generationItem) ++ "-" ++ pretty sceneIndex.

(** [handleToggleSaveScene]: the new value of [savedItems]; [now] is
    [Date.now()]. *)
Definition handleToggleSaveScene (now : Z) (generationItem : GenerationItem) (sceneIndex : nat)
  (savedItems : list SavedItem) : M Storage (list SavedItem) :=
  match imageSet generationItem !! sceneIndex with
  | None => ret savedItems
  | Some scene =>
      if negb (truthy_str (src scene)) then ret savedItems
      else
        let itemId := saved_item_id generationItem sceneIndex in
        let videoState := videoStates generationItem !! sceneIndex in
        let isAlreadySaved := existsb (fun item => String.eqb (saved_id item) itemId) savedItems in
        let newItems :=
          if isAlreadySaved
          then List.filter (fun item => negb (String.eqb (saved_id item) itemId)) savedItems
          else
            let serializableVideoState :=
              option_map (fun v => mkVideoState (status v) (clips v) (currentClipIndex v)
                                     (video_error v) (loadingMessage v) (showScriptInput v)
                                     (scriptPrompt v) (voiceoverMode v) None (speaker v)
                                     (cameraMovement v)) videoState in
            let newItem :=
              mkSavedItem itemId scene serializableVideoState (item_prompt generationItem)
                (item_aspectRatio generationItem) (item_imageStyle generationItem)
                (item_genre generationItem) (item_characters generationItem)
                (item_imageModel generationItem) (now + 5 * 24 * 60 * 60 * 1000)%Z in
            newItem :: savedItems in
        saveItems newItems ;;; ret newItems
  end.

(** [handleUnsaveScene] *)
Definition handleUnsaveScene (itemId : string) (savedItems : list SavedItem)
  : M Storage (list SavedItem) :=
  let newItems := List.filter (fun item => negb (String.eqb (saved_id item) itemId)) savedItems in
  saveItems newItems ;;; ret newItems.

(** [calculateTimeRemaining]; [now] is [Date.now()]. *)
Definition plural (n : Z) : string := if (1 <? n)%Z then "s" else "".

Definition calculateTimeRemaining (now expiresAt : Z) : string :=
  let diff := (expiresAt - now)%Z in
  if (diff <=? 0)%Z then "Expired"
  else
    let days := (diff / (1000 * 60 * 60 * 24))%Z in
    if (0 <? days)%Z then "Expires in " ++ pretty days ++ " day" ++ plural days
    else
      let hours := (diff / (1000 * 60 * 60))%Z in
      if (0 <? hours)%Z then "Expires in " ++ pretty hours ++ " hour" ++ plural hours
      else
        let minutes := (diff / (1000 * 60))%Z in
        "Expires in " ++ pretty minutes ++ " min" ++ plural minutes.

(** ** App.tsx: file names of downloaded and uploaded images *)

(** [s.lastIndexOf(p)] for a non-empty [p]; [None] is -1.  [found] is the
    last match before the position [i]. *)
Fixpoint lastIndexOf_from (s p : string) (i : nat) (found : option nat) : option nat :=
  let found := if startsWith s p then Some i else found in
  match s with
  | EmptyString => found
  | String _ s' => lastIndexOf_from s' p (S i) found
  end.

Definition lastIndexOf (s p : string) : option nat := lastIndexOf_from s p 0 None.

(** [s.split(sep)] for a separator of one character. *)
Fixpoint split_on (sep : ascii) (s : string) : list string :=
  match s with
  | EmptyString => [""]
  | String c s' =>
      if Ascii.eqb c sep then "" :: split_on sep s'
      else match split_on sep s' with
           | x :: r => String c x :: r
           | [] => [String c ""]
           end
  end.

Definition is_lower (c : ascii) : bool :=
  (97 <=? nat_of_ascii c)%nat && (nat_of_ascii c <=? 122)%nat.

(** [.replace(/[^a-zA-Z0-9]/g, '_')].  The expression has no [u] flag, so
    it works on UTF-16 code units: an ASCII letter or digit stays, and any
    other character becomes one underscore for each of its code units --
    two for a character outside the basic plane, which is encoded in four
    bytes, one for any other.  The bytes that continue an encoded character
    add nothing. *)
Fixpoint sanitize (s : string) : string :=
  match s with
  | EmptyString => EmptyString
  | String c s' =>
      let n := nat_of_ascii c in
      if is_lower c || is_upper c || is_digit c then String c (sanitize s')
      else if (n <? 128)%nat then String "_" (sanitize s')
      else if (n <? 192)%nat then sanitize s'
      else if (n <? 240)%nat then String "_" (sanitize s')
      else String "_" (String "_" (sanitize s'))
  end.

(** [Boolean(s)] for a string. *)
Definition nonempty (s : string) : bool := negb (String.eqb s "").

(** The file name [handleDownloadImage] gives the image of a scene.
    [substring(0, 30)] counts UTF-16 code units; the replacement gives one
    character for each code unit, so the replaced text of the first 30 code
    units of the prompt is the first 30 characters of the replaced text of
    the prompt, and these are ASCII. *)
Definition downloadFileName (prompt : string) (characters : list Character) : string :=
  let characterNames := List.filter nonempty (map name characters) in
  let promptPrefix := String.substring 0 30 (sanitize prompt) in
  let fileName := ("scene_" ++ promptPrefix)%string in
  if (0 <? length characterNames)%nat
  then (fileName ++ "--chars--[" ++ join "," characterNames ++ "].png")%string
  else (fileName ++ ".png")%string.

(** [detectedCharacters] of [handleImageUploadForVideo], from the name of
    the uploaded file. *)
Definition detectCharacters (fileName : string) : list string :=
  let marker := "--chars--[" in
  match lastIndexOf fileName marker with
  | None => []
  | Some markerIndex =>
      let start := markerIndex + String.length marker in
      match lastIndexOf fileName "]" with
      | Some end_ =>
          if (start <? end_)%nat then
            let charsString := String.substring start (end_ - start) fileName in
            List.filter nonempty (map trim (split_on ","%char charsString))
          else []
      | None => []
      end
  end.

(** ** utils/fileUtils.ts: [fileToBase64]

    [read] is what the [FileReader] ends with: its result, a data URL, or
    the error event of [onerror]. *)
Definition fileToBase64 {St} (read : outcome string) : M St string :=
  match read with
  | Resolved result =>
      match split_on ","%char result !! 1 with
      | Some base64String =>
          if nonempty base64String then ret base64String
          else throw (JsErr "Failed to read file as Base64.")
      | None => throw (JsErr "Failed to read file as Base64.")
      end
  | Rejected error => throw error
  end.

(** ** Vocabulary of the statements about the rest of the application *)

(** The computation takes every world to one that is related to it. *)
Definition preserves {A} (R : world Backend -> world Backend -> Prop) (m : M Backend A) : Prop :=
  forall w r w', m w = (r, w') -> R w w'.

(** As many requests have been sent to [ep] after as before. *)
Definition same_calls (ep : endpoint) (w w' : world Backend) : Prop :=
  served (store w') ep = served (store w) ep.

(** The journal grows by events none of which satisfies [P]. *)
Definition adds_no (P : event -> bool) (w w' : world Backend) : Prop :=
  exists new, journal w' = journal w ++ new /\ List.filter P new = [].

(** The events of one round of the polling loop. *)
Definition is_poll_tick (e : event) : bool :=
  match e with
  | EvDelay ms => (ms =? 10000)%N
  | EvProgress msg => String.eqb msg "Checking video status..."
  | _ => false
  end.

Definition poll_round : list event := [EvDelay 10000; EvProgress "Checking video status..."].

Fixpoint rounds (k : nat) : list event :=
  match k with
  | O => []
  | S k' => poll_round ++ rounds k'
  end.

(** The parent reference of a survivor when the scene at [c] goes away. *)
Definition closed_up (c : nat) (s : Scene) : Scene :=
  set_parent s ((fun q => if (c <? q)%nat then q - 1 else q) <$> isCameraAngleFor s).

(** The scene after an edit and its undo: the image it had before, the
    error the edit left, no edit in progress and nothing to undo. *)
Definition restored (image : option string) (e : option jsval) (s : Scene) : Scene :=
  mkScene image (prompt s) e (isCameraAngleFor s) (isRegenerating s) (isGeneratingAngles s)
    false None.

(** Two generations with the same identifier, parent references, number
    of scenes and number of video states. *)
Definition same_structure (a b : GenerationItem) : Prop :=
  item_id b = item_id a /\
  map isCameraAngleFor (imageSet b) = map isCameraAngleFor (imageSet a) /\
  length (imageSet b) = length (imageSet a) /\
  length (videoStates b) = length (videoStates a).

Definition by_expiry (a b : SavedItem) : Prop := (expiresAt a <= expiresAt b)%Z.

(** The array of the [n]-th attempt of [saveItems]: the items as given,
    then the items in order of expiry without the first [n]. *)
Definition attempt_of (items : list SavedItem) (n : nat) : list SavedItem :=
  match n with
  | O => items
  | S _ => drop n (sort_by_expiry items)
  end.

Definition quota_refused (s : Storage) (data : list SavedItem) : Prop :=
  exists name message, write s data = Refused name message /\ is_quota_error name message = true.

(** The two strings of a description reply, when it has them. *)
Definition description_fields (text : string) : option (string * string) :=
  match JSON_parse text with
  | Some (JObject members) =>
      match lookup_member "description" members, lookup_member "detectedStyle" members with
      | Some (JString d), Some (JString s) => Some (d, s)
      | _, _ => None
      end
  | _ => None
  end.

(** [c] occurs in [s]. *)
Fixpoint occurs (c : ascii) (s : string) : bool :=
  match s with
  | EmptyString => false
  | String d s' => Ascii.eqb d c || occurs c s'
  end.

(** A name that goes through a file name unchanged: not empty, without
    comma or opening bracket, without white space at its ends. *)
Definition plain_name (n : string) : Prop :=
  n <> "" /\ occurs ","%char n = false /\ occurs "["%char n = false /\ trim n = n.

(** A backend like [steady_backend] whose text requests all fail with
    [message]. *)
Definition offline_backend (message : string) : Backend :=
  mkBackend (Some "key")
    (fun _ => Rejected (JsErr message))
    (fun _ => Resolved (mkResponse None (Some [mkPart (Some (Some "png"))])))
    (fun _ => Resolved (mkImages (Some [Some "png"])))
    (fun _ => Resolved (mkResponse None None))
    (fun _ => Resolved (mkOperation true None None))
    (fun _ => Resolved (mkOperation true None None))
    (fun _ => Resolved (mkFetch true 200 "OK" (Resolved "") (Resolved "mp4")))
    (fun _ => 0) 0.

(** The JSON text [{"description":" tall, red coat ","detectedStyle":"Anime"}]. *)
Definition description_json : string :=
  "{" ++ quoted "description" ++ ":" ++ quoted " tall, red coat " ++ ","
    ++ quoted "detectedStyle" ++ ":" ++ quoted "Anime" ++ "}".

(** Samples: a video state with two clips, a character by its name, a
    storage that accepts everything. *)
Definition clip (url : string) : VideoClip := mkVideoClip (Some url) None None None.

Definition two_clips : VideoState :=
  mkVideoState success [clip "blob:1"; clip "blob:2"] 1 None "" false "script" tts None
    "Narrator" "Static Hold".

Definition character_named (n : string) : Character :=
  mkCharacter 1 n None None None None None false.

Definition roomy_storage : Storage := mkStorage NoEntry (fun _ => Written).

(* ===================================================================== *)
(** * Part II — theorems *)
(* ===================================================================== *)

(** ** The JSON reader on samples *)

Example parse_quota :
  JSON_parse quota_json =
  Some (JObject [("error", JObject [("message", JString "quota exceeded for project")])]).
Proof. vm_compute. reflexivity. Qed.

Example parse_samples :
  JSON_parse "blocked by safety settings" = None /\
  JSON_parse "" = None /\
  JSON_parse " [1, 2.50e-1 , true,null] " =
    Some (JArray [JNumber (mkNum false 1 0); JNumber (mkNum false 250 (-3));
                  JBool true; JNull]) /\
  JSON_parse "01" = None /\ JSON_parse "[1,]" = None /\ JSON_parse "{}x" = None /\
  JSON_parse ("{" ++ quoted "aA\n" ++ ":{}}") =
    Some (JObject [(String "a" (String "A" (String (ascii_of_nat 10) "")), JObject [])]).
Proof. vm_compute. repeat split. Qed.

(** [trim] on samples: U+00A0, U+2003 and U+FEFF go like the space, an
    accented letter and the euro sign stay. *)
Example trim_samples :
  trim (utf8 160 ++ " a b " ++ utf8 8195 ++ utf8 65279) = "a b" /\
  trim (" " ++ utf8 233 ++ " x" ++ utf8 8364 ++ utf8 160 ++ " ")
  = (utf8 233 ++ " x" ++ utf8 8364)%string /\
  trim (utf8 65279) = "" /\
  trim "  tall, red coat " = "tall, red coat".
Proof. vm_compute. repeat split. Qed.

(** ** Error normalizer *)







(** ** Retry policy *)

(** The test of the code and the classification of the specification
    agree. *)
Lemma same_letter_lower a b :
  is_upper a = false -> same_letter a b = Ascii.eqb a (lower_char b).
Proof.
  intros Ha. unfold same_letter, lower_char. rewrite Ha. cbn [andb orb].
  destruct (is_upper b) eqn:Hb; cbn [andb]; [|rewrite !orb_false_r; reflexivity].
  rewrite orb_false_r.
  assert (nat_of_ascii b <= 90) as Hb2.
  { unfold is_upper in Hb. apply andb_true_iff in Hb as [_ Hb]. apply Nat.leb_le. exact Hb. }
  destruct (Ascii.eqb_spec a b) as [->|Hne]; [congruence|]. cbn [orb].
  destruct (Nat.eqb_spec (nat_of_ascii a) (nat_of_ascii b + 32)) as [E|E].
  - symmetry. apply Ascii.eqb_eq. rewrite <- E. symmetry. apply ascii_nat_embedding.
  - symmetry. apply Ascii.eqb_neq. intros ->. apply E.
    apply nat_ascii_embedding. lia.
Qed.

Lemma startsWith_anycase_lower p : forall s,
  forallb (fun c => negb (is_upper c)) (list_ascii_of_string p) = true ->
  startsWith_anycase s p = startsWith (toLowerCase s) p.
Proof.
  induction p as [|a p IH]; intros s Hp; [destruct s; reflexivity|].
  cbn [list_ascii_of_string forallb] in Hp. apply andb_true_iff in Hp as [Ha Hp].
  apply negb_true_iff in Ha.
  destruct s as [|b s]; [reflexivity|].
  cbn [startsWith_anycase toLowerCase startsWith].
  rewrite (same_letter_lower a b Ha), (IH s Hp). reflexivity.
Qed.

Lemma includes_anycase_lower p s :
  forallb (fun c => negb (is_upper c)) (list_ascii_of_string p) = true ->
  includes_anycase s p = includes (toLowerCase s) p.
Proof.
  intros Hp. induction s as [|b s IH].
  - cbn [includes_anycase includes toLowerCase]. rewrite (startsWith_anycase_lower p "" Hp).
    reflexivity.
  - cbn [includes_anycase]. rewrite IH, (startsWith_anycase_lower p _ Hp). reflexivity.
Qed.

Lemma isRetryable_transient message :
  isRetryable message = true <-> transient_message message.
Proof.
  unfold isRetryable, transient_message.
  rewrite (includes_anycase_lower "overloaded" message eq_refl), !orb_true_iff. tauto.
Qed.

Lemma transient_outcome_code {T} (r : outcome T) :
  transient_outcome r -> transient_failure r.
Proof. destruct r as [v|e]; [intros H; exact H | apply isRetryable_transient]. Qed.

Section RetryFacts.
Context {St T : Type}.
Variable op : St -> outcome T * St.
Variable cb : option (string -> string).

Lemma count_notice a r : count_invocations (notice cb a :: r) = count_invocations r.
Proof. unfold notice. destruct cb; reflexivity. Qed.

Lemma delays_notice a r : delays (notice cb a :: r) = delays r.
Proof. unfold notice. destruct cb; reflexivity. Qed.

Lemma count_invoke r : count_invocations (EvInvoke :: r) = S (count_invocations r).
Proof. reflexivity. Qed.

Lemma count_delay ms r : count_invocations (EvDelay ms :: r) = count_invocations r.
Proof. reflexivity. Qed.

Lemma delays_invoke r : delays (EvInvoke :: r) = delays r.
Proof. reflexivity. Qed.

Lemma delays_delay ms r : delays (EvDelay ms :: r) = ms :: delays r.
Proof. reflexivity. Qed.

(** One iteration of the loop: the operation is invoked; a success or a
    failure that is not to be retried ends the loop, any other failure is
    followed by the notice, the wait and the next iteration. *)
Lemma withRetry_loop_step remaining attempt (w : world St) :
  withRetry_loop (invoke op) (notify cb) (S remaining) attempt w =
  match op (store w) with
  | (Resolved v, s') => (Resolved v, mkWorld s' (journal w ++ [EvInvoke]))
  | (Rejected e, s') =>
      if isRetryable (errorMessageOf e) && (S attempt <? maxRetries)%nat then
        withRetry_loop (invoke op) (notify cb) remaining (S attempt)
          (mkWorld s' (journal w ++ [EvInvoke; notice cb (S attempt);
                                     EvDelay (delaySeconds (S attempt) * 1000)]))
      else (Rejected e, mkWorld s' (journal w ++ [EvInvoke]))
  end.
Proof.
  cbn [withRetry_loop]. unfold try_catch at 1, invoke at 1.
  destruct (op (store w)) as [[v|e] s']; [reflexivity|].
  destruct (isRetryable (errorMessageOf e) && (S attempt <? maxRetries)%nat); [|reflexivity].
  unfold bind, delay, emit, notice. destruct cb as [f|]; simpl;
    unfold setLoadingMessage, console_log, emit; simpl;
    rewrite <- !app_assoc; reflexivity.
Qed.

Lemma transient_503 e :
  includes (errorMessageOf e) "503" = true -> isRetryable (errorMessageOf e) = true.
Proof. intros H. unfold isRetryable. rewrite H. reflexivity. Qed.

(** Unfold one iteration and split on what the invocation does. *)
Ltac retry_step :=
  rewrite withRetry_loop_step; cbn [store journal];
  match goal with
  | |- context [op ?x] =>
      let v := fresh "v" in let e := fresh "e" in let s' := fresh "s" in
      let E := fresh "E" in let R := fresh "R" in
      destruct (op x) as [[v|e] s'] eqn:E;
      [| destruct (isRetryable (errorMessageOf e)) eqn:R; cbn [andb Nat.ltb Nat.leb maxRetries] ]
  end.

(** Replace the invocations in a hypothesis about [outcomes] by what the
    case analysis found. *)
Ltac use_outcomes H :=
  cbn [outcomes] in H;
  repeat match goal with
         | E : op ?x = _ |- _ =>
             match type of H with context [op x] => rewrite E in H; cbn [outcomes] in H end
         end.

(** Count the invocations and collect the waits of an explicit journal. *)
Ltac tally :=
  cbn [fst snd journal app];
  repeat first [ rewrite count_invoke | rewrite count_delay | rewrite count_notice
               | rewrite delays_invoke | rewrite delays_delay | rewrite delays_notice ];
  cbn [count_invocations delays].

(** The policy in terms of the test the code makes. *)
Lemma withRetry_loop_policy (s : St) :
  let run := retried op cb s in
  let j := journal (snd run) in
  (1 <= count_invocations j <= 3) /\
  (forall i, 1 <= i < 3 -> Forall transient_failure (outcomes op s i) ->
      delays j !! (i - 1) = Some (2 ^ N.of_nat i * 15 * 1000)%N /\ i < count_invocations j) /\
  (forall e1 e2 v, outcomes op s 3 = [Rejected e1; Rejected e2; Resolved v] ->
      includes (errorMessageOf e1) "503" = true -> includes (errorMessageOf e2) "503" = true ->
      fst run = Resolved v /\ count_invocations j = 3 /\ delays j = [30000; 60000]%N) /\
  (forall e, outcomes op s 1 = [Rejected e] -> isRetryable (errorMessageOf e) = false ->
      fst run = Rejected e /\ count_invocations j = 1 /\ delays j = []).
Proof.
  intros run j. subst j run. unfold retried, withRetry, start.
  change (maxRetries - 0) with 3.
  retry_step; [| retry_step; [| retry_step |] |]; tally.
  all: split; [lia|].
  all: split; [intros i Hi HF; assert (i = 1 \/ i = 2) as [-> | ->] by lia; use_outcomes HF;
               repeat match goal with
                      | H : Forall _ (_ :: _) |- _ => inversion H; subst; clear H
                      end;
               cbn [transient_failure] in *; try contradiction; try congruence;
               (split; [reflexivity | lia]) |].
  all: split; [intros e1' e2' v' HO H1 H2; use_outcomes HO; try discriminate;
               inversion HO; subst;
               try (apply transient_503 in H1); try (apply transient_503 in H2);
               try congruence; repeat split; reflexivity |].
  all: intros e' HO HR; use_outcomes HO; try discriminate; inversion HO; subst;
       try congruence; repeat split; reflexivity.
Qed.

(** C6: [withRetry] invokes the operation between one and three times;
    after the i-th failure (i below 3) whose message contains '503',
    'overloaded' in any letter case or '429', as after those before it, it
    waits 2^i x 15 seconds and invokes the operation again; two 503
    failures followed by a success resolve with that success after three
    invocations and waits of 30 s and 60 s; a failure whose message
    contains none of the three markers rejects after one invocation and no
    wait. *)
Theorem withRetry_policy (s : St) :
  let run := retried op cb s in
  let j := journal (snd run) in
  (1 <= count_invocations j <= 3) /\
  (forall i, 1 <= i < 3 -> Forall transient_outcome (outcomes op s i) ->
      delays j !! (i - 1) = Some (2 ^ N.of_nat i * 15 * 1000)%N /\ i < count_invocations j) /\
  (forall e1 e2 v, outcomes op s 3 = [Rejected e1; Rejected e2; Resolved v] ->
      includes (errorMessageOf e1) "503" = true -> includes (errorMessageOf e2) "503" = true ->
      fst run = Resolved v /\ count_invocations j = 3 /\ delays j = [30000; 60000]%N) /\
  (forall e, outcomes op s 1 = [Rejected e] -> ~ transient_message (errorMessageOf e) ->
      fst run = Rejected e /\ count_invocations j = 1 /\ delays j = []).
Proof.
  destruct (withRetry_loop_policy s) as (H1 & H2 & H3 & H4).
  split; [exact H1|]. split; [|split; [exact H3|]].
  - intros i Hi HF. apply H2; [exact Hi|].
    eapply List.Forall_impl; [|exact HF]. intros r Hr. apply transient_outcome_code. exact Hr.
  - intros e HO Hno. apply H4; [exact HO|].
    destruct (isRetryable (errorMessageOf e)) eqn:E; [|reflexivity].
    exfalso. apply Hno. apply isRetryable_transient. exact E.
Qed.

(** C7 (amended): whatever [withRetry] settles with is what the last
    invocation of the operation settled with, so a rejection always carries
    the operation's own error; in particular, when all three attempts fail
    with transient errors, the third error is propagated, not the terminal
    "failed after multiple retries" error. *)
Theorem withRetry_propagates (s : St) :
  let run := retried op cb s in
  last (outcomes op s (count_invocations (journal (snd run)))) = Some (fst run) /\
  (forall e1 e2 e3, outcomes op s 3 = [Rejected e1; Rejected e2; Rejected e3] ->
      isRetryable (errorMessageOf e1) = true -> isRetryable (errorMessageOf e2) = true ->
      fst run = Rejected e3).
Proof.
  intros run. subst run. unfold retried, withRetry, start.
  change (maxRetries - 0) with 3.
  retry_step; [| retry_step; [| retry_step |] |]; tally.
  all: split;
    [ cbn [outcomes]; repeat match goal with E : op _ = _ |- _ => rewrite E; clear E end;
      reflexivity
    | intros e1' e2' e3' HO H1 H2; use_outcomes HO; try discriminate; inversion HO; subst;
      try congruence; reflexivity ].
Qed.

End RetryFacts.

Lemma withRetry_policy_witness :
  (fst (retried (flaky 2 "503 Service Unavailable" 7) None 0) = Resolved 7 /\
   count_invocations (journal (snd (retried (flaky 2 "503 Service Unavailable" 7) None 0))) = 3 /\
   delays (journal (snd (retried (flaky 2 "503 Service Unavailable" 7) None 0)))
   = [30000; 60000]%N) /\
  (delays (journal (snd (retried (flaky 1 "429 Too Many Requests" 7) None 0))) !! (1 - 1)
   = Some (2 ^ N.of_nat 1 * 15 * 1000)%N /\
   1 < count_invocations (journal (snd (retried (flaky 1 "429 Too Many Requests" 7) None 0)))) /\
  (delays (journal (snd (retried (flaky 2 "The model is OVERLOADED" 7) None 0))) !! (2 - 1)
   = Some (2 ^ N.of_nat 2 * 15 * 1000)%N /\
   2 < count_invocations (journal (snd (retried (flaky 2 "The model is OVERLOADED" 7) None 0)))) /\
  (fst (retried (flaky 1 "404 Not Found" 7) None 0) = Rejected (JsErr "404 Not Found") /\
   count_invocations (journal (snd (retried (flaky 1 "404 Not Found" 7) None 0))) = 1 /\
   delays (journal (snd (retried (flaky 1 "404 Not Found" 7) None 0))) = []).
Proof.
  split; [|split; [|split]].
  - apply (proj1 (proj2 (proj2 (withRetry_policy (flaky 2 "503 Service Unavailable" 7) None 0)))
             (JsErr "503 Service Unavailable") (JsErr "503 Service Unavailable") 7);
      reflexivity.
  - apply (proj1 (proj2 (withRetry_policy (flaky 1 "429 Too Many Requests" 7) None 0)) 1);
      [lia|].
    set (o := outcomes _ _ _). vm_compute in o. subst o.
    apply List.Forall_cons; [|apply List.Forall_nil]. right. right. reflexivity.
  - apply (proj1 (proj2 (withRetry_policy (flaky 2 "The model is OVERLOADED" 7) None 0)) 2);
      [lia|].
    set (o := outcomes _ _ _). vm_compute in o. subst o.
    repeat (apply List.Forall_cons; [right; left; reflexivity|]). apply List.Forall_nil.
  - apply (proj2 (proj2 (proj2 (withRetry_policy (flaky 1 "404 Not Found" 7) None 0)))
             (JsErr "404 Not Found")); [reflexivity|].
    intros [H | [H | H]]; discriminate H.
Defined.

(** C7 as stated fails: an operation that fails three times with a 503
    message makes [withRetry] reject with that 503 error, which is not the
    terminal error. *)
Lemma withRetry_terminal_counterexample :
  outcomes (flaky 3 "503" 7) 0 3 = [Rejected (JsErr "503"); Rejected (JsErr "503");
                                    Rejected (JsErr "503")] /\
  isRetryable "503" = true /\
  fst (retried (flaky 3 "503" 7) None 0) = Rejected (JsErr "503") /\
  Rejected (JsErr "503") <> (Rejected terminalError : outcome nat).
Proof.
  split; [reflexivity|]. split; [reflexivity|]. split; [reflexivity|].
  unfold terminalError. discriminate.
Qed.

Lemma withRetry_propagates_witness :
  fst (retried (flaky 3 "503" 7) None 0) = Rejected (JsErr "503").
Proof.
  apply (proj2 (withRetry_propagates (flaky 3 "503" 7) None 0)
           (JsErr "503") (JsErr "503") (JsErr "503")); reflexivity.
Defined.

(** ** Scene tree: deletion *)

Section Keep.
Variable removed : gset nat.

Lemma kept_between_split a n m :
  kept_between removed a (n + m) = kept_between removed a n + kept_between removed (a + n) m.
Proof.
  revert a. induction n as [|n IH]; intros a; cbn [kept_between Nat.add].
  - f_equal. lia.
  - rewrite IH. replace (S a + n) with (a + S n) by lia. lia.
Qed.

Lemma length_keep_from {A} (k : list A) a :
  length (keep_from removed a k) = kept_between removed a (length k).
Proof.
  revert a. induction k as [|x k IH]; intros a; cbn [keep_from kept_between length]; [done|].
  case_bool_decide; cbn [length]; rewrite IH; lia.
Qed.

(** A survivor is found at the number of survivors before it. *)
Lemma keep_from_lookup {A} (k : list A) : forall a j x,
  k !! j = Some x -> (a + j) ∉ removed ->
  keep_from removed a k !! kept_between removed a j = Some x.
Proof.
  induction k as [|x0 k IH]; intros a j x Hj Hn; [done|].
  destruct j as [|j]; cbn [keep_from kept_between].
  - rewrite Nat.add_0_r in Hn. rewrite (bool_decide_eq_false_2 _ Hn). exact Hj.
  - cbn in Hj. replace (a + S j) with (S a + j) in Hn by lia.
    case_bool_decide; cbn; apply IH; done.
Qed.

(** Every element that is kept is a survivor. *)
Lemma keep_from_lookup_inv {A} (k : list A) : forall a j x,
  keep_from removed a k !! j = Some x ->
  exists i, k !! i = Some x /\ ((a + i) ∉ removed) /\ j = kept_between removed a i.
Proof.
  induction k as [|x0 k IH]; intros a j x Hj; [done|].
  cbn [keep_from] in Hj. destruct (decide (a ∈ removed)) as [Hin|Hin].
  - rewrite (bool_decide_eq_true_2 _ Hin) in Hj.
    destruct (IH (S a) j x Hj) as (i & Hi & Hn & ->).
    exists (S i). split; [exact Hi|]. replace (a + S i) with (S a + i) by lia.
    split; [exact Hn|]. cbn [kept_between]. rewrite (bool_decide_eq_true_2 _ Hin). done.
  - rewrite (bool_decide_eq_false_2 _ Hin) in Hj. destruct j as [|j].
    + exists 0. rewrite Nat.add_0_r. cbn in Hj. done.
    + cbn in Hj. destruct (IH (S a) j x Hj) as (i & Hi & Hn & ->).
      exists (S i). split; [exact Hi|]. replace (a + S i) with (S a + i) by lia.
      split; [exact Hn|]. cbn [kept_between]. rewrite (bool_decide_eq_false_2 _ Hin). done.
Qed.

Lemma keep_from_fmap {A B} (f : A -> B) (k : list A) a :
  keep_from removed a (f <$> k) = f <$> keep_from removed a k.
Proof.
  revert a. induction k as [|x k IH]; intros a; cbn [keep_from fmap list_fmap]; [done|].
  case_bool_decide; cbn; rewrite IH; done.
Qed.

Lemma keep_from_zip {A B} (k : list A) (k' : list B) a :
  keep_from removed a (zip k k') = zip (keep_from removed a k) (keep_from removed a k').
Proof.
  revert a k'. induction k as [|x k IH]; intros a [|y k']; cbn [keep_from zip zip_with];
    try done.
  - case_bool_decide; [|done]. destruct (keep_from removed (S a) k); done.
  - case_bool_decide; cbn; rewrite IH; done.
Qed.

End Keep.

Section Compaction.
Variable l : list Scene.
Variable vs : list VideoState.
Variable removed : gset nat.
Hypothesis aligned : length vs = length l.

(** The invariant of the copying loop, from index [a] on. *)
Lemma compact_from m : forall a c,
  a + m = length l ->
  exists c',
    fold_left (compact_step l vs removed) (seq a m) (Some c) = Some c' /\
    newImageSet c' = newImageSet c ++ keep_from removed a (drop a l) /\
    newVideoStates c' = newVideoStates c ++ keep_from removed a (drop a vs) /\
    currentNewIndex c' = currentNewIndex c + kept_between removed a m /\
    (forall i, indexMap c' !! i =
               if bool_decide (a <= i < a + m /\ i ∉ removed)
               then Some (currentNewIndex c + kept_between removed a (i - a))
               else indexMap c !! i).
Proof.
  induction m as [|m IH]; intros a c Ha.
  - exists c. cbn [seq fold_left kept_between].
    rewrite !drop_ge by lia. cbn [keep_from]. rewrite !app_nil_r.
    repeat split; try lia. intros i. rewrite bool_decide_eq_false_2; [done | intuition lia].
  - cbn [seq fold_left]. unfold compact_step at 2.
    assert (is_Some (l !! a)) as [x Hx] by (apply lookup_lt_is_Some_2; lia).
    assert (is_Some (vs !! a)) as [v Hv] by (apply lookup_lt_is_Some_2; lia).
    assert (S a + m = length l) as Ha' by lia.
    rewrite (drop_S l x a Hx), (drop_S vs v a Hv). cbn [keep_from kept_between].
    destruct (decide (a ∈ removed)) as [Hin|Hin].
    + rewrite !(bool_decide_eq_true_2 _ Hin).
      destruct (IH (S a) c Ha') as (c' & Hf & H1 & H2 & H3 & H4).
      exists c'. split; [exact Hf|]. split; [exact H1|]. split; [exact H2|].
      split; [lia|]. intros i. rewrite H4.
      destruct (decide (S a <= i < S a + m /\ i ∉ removed)) as [Hi|Hi].
      * rewrite !bool_decide_eq_true_2 by intuition lia.
        replace (i - a) with (S (i - S a)) by lia.
        cbn [kept_between]. rewrite (bool_decide_eq_true_2 _ Hin). done.
      * rewrite !bool_decide_eq_false_2; [done | | done].
        intros [Hr Hn]. destruct (decide (i = a)); [subst; tauto | apply Hi; split; [lia | done]].
    + rewrite !(bool_decide_eq_false_2 _ Hin). rewrite Hx, Hv.
      set (c1 := mkCompaction _ _ _ _).
      destruct (IH (S a) c1 Ha') as (c' & Hf & H1 & H2 & H3 & H4).
      exists c'. split; [exact Hf|]. subst c1. cbn in H1, H2, H3, H4.
      split; [rewrite H1, <- app_assoc; done|].
      split; [rewrite H2, <- app_assoc; done|].
      split; [lia|]. intros i. rewrite H4.
      destruct (decide (S a <= i < S a + m /\ i ∉ removed)) as [Hi|Hi].
      * rewrite !bool_decide_eq_true_2 by intuition lia.
        replace (i - a) with (S (i - S a)) by lia.
        cbn [kept_between]. rewrite (bool_decide_eq_false_2 _ Hin). f_equal. lia.
      * rewrite (bool_decide_eq_false_2 _ Hi).
        destruct (decide (i = a)) as [->|Hne].
        -- rewrite bool_decide_eq_true_2 by (split; [lia | done]).
           rewrite lookup_insert_eq. replace (a - a) with 0 by lia. cbn. f_equal. lia.
        -- rewrite lookup_insert_ne by done.
           rewrite bool_decide_eq_false_2; [done|].
           intros [Hr Hn]. apply Hi. split; [lia | done].
Qed.

(** The loop copies the survivors of both sequences and maps every
    surviving index to its new position. *)
Lemma compact_spec :
  exists c,
    compact l vs removed = Some c /\
    newImageSet c = keep_from removed 0 l /\
    newVideoStates c = keep_from removed 0 vs /\
    (forall i, indexMap c !! i =
               if bool_decide (i < length l /\ i ∉ removed)
               then Some (new_index removed i) else None).
Proof.
  destruct (compact_from (length l) 0 (mkCompaction [] [] ∅ 0) eq_refl)
    as (c & Hf & H1 & H2 & _ & H4).
  exists c. split; [exact Hf|]. cbn [newImageSet newVideoStates app] in H1, H2.
  rewrite ?drop_0 in H1, H2.
  split; [exact H1|]. split; [exact H2|].
  intros i. rewrite H4. cbn. rewrite Nat.sub_0_r, lookup_empty.
  destruct (decide (i < length l /\ i ∉ removed)) as [Hi|Hi].
  - rewrite !bool_decide_eq_true_2; [done | done | intuition lia].
  - rewrite !bool_decide_eq_false_2; [done | done | intuition lia].
Qed.

End Compaction.

Lemma is_angle_of_spec index s :
  is_angle_of index s = true <-> isCameraAngleFor s = Some index.
Proof.
  unfold is_angle_of. destruct (isCameraAngleFor s) as [p|]; [|split; discriminate].
  rewrite Nat.eqb_eq. split; [intros ->; done | intros [= ->]; done].
Qed.

Lemma elem_of_indices_where {A} (f : A -> bool) (k : list A) : forall a i,
  i ∈ indices_where f k a <-> a <= i /\ exists x, k !! (i - a) = Some x /\ f x = true.
Proof.
  induction k as [|x0 k IH]; intros a i; cbn [indices_where].
  - split; [intros H; inversion H | intros [_ (x & H & _)]; done].
  - rewrite elem_of_app, IH. split.
    + intros [H | [Hle (x & Hx & Hf)]].
      * destruct (f x0) eqn:E; [|inversion H].
        apply list_elem_of_singleton in H as ->. split; [lia|].
        exists x0. rewrite Nat.sub_diag. done.
      * split; [lia|]. exists x. replace (i - a) with (S (i - S a)) by lia. done.
    + intros [Hle (x & Hx & Hf)]. destruct (decide (i = a)) as [->|Hne].
      * left. rewrite Nat.sub_diag in Hx. injection Hx as ->. rewrite Hf.
        apply list_elem_of_singleton. done.
      * right. split; [lia|]. exists x. replace (i - a) with (S (i - S a)) in Hx by lia. done.
Qed.

(** The removed block is the root and the scenes that refer to it. *)
Lemma elem_of_removed_block l root i :
  i ∈ removed_block l root <->
  i = root \/ exists s, l !! i = Some s /\ isCameraAngleFor s = Some root.
Proof.
  unfold removed_block. rewrite elem_of_union, elem_of_singleton, elem_of_list_to_set.
  rewrite elem_of_indices_where, Nat.sub_0_r.
  split; intros [H|H]; auto; right.
  - destruct H as [_ (x & Hx & Hf)]. exists x. rewrite <- is_angle_of_spec. done.
  - destruct H as (x & Hx & Hf). split; [lia|]. exists x. rewrite is_angle_of_spec. done.
Qed.

Lemma cascade_root l r sc :
  l !! r = Some sc -> isCameraAngleFor sc = None ->
  cascade l [r] = removed_block l r.
Proof.
  intros Hr Hroot. unfold cascade, removed_block, root_or_missing. cbn [fold_left].
  rewrite Hr, Hroot, list_to_set_singleton_L. done.
Qed.

Lemma cascade_last_child l c p sc root :
  l !! c = Some sc -> isCameraAngleFor sc = Some p ->
  l !! p = Some root -> isCameraAngleFor root = None ->
  cascade l [c; p] = removed_block l p.
Proof.
  intros Hc Hsc Hp Hroot. unfold cascade, root_or_missing. cbn [fold_left].
  rewrite Hc, Hsc, Hp, Hroot.
  assert (c ∈ removed_block l p) as Hin by (apply elem_of_removed_block; eauto).
  unfold removed_block in *. apply set_eq. intros i.
  rewrite !list_to_set_cons, list_to_set_nil, !elem_of_union, !elem_of_singleton.
  rewrite elem_of_union, elem_of_singleton in Hin.
  split; [intros [[-> | [-> | H]] | H] | intros [-> | H]]; auto.
  apply elem_of_empty in H. done.
Qed.

(** The initial indices of a deletion that hits the root, or its only
    angle-child, cascade to the root's block. *)
Lemma deletion_targets l sceneIndex sc root rootScene :
  l !! sceneIndex = Some sc ->
  l !! root = Some rootScene -> isCameraAngleFor rootScene = None ->
  (sceneIndex = root \/
   (isCameraAngleFor sc = Some root /\ length (List.filter (is_angle_of root) l) = 1)) ->
  cascade l (snd (deletion_request l sceneIndex sc)) = removed_block l root.
Proof.
  intros Hsc Hroot Hnone [-> | [Hpar Hone]].
  - assert (sc = rootScene) as -> by congruence.
    unfold deletion_request. rewrite Hnone. cbn [snd]. eapply cascade_root; eauto.
  - unfold deletion_request. rewrite Hpar, Hone. cbn [Nat.eqb snd].
    destruct (Nat.eqb_spec root sceneIndex) as [->|Hne]; [congruence|].
    eapply cascade_last_child; eauto.
Qed.

(** Counting: the survivors, the scenes that refer to [p], and [p] itself
    make up the whole sequence. *)
Lemma kept_count removed p (k : list Scene) : forall a,
  (forall j x, k !! j = Some x -> (a + j ∈ removed <-> a + j = p \/ is_angle_of p x = true)) ->
  (forall x, a <= p -> k !! (p - a) = Some x -> is_angle_of p x = false) ->
  kept_between removed a (length k) + length (List.filter (is_angle_of p) k)
    + (if bool_decide (a <= p < a + length k) then 1 else 0) = length k.
Proof.
  induction k as [|x k IH]; intros a Hrem Hroot.
  - cbn. rewrite bool_decide_eq_false_2 by lia. done.
  - cbn [length kept_between List.filter].
    assert (IH' : kept_between removed (S a) (length k) + length (List.filter (is_angle_of p) k)
                  + (if bool_decide (S a <= p < S a + length k) then 1 else 0) = length k).
    { apply IH.
      - intros j y Hj. replace (S a + j) with (a + S j) by lia. apply Hrem. exact Hj.
      - intros y Hle Hy. apply Hroot; [lia|]. replace (p - a) with (S (p - S a)) by lia. exact Hy. }
    pose proof (Hrem 0 x eq_refl) as H0. rewrite Nat.add_0_r in H0.
    destruct (decide (a = p)) as [->|Hne].
    + assert (is_angle_of p x = false) as Hx
        by (apply Hroot; [lia | rewrite Nat.sub_diag; done]).
      rewrite Hx. rewrite bool_decide_eq_true_2 by (apply H0; auto).
      rewrite (bool_decide_eq_true_2 (p <= p < p + S (length k))) by lia.
      rewrite (bool_decide_eq_false_2 (S p <= p < S p + length k)) in IH' by lia. lia.
    + assert ((a <= p < a + S (length k)) <-> (S a <= p < S a + length k)) as Hiff by lia.
      rewrite (bool_decide_ext _ _ Hiff).
      destruct (is_angle_of p x) eqn:Hx.
      * rewrite bool_decide_eq_true_2 by (apply H0; auto). cbn [length]. lia.
      * rewrite bool_decide_eq_false_2 by (rewrite H0; intros [?|?]; [done | discriminate]).
        lia.
Qed.

Lemma set_parent_same s : set_parent s (isCameraAngleFor s) = s.
Proof. destruct s; reflexivity. Qed.

(** What the copying loop and the re-indexing make of an aligned item, for
    any final set of indices. *)
Lemma removal_spec (l : list Scene) (vs : list VideoState) (removed : gset nat) :
  length vs = length l ->
  exists c,
    compact l vs removed = Some c /\
    newImageSet c = keep_from removed 0 l /\
    newVideoStates c = keep_from removed 0 vs /\
    length (newImageSet c) = kept_between removed 0 (length l) /\
    (forall i s, l !! i = Some s -> i ∉ removed ->
       map (reindex removed (indexMap c)) (newImageSet c) !! new_index removed i
       = Some (reindex removed (indexMap c) s)) /\
    (forall i, indexMap c !! i =
               if bool_decide (i < length l /\ i ∉ removed)
               then Some (new_index removed i) else None).
Proof.
  intros Hal. destruct (compact_spec l vs removed Hal) as (c & Hc & H1 & H2 & H3).
  exists c. split; [exact Hc|]. split; [exact H1|]. split; [exact H2|].
  split; [rewrite H1; apply length_keep_from|]. split; [|exact H3].
  intros i s Hi Hn. rewrite list_lookup_fmap, H1. unfold new_index.
  rewrite (keep_from_lookup removed l 0 i s Hi) by done. done.
Qed.

Lemma well_formedb_correct scenes : well_formedb scenes = true -> well_formed scenes.
Proof.
  unfold well_formedb, well_formed. rewrite forallb_forall. intros H i s p Hi Hp.
  assert (In s scenes) as Hin by (apply list_elem_of_In, list_elem_of_lookup; eauto).
  specialize (H s Hin). rewrite Hp in H.
  destruct (scenes !! p) as [r|]; [|discriminate].
  exists r. split; [done|]. destruct (isCameraAngleFor r); [discriminate | done].
Qed.

(** C2: deleting a root with k angle-children, or the only angle-child of
    a root, removes the root's block of k+1 scenes (exactly 2 in the second
    case) and leaves every other scene at its new position, its parent
    reference pointing to the new position of its parent.  On the tree with
    a root at 5 (children 6, 7) and a root at 9 (child 10), deleting scene 5
    leaves the former scene 9 at index 6 and gives its child the parent
    reference 6; deleting the only child of a root deletes the root too. *)
Theorem deleteScene_cascade :
  (forall (confirm : string -> bool) (item : GenerationItem) (sceneIndex root : nat)
          (sc rootScene : Scene),
      let l := imageSet item in
      let k := length (List.filter (is_angle_of root) l) in
      length (videoStates item) = length l ->
      well_formed l ->
      l !! sceneIndex = Some sc ->
      l !! root = Some rootScene -> isCameraAngleFor rootScene = None ->
      (sceneIndex = root \/ (isCameraAngleFor sc = Some root /\ k = 1)) ->
      (forall msg, confirm msg = true) ->
      exists item',
        deleteScene confirm sceneIndex item = Some (Deleted item') /\
        length (imageSet item') + (k + 1) = length l /\
        (forall i s, l !! i = Some s -> i ∉ removed_block l root ->
           imageSet item' !! (new_index (removed_block l root) i)
           = Some (moved (removed_block l root) s))) /\
  handleDeleteScene (fun _ => true) 1 5 [item_of eleven_scenes eleven_videos]
  = Some [item_of
            [node "s0" None; node "s1" None; node "s2" None; node "s3" None; node "s4" None;
             node "s8" None; node "s9" None; node "s10" (Some 6)]
            [vstate "v0"; vstate "v1"; vstate "v2"; vstate "v3"; vstate "v4";
             vstate "v8"; vstate "v9"; vstate "v10"]] /\
  handleDeleteScene (fun _ => true) 1 2 [item_of five_scenes five_videos]
  = Some [item_of [node "a" None; node "c" None; node "c1" (Some 1)]
            [vstate "va"; vstate "vc"; vstate "vc1"]].
Proof.
  split; [| split; vm_compute; reflexivity].
  intros confirm item sceneIndex root sc rootScene l k Hal Hwf Hsc Hroot Hnone Hcase Hyes.
  unfold deleteScene. fold l. rewrite Hsc.
  pose proof (deletion_targets l sceneIndex sc root rootScene Hsc Hroot Hnone Hcase) as Hrem.
  destruct (deletion_request l sceneIndex sc) as [msg initial]. cbn [snd] in Hrem.
  rewrite Hyes. cbn [negb]. rewrite Hrem.
  destruct (removal_spec l (videoStates item) (removed_block l root) Hal)
    as (c & Hc & _ & Hvs & Hlen & Hlook & Hmap).
  rewrite Hc. eexists. split; [reflexivity|]. cbn [imageSet with_scenes].
  split.
  - rewrite length_map, Hlen.
    pose proof (kept_count (removed_block l root) root l 0) as Hcount.
    rewrite bool_decide_eq_true_2 in Hcount
      by (split; [lia | apply lookup_lt_Some in Hroot; lia]).
    fold k in Hcount.
    cut (kept_between (removed_block l root) 0 (length l) + k + 1 = length l); [lia|].
    apply Hcount.
    + intros j x Hj. cbn [Nat.add]. rewrite elem_of_removed_block.
      split; intros [H|H]; auto; right.
      * destruct H as (s & Hs & Hp). assert (s = x) as -> by congruence.
        apply is_angle_of_spec. done.
      * exists x. split; [done|]. apply is_angle_of_spec. done.
    + intros x _ Hx. rewrite Nat.sub_0_r in Hx. assert (x = rootScene) as -> by congruence.
      unfold is_angle_of. rewrite Hnone. done.
  - intros i s Hi Hn. rewrite (Hlook i s Hi Hn). f_equal.
    unfold reindex, moved.
    destruct (isCameraAngleFor s) as [p|] eqn:Hp; cbn [fmap option_fmap option_map].
    + destruct (Hwf i s p Hi Hp) as (r & Hr & Hrroot).
      assert (p ∉ removed_block l root) as Hpn.
      { rewrite elem_of_removed_block. intros [-> | (s' & Hs' & Hpar)].
        - apply Hn. apply elem_of_removed_block. right. eauto.
        - congruence. }
      rewrite (bool_decide_eq_false_2 _ Hpn), Hmap.
      rewrite bool_decide_eq_true_2 by (split; [apply lookup_lt_Some in Hr; done | done]).
      done.
    + rewrite <- Hp. symmetry. apply set_parent_same.
Qed.

Lemma deleteScene_cascade_witness :
  exists item',
    deleteScene (fun _ => true) 5 (item_of eleven_scenes eleven_videos) = Some (Deleted item') /\
    length (imageSet item') + (2 + 1) = 11 /\
    imageSet item' !! 6 = Some (node "s9" None) /\
    imageSet item' !! 7 = Some (node "s10" (Some 6)).
Proof.
  destruct (proj1 deleteScene_cascade (fun _ => true) (item_of eleven_scenes eleven_videos)
              5 5 (node "s5" None) (node "s5" None)) as (item' & Hdel & Hlen & Hpos).
  - reflexivity.
  - apply well_formedb_correct. reflexivity.
  - reflexivity.
  - reflexivity.
  - reflexivity.
  - left. reflexivity.
  - reflexivity.
  - exists item'. split; [exact Hdel|]. split; [exact Hlen|]. split.
    + apply (Hpos 9 (node "s9" None)); [reflexivity|].
      refine (proj1 (bool_decide_eq_false _) _). vm_compute. reflexivity.
    + apply (Hpos 10 (node "s10" (Some 9))); [reflexivity|].
      refine (proj1 (bool_decide_eq_false _) _). vm_compute. reflexivity.
Defined.

(** ** Scene tree: insertion *)

Lemma length_splice {A} (l : list A) start items :
  length (splice l start items) = length l + length items.
Proof.
  unfold splice. rewrite !length_app, length_take, length_drop. lia.
Qed.

Section Splice.
Context {A : Type}.
Implicit Types (l items : list A).

Lemma splice_lookup_before l start items i :
  i < start -> start <= length l -> splice l start items !! i = l !! i.
Proof.
  intros Hi Hs. unfold splice. rewrite lookup_app_l by (rewrite length_take; lia).
  apply lookup_take_lt. done.
Qed.

Lemma splice_lookup_new l start items j x :
  start <= length l -> items !! j = Some x -> splice l start items !! (start + j) = Some x.
Proof.
  intros Hs Hj. unfold splice. rewrite lookup_app_r by (rewrite length_take; lia).
  rewrite length_take_le by done. replace (start + j - start) with j by lia.
  rewrite lookup_app_l by (apply lookup_lt_Some in Hj; done). done.
Qed.

Lemma splice_lookup_after l start items i :
  start <= i -> splice l start items !! (i + length items) = l !! i.
Proof.
  intros Hi. unfold splice.
  destruct (decide (start <= length l)) as [Hs|Hs].
  - rewrite lookup_app_r by (rewrite length_take; lia).
    rewrite length_take_le by done.
    rewrite lookup_app_r by lia. rewrite lookup_drop. f_equal. lia.
  - rewrite take_ge, drop_ge by lia. rewrite app_nil_r.
    rewrite lookup_app_r by lia.
    rewrite (lookup_ge_None_2 l i) by lia. apply lookup_ge_None_2. lia.
Qed.

End Splice.

Lemma initial_states n :
  map (fun _ : unit => getInitialVideoState) (replicate n tt) = replicate n getInitialVideoState.
Proof. apply (fmap_replicate (fun _ : unit => getInitialVideoState)). Qed.

(** The state update of the insertion, when the scene exists: both
    sequences are spliced at the position after the scene. *)
Lemma insertAngles_spec r new item s :
  imageSet item !! r = Some s ->
  insertAngles r new item
  = Some (with_scenes item
            (splice (<[r := settle_angles (shift_parent r (length new) s) None]>
                       (map (shift_parent r (length new)) (imageSet item)))
               (r + 1) (map (fun s => set_parent s (Some r)) new))
            (splice (videoStates item) (r + 1) (replicate (length new) getInitialVideoState))).
Proof.
  intros Hr. unfold insertAngles. rewrite initial_states.
  set (X := map _ (imageSet item)). set (T := map _ new).
  assert (X !! r = Some (shift_parent r (length new) s)) as HX
    by (unfold X; rewrite list_lookup_fmap, Hr; done).
  assert (r < length X) as Hlt by (apply lookup_lt_Some in HX; done).
  assert (splice X (r + 1) T !! r = Some (shift_parent r (length new) s)) as Hs.
  { unfold splice. rewrite lookup_app_l by (rewrite length_take; lia).
    rewrite lookup_take_lt by lia. done. }
  rewrite Hs. do 2 f_equal.
  unfold splice. rewrite insert_app_l by (rewrite length_take; lia).
  rewrite take_insert_lt by lia. rewrite drop_insert_lt by lia. done.
Qed.

Lemma shift_parent_spec r m x :
  isCameraAngleFor (shift_parent r m x)
  = (fun p => if (r <? p)%nat then p + m else p) <$> isCameraAngleFor x.
Proof.
  unfold shift_parent. destruct (isCameraAngleFor x) as [p|] eqn:Hp;
    cbn [fmap option_fmap option_map].
  - destruct (r <? p)%nat; [done | exact Hp].
  - exact Hp.
Qed.

Lemma insertAngles_lookups r new item s :
  imageSet item !! r = Some s ->
  exists item',
    insertAngles r new item = Some item' /\
    length (imageSet item') = length (imageSet item) + length new /\
    (forall j n, new !! j = Some n ->
       imageSet item' !! (r + 1 + j) = Some (set_parent n (Some r))) /\
    (forall i x, imageSet item !! i = Some x -> i <> r ->
       imageSet item' !! (if (i <=? r)%nat then i else i + length new)
       = Some (shift_parent r (length new) x)) /\
    imageSet item' !! r = Some (settle_angles (shift_parent r (length new) s) None).
Proof.
  intros Hr. rewrite (insertAngles_spec r new item s Hr). eexists. split; [reflexivity|].
  cbn [imageSet with_scenes].
  set (X := <[r:=_]> _).
  assert (r < length (imageSet item)) as Hlt by (apply lookup_lt_Some in Hr; done).
  assert (length X = length (imageSet item)) as HX
    by (unfold X; rewrite length_insert, length_map; done).
  split; [rewrite length_splice, HX, length_map; done|].
  split; [|split].
  - intros j n Hj. apply splice_lookup_new; [lia|].
    rewrite list_lookup_fmap, Hj. done.
  - intros i x Hi Hne. destruct (Nat.leb_spec i r) as [Hle|Hgt].
    + rewrite splice_lookup_before by lia. unfold X.
      rewrite list_lookup_insert_ne by done. rewrite list_lookup_fmap, Hi. done.
    + assert (r + 1 <= i) as Hri by lia.
      pose proof (splice_lookup_after X (r + 1)
                    (map (fun s0 => set_parent s0 (Some r)) new) i Hri) as Hafter.
      rewrite length_map in Hafter. rewrite Hafter. unfold X.
      rewrite list_lookup_insert_ne by lia. rewrite list_lookup_fmap, Hi. done.
  - rewrite splice_lookup_before by lia. unfold X.
    apply list_lookup_insert_eq. rewrite length_map. done.
Qed.

(** Inversion of a sequence of two steps that resolves. *)
Lemma bind_resolved {St A B} (m : M St A) (k : A -> M St B) w b w' :
  bind m k w = (Resolved b, w') ->
  exists a w1, m w = (Resolved a, w1) /\ k a w1 = (Resolved b, w').
Proof.
  unfold bind. destruct (m w) as [[a|e] w1]; [eauto | discriminate].
Qed.

Lemma angles_loop_length host rest : forall i total acc cp ar st g chars onp w scenes w',
  generateCameraAngles_loop host rest i total acc cp ar st g chars onp w = (Resolved scenes, w') ->
  length scenes = length acc + length rest.
Proof.
  induction rest as [|angle rest IH]; intros i total acc cp ar st g chars onp w scenes w' H.
  - cbn in H. injection H as <- _. cbn. lia.
  - cbn [generateCameraAngles_loop] in H.
    apply bind_resolved in H as (prompt & w1 & _ & H).
    destruct (negb (truthy_opt prompt)).
    + apply IH in H. rewrite length_app in H. cbn in *. lia.
    + apply bind_resolved in H as (? & w2 & _ & H).
      apply bind_resolved in H as (r & w3 & _ & H).
      apply bind_resolved in H as (? & w4 & _ & H).
      apply IH in H. rewrite length_app in H. cbn in *. lia.
Qed.

(** A camera-angle pipeline that completes returns one scene per requested
    angle. *)
Lemma angles_pipeline_length host sc ar st g chars model names onp w scenes w' :
  generateCameraAnglesFromImage host sc ar st g chars model names onp w = (Resolved scenes, w') ->
  length scenes = length names.
Proof.
  unfold generateCameraAnglesFromImage. intros H.
  destruct (negb (truthy_str (src sc))); [discriminate|].
  apply bind_resolved in H as (? & w1 & _ & H).
  apply bind_resolved in H as (ext & w2 & _ & H).
  destruct (truthy_opt (result_error ext) || negb (truthy_str (result_src ext)));
    [discriminate|].
  apply bind_resolved in H as (? & w3 & _ & H).
  apply bind_resolved in H as (cp & w4 & _ & H).
  apply bind_resolved in H as (cp' & w5 & _ & H).
  apply angles_loop_length in H. cbn in H. exact H.
Qed.

Lemma map_at_lookup r f l s : l !! r = Some s -> map_at r f l !! r = Some (f s).
Proof.
  intros H. unfold map_at. rewrite list_lookup_imap, H. cbn. rewrite Nat.eqb_refl. done.
Qed.

Lemma length_map_at r f l : length (map_at r f l) = length l.
Proof. unfold map_at. apply length_imap. Qed.

(** The handler on a history of one item: when the pipeline completes, the
    new scenes are inserted into the item marked as generating. *)
Lemma handleConfirmAngleGeneration_success host front back side item r sc w newScenes w' :
  imageSet item !! r = Some sc -> truthy_str (src sc) = true ->
  selected_names front back side <> [] ->
  generateCameraAnglesFromImage host sc (item_aspectRatio item) (item_imageStyle item)
    (item_genre item) (item_characters item) (item_imageModel item)
    (selected_names front back side) noProgress w = (Resolved newScenes, w') ->
  handleConfirmAngleGeneration host front back side (item_id item) r [item] w
  = (Resolved (option_map (fun item' => [item'])
                 (insertAngles r newScenes
                    (with_imageSet item
                       (map_at r (fun s => set_generating s true) (imageSet item))))), w').
Proof.
  intros Hr Hsrc Hsel Hrun. unfold handleConfirmAngleGeneration.
  destruct (selected_names front back side) as [|a names] eqn:Hnames; [done|].
  cbn [List.find]. rewrite Nat.eqb_refl, Hr, Hsrc. cbn [negb].
  unfold try_catch, bind. rewrite Hrun. cbn [ret map update_items].
  rewrite Nat.eqb_refl. cbn [item_id with_imageSet with_scenes]. rewrite Nat.eqb_refl.
  reflexivity.
Qed.

(** C3 as stated fails on a root that already has an angle-child: the new
    scene goes between the root (index 1) and its old child, which moves
    from index 2 to index 3 and keeps its parent reference 1. *)
Lemma insertAngles_order_counterexample :
  insertAngles 1 [node "n1" None] (item_of five_scenes five_videos)
  = Some (item_of
            [node "a" None; node "b" None; node "n1" (Some 1); node "b1" (Some 1);
             node "c" None; node "c1" (Some 4)]
            [vstate "va"; vstate "vb"; getInitialVideoState; vstate "vb1"; vstate "vc";
             vstate "vc1"]).
Proof. vm_compute. reflexivity. Qed.

(** C3 (amended): the m new scenes are spliced at the indices r+1 .. r+m,
    directly after the scene at r (before its older angle-children), each
    with parent reference r; every older scene keeps its place up to r and
    moves by m after it; a parent reference greater than r grows by m and
    any other is unchanged.  Requesting front and back on the scene at
    index 2 of a 5-scene sequence, when the pipeline completes, inserts
    exactly 2 scenes, at indices 3 and 4, with parent reference 2. *)
Theorem insertAngles_positions :
  (forall r new item s,
      imageSet item !! r = Some s ->
      exists item',
        insertAngles r new item = Some item' /\
        length (imageSet item') = length (imageSet item) + length new /\
        (forall j n, new !! j = Some n ->
           imageSet item' !! (r + 1 + j) = Some (set_parent n (Some r))) /\
        (forall i x, imageSet item !! i = Some x -> i <> r ->
           imageSet item' !! (if (i <=? r)%nat then i else i + length new)
           = Some (shift_parent r (length new) x))) /\
  (forall r m x,
      isCameraAngleFor (shift_parent r m x)
      = (fun p => if (r <? p)%nat then p + m else p) <$> isCameraAngleFor x) /\
  (forall host item sc w newScenes w',
      length (imageSet item) = 5 ->
      imageSet item !! 2 = Some sc -> truthy_str (src sc) = true ->
      generateCameraAnglesFromImage host sc (item_aspectRatio item) (item_imageStyle item)
        (item_genre item) (item_characters item) (item_imageModel item)
        ["front"; "back"] noProgress w = (Resolved newScenes, w') ->
      exists item' n1 n2,
        handleConfirmAngleGeneration host true true false (item_id item) 2 [item] w
        = (Resolved (Some [item']), w') /\
        newScenes = [n1; n2] /\
        length (imageSet item') = 7 /\
        imageSet item' !! 3 = Some (set_parent n1 (Some 2)) /\
        imageSet item' !! 4 = Some (set_parent n2 (Some 2))).
Proof.
  split; [| split].
  - intros r new item s Hr.
    destruct (insertAngles_lookups r new item s Hr) as (item' & H1 & H2 & H3 & H4 & _).
    eauto.
  - apply shift_parent_spec.
  - intros host item sc w newScenes w' Hfive Hsc Hsrc Hrun.
    pose proof (angles_pipeline_length _ _ _ _ _ _ _ _ _ _ _ _ Hrun) as Hlen.
    destruct newScenes as [|n1 [|n2 [|n3 rest]]]; try discriminate Hlen.
    rewrite (handleConfirmAngleGeneration_success host true true false item 2 sc w [n1; n2] w')
      by (try done; exact Hrun).
    set (marked := with_imageSet item _).
    assert (imageSet marked !! 2 = Some (set_generating sc true)) as Hm
      by (unfold marked; cbn [imageSet with_imageSet with_scenes];
          apply (map_at_lookup 2 (fun s => set_generating s true)); exact Hsc).
    destruct (insertAngles_lookups 2 [n1; n2] marked _ Hm) as (item' & H1 & H2 & H3 & _).
    rewrite H1. exists item', n1, n2. split; [reflexivity|]. split; [reflexivity|].
    split; [rewrite H2; unfold marked; cbn [imageSet with_imageSet with_scenes length];
            rewrite length_map_at, Hfive; done|].
    split; [apply (H3 0 n1) | apply (H3 1 n2)]; reflexivity.
Qed.

Lemma insertAngles_positions_witness :
  exists item',
    insertAngles 1 [node "n1" None; node "n2" None] (item_of five_scenes five_videos)
    = Some item' /\
    length (imageSet item') = 5 + 2 /\
    imageSet item' !! 2 = Some (node "n1" (Some 1)) /\
    imageSet item' !! 3 = Some (node "n2" (Some 1)) /\
    imageSet item' !! 6 = Some (node "c1" (Some 5)).
Proof.
  destruct (proj1 insertAngles_positions 1 [node "n1" None; node "n2" None]
              (item_of five_scenes five_videos) (node "b" None) eq_refl)
    as (item' & H1 & H2 & H3 & H4).
  exists item'. split; [exact H1|]. split; [exact H2|].
  split; [apply (H3 0 (node "n1" None)); reflexivity|].
  split; [apply (H3 1 (node "n2" None)); reflexivity|].
  apply (H4 4 (node "c1" (Some 3))); [reflexivity | lia].
Defined.

(** ** Alignment of scenes and video states *)

Lemma payload_reindex removed m s : payload (reindex removed m s) = payload s.
Proof.
  unfold reindex, payload. destruct (isCameraAngleFor s) as [p|]; [|done].
  case_bool_decide; [done|]. destruct (m !! p); done.
Qed.

(** A deletion on an aligned item never leaves the typed model, and it
    removes the same indices from both sequences. *)
Lemma deleteScene_aligned confirm sceneIndex item :
  length (videoStates item) = length (imageSet item) ->
  deleteScene confirm sceneIndex item = Some Kept \/
  exists item' removed,
    deleteScene confirm sceneIndex item = Some (Deleted item') /\
    payload <$> imageSet item' = keep_from removed 0 (payload <$> imageSet item) /\
    videoStates item' = keep_from removed 0 (videoStates item).
Proof.
  intros Hal. unfold deleteScene.
  destruct (imageSet item !! sceneIndex) as [sc|]; [|left; done].
  destruct (deletion_request (imageSet item) sceneIndex sc) as [msg initial].
  destruct (confirm msg); cbn [negb]; [|left; done].
  set (removed := cascade (imageSet item) initial).
  destruct (removal_spec (imageSet item) (videoStates item) removed Hal)
    as (c & Hc & Hl & Hvs & _).
  rewrite Hc. right. eexists _, removed. split; [reflexivity|].
  cbn [imageSet videoStates with_scenes]. split; [|exact Hvs].
  rewrite Hl, keep_from_fmap, <- list_fmap_compose.
  apply list_fmap_ext. intros i x _. apply payload_reindex.
Qed.

Lemma handleGenerateImage_outcome host now inputs prev w :
  exists h st,
    fst (handleGenerateImage host now inputs prev w) = Resolved (h, st) /\
    (h = prev \/
     exists item, h = item :: prev /\ app_status st = idle /\
       videoStates item = replicate (length (imageSet item)) getInitialVideoState).
Proof.
  unfold handleGenerateImage.
  destruct (String.eqb (promptText inputs) ""); [cbn; eauto|].
  unfold bind at 1. cbn [setLoadingMessage emit]. unfold try_catch, bind.
  match goal with |- context [generateImageSet ?a ?b ?c ?d ?e ?f ?g ?h ?i ?j ?k] =>
    destruct (generateImageSet a b c d e f g h i j k) as [[storyboard|e0] w1] end.
  - cbn. eexists _, _. split; [reflexivity|]. right. eexists. split; [reflexivity|].
    split; [reflexivity|]. cbn. apply initial_states.
  - cbn. eauto.
Qed.

(** What does keep the alignment: the two sequences have the same length
    when an item is created, and a deletion, an extension and a
    camera-angle insertion at an index inside the sequence each apply the
    same change to both: the same indices are removed, or the same number
    of elements is spliced in at the same position. *)
Theorem videoStates_aligned :
  (forall host now inputs prev w,
      exists h st,
        fst (handleGenerateImage host now inputs prev w) = Resolved (h, st) /\
        (h = prev \/
         exists item, h = item :: prev /\
           videoStates item = replicate (length (imageSet item)) getInitialVideoState /\
           length (videoStates item) = length (imageSet item))) /\
  (forall confirm sceneIndex item,
      length (videoStates item) = length (imageSet item) ->
      deleteScene confirm sceneIndex item = Some Kept \/
      exists item' removed,
        deleteScene confirm sceneIndex item = Some (Deleted item') /\
        payload <$> imageSet item' = keep_from removed 0 (payload <$> imageSet item) /\
        videoStates item' = keep_from removed 0 (videoStates item) /\
        length (videoStates item') = length (imageSet item')) /\
  (forall sceneIndex newScenes item,
      length (videoStates item) = length (imageSet item) ->
      sceneIndex < length (imageSet item) ->
      exists item' base,
        insertAngles sceneIndex newScenes item = Some item' /\
        length base = length (imageSet item) /\
        imageSet item'
        = splice base (sceneIndex + 1) (map (fun s => set_parent s (Some sceneIndex)) newScenes) /\
        videoStates item'
        = splice (videoStates item) (sceneIndex + 1)
            (replicate (length newScenes) getInitialVideoState) /\
        length (videoStates item') = length (imageSet item')) /\
  (forall sceneIndex newScene item,
      length (videoStates item) = length (imageSet item) ->
      exists insertionPoint,
        imageSet (extendItem sceneIndex newScene item)
        = splice (imageSet item) insertionPoint [newScene] /\
        videoStates (extendItem sceneIndex newScene item)
        = splice (videoStates item) insertionPoint [getInitialVideoState] /\
        length (videoStates (extendItem sceneIndex newScene item))
        = length (imageSet (extendItem sceneIndex newScene item))).
Proof.
  split; [| split; [| split]].
  - intros host now inputs prev w.
    destruct (handleGenerateImage_outcome host now inputs prev w)
      as (h & st & H & [-> | (item & -> & _ & Hvs)]).
    + exists prev, st. split; [exact H | left; reflexivity].
    + exists (item :: prev), st. split; [exact H|]. right. exists item.
      split; [reflexivity|]. split; [exact Hvs|]. rewrite Hvs. apply length_replicate.
  - intros confirm sceneIndex item Hal.
    destruct (deleteScene_aligned confirm sceneIndex item Hal)
      as [H | (item' & removed & H & Hl & Hvs)]; [left; exact H|].
    right. exists item', removed. split; [exact H|]. split; [exact Hl|]. split; [exact Hvs|].
    rewrite Hvs, <- (length_map payload (imageSet item')).
    change (map payload (imageSet item')) with (payload <$> imageSet item').
    rewrite Hl, !length_keep_from, length_fmap. congruence.
  - intros sceneIndex newScenes item Hal Hlt.
    destruct (lookup_lt_is_Some_2 _ _ Hlt) as [s Hs].
    rewrite (insertAngles_spec sceneIndex newScenes item s Hs).
    eexists _, _. split; [reflexivity|]. cbn [imageSet videoStates with_scenes].
    split; [rewrite length_insert, length_map; reflexivity|].
    split; [reflexivity|]. split; [reflexivity|].
    rewrite !length_splice, length_insert, !length_map, length_replicate. lia.
  - intros sceneIndex newScene item Hal. unfold extendItem.
    cbn [imageSet videoStates with_scenes]. eexists. split; [reflexivity|].
    split; [reflexivity|]. rewrite !length_splice. cbn [length]. lia.
Qed.

Lemma videoStates_aligned_witness :
  exists item' base,
    insertAngles 1 [node "n1" None] (item_of five_scenes five_videos) = Some item' /\
    length base = 5 /\
    imageSet item' = splice base (1 + 1) (map (fun s => set_parent s (Some 1)) [node "n1" None]) /\
    videoStates item' = splice five_videos (1 + 1) (replicate 1 getInitialVideoState) /\
    length (videoStates item') = length (imageSet item').
Proof.
  apply (proj1 (proj2 (proj2 videoStates_aligned)) 1 [node "n1" None]
           (item_of five_scenes five_videos)).
  - reflexivity.
  - cbn. lia.
Defined.

(** *** The insertion at an index that is no longer there *)

(** Where the typed update succeeds, the arrays are those of its result. *)
Lemma insertAngles_slots_dense sceneIndex newScenes item item' :
  insertAngles sceneIndex newScenes item = Some item' ->
  insertAngles_slots sceneIndex newScenes item = slots_of item'.
Proof.
  unfold insertAngles, insertAngles_slots, slots_of.
  match goal with |- context [splice ?a ?b ?c !! sceneIndex] => set (updated := splice a b c) end.
  destruct (updated !! sceneIndex) as [s|] eqn:Hs; [|discriminate].
  intros [= <-]. cbn [imageSet videoStates with_scenes]. f_equal.
  unfold assign. rewrite length_fmap.
  replace (sceneIndex <? length updated)%nat with true
    by (symmetry; apply Nat.ltb_lt; apply lookup_lt_Some in Hs; exact Hs).
  symmetry. apply list_fmap_insert.
Qed.

Lemma update_items_slots gid sceneIndex newScenes marked : forall h,
  update_items gid (insertAngles sceneIndex newScenes) marked = Some h ->
  map (fun item => if (item_id item =? gid)%nat
                   then insertAngles_slots sceneIndex newScenes item else slots_of item)
    marked
  = slots_of <$> h.
Proof.
  induction marked as [|item marked IH]; intros h H.
  - injection H as <-. reflexivity.
  - cbn [update_items] in H.
    destruct (update_items gid (insertAngles sceneIndex newScenes) marked) as [r|];
      [|discriminate].
    cbn [map]. rewrite (IH r eq_refl).
    destruct (item_id item =? gid)%nat.
    + destruct (insertAngles sceneIndex newScenes item) as [item'|] eqn:E; [|discriminate].
      injection H as <-. rewrite (insertAngles_slots_dense _ _ _ _ E). reflexivity.
    + injection H as <-. reflexivity.
Qed.

(** With nothing happening meanwhile, the handler is the one above. *)
Lemma handleConfirmAngleGeneration_meanwhile_nothing host front back side gid sceneIndex
  history w h w' :
  handleConfirmAngleGeneration host front back side gid sceneIndex history w
  = (Resolved (Some h), w') ->
  handleConfirmAngleGeneration_meanwhile host (fun current => current) front back side gid
    sceneIndex history w
  = (Resolved (slots_of <$> h), w').
Proof.
  unfold handleConfirmAngleGeneration, handleConfirmAngleGeneration_meanwhile. cbn zeta.
  destruct (selected_names front back side) as [|a names];
    [intros [= <- <-]; reflexivity|].
  destruct (List.find _ history) as [item|]; [|intros [= <- <-]; reflexivity].
  destruct (imageSet item !! sceneIndex) as [sc|]; [|intros [= <- <-]; reflexivity].
  destruct (negb (truthy_str (src sc))); [intros [= <- <-]; reflexivity|].
  unfold try_catch, bind.
  destruct (generateCameraAnglesFromImage _ _ _ _ _ _ _ _ _ w) as [[newScenes|e] w1].
  - unfold ret. intros [= H <-]. rewrite (update_items_slots _ _ _ _ _ H). reflexivity.
  - unfold ret. intros [= <- <-]. reflexivity.
Qed.

(** C4 fails for the camera-angle insertion.  Its state update writes at
    the index of the request; applied to a sequence that has become too
    short, the write lands past the end and lengthens the scene array
    alone.  One generation with three roots: angles are requested for the
    scene at index 2; while the request is pending the first two scenes are
    deleted, one after the other; when the front angle arrives, the update
    turns the one scene and its one video state into three array elements
    (the scene, the new angle tagged with parent 2, and an object with
    nothing but the two fields of the last assignment) and two video
    states.  The alignment held before the request and after each
    deletion. *)
Theorem stale_angle_index_breaks_alignment :
  (forall sceneIndex newScenes item,
      length (snd (insertAngles_slots sceneIndex newScenes item))
      = length (videoStates item) + length newScenes /\
      length (fst (insertAngles_slots sceneIndex newScenes item))
      = Nat.max (length (imageSet item) + length newScenes) (sceneIndex + 1)) /\
  length three_root_videos = length three_roots /\
  handleDeleteScene (fun _ => true) 1 0
    [item_of (map_at 2 (fun s => set_generating s true) three_roots) three_root_videos]
  = Some [item_of [node "b" None; set_generating (node "c" None) true]
            [vstate "vb"; vstate "vc"]] /\
  handleDeleteScene (fun _ => true) 1 0
    [item_of [node "b" None; set_generating (node "c" None) true] [vstate "vb"; vstate "vc"]]
  = Some [item_of [set_generating (node "c" None) true] [vstate "vc"]] /\
  fst (handleConfirmAngleGeneration_meanwhile sample_host first_two_deleted true false false
         1 2 [item_of three_roots three_root_videos]
         (start (steady_backend two_prompts_json "png")))
  = Resolved
      [([Full (set_generating (node "c" None) true);
         Full (mkScene (Some "png") (JString front_instruction) None (Some 2) false false false None);
         FlagsOnly],
        [vstate "vc"; getInitialVideoState])] /\
  length [vstate "vc"; getInitialVideoState]
  <> length [Full (set_generating (node "c" None) true);
             Full (mkScene (Some "png") (JString front_instruction) None (Some 2) false false false
                     None);
             FlagsOnly].
Proof.
  split.
  { intros sceneIndex newScenes item. unfold insertAngles_slots. cbn [fst snd].
    rewrite initial_states. split.
    - rewrite length_splice, length_replicate. reflexivity.
    - match goal with |- context [assign _ ?v ?arr] => set (value := v); set (slots := arr) end.
      assert (length slots = length (imageSet item) + length newScenes) as Hlen.
      { unfold slots. rewrite length_fmap, length_splice, !length_map. reflexivity. }
      unfold assign. destruct (Nat.ltb_spec sceneIndex (length slots)).
      + rewrite length_insert. lia.
      + rewrite !length_app, length_replicate. cbn [length]. lia. }
  split; [reflexivity|]. split; [vm_compute; reflexivity|].
  split; [vm_compute; reflexivity|]. split; [vm_compute; reflexivity|].
  cbn [length]. lia.
Qed.

(** ** Tree shape *)

(** C5 fails for the extension: on two roots, the second with an
    angle-child, extending the first root from its last frame inserts the
    new scene at index 1 and leaves the old parent reference 1 in place, so
    the former child of the second root now refers to the inserted scene,
    which is itself an angle-child. *)
Theorem extend_breaks_tree_shape :
  well_formed three_scenes /\
  handleExtendFromLastFrame (Resolved "frame") 1 0 [item_of three_scenes three_videos]
  = [item_of
       [node "a" None;
        mkScene (Some "frame") (JString "Animation from the last frame of the previous scene.")
          None (Some 0) false false false None;
        node "b" None; node "b1" (Some 1)]
       (splice three_videos 1 [getInitialVideoState])] /\
  ~ well_formed
      [node "a" None;
       mkScene (Some "frame") (JString "Animation from the last frame of the previous scene.")
         None (Some 0) false false false None;
       node "b" None; node "b1" (Some 1)].
Proof.
  split; [apply well_formedb_correct; vm_compute; reflexivity|].
  split; [vm_compute; reflexivity|].
  intros Hwf.
  destruct (Hwf 3 (node "b1" (Some 1)) 1 eq_refl eq_refl) as (r & Hr & Hroot).
  injection Hr as <-. discriminate Hroot.
Qed.

(** ** Scene pipeline *)











Lemma returns_ret {A} (P : A -> Prop) a : P a -> returns P (ret a).
Proof. intros H w a' w' [= <- _]. exact H. Qed.

Lemma returns_bind {A B} (P : B -> Prop) (m : M Backend A) (k : A -> M Backend B) :
  (forall a, returns P (k a)) -> returns P (bind m k).
Proof.
  intros Hk w b w' H. unfold bind in H. destruct (m w) as [[a|e] w1]; [|discriminate].
  exact (Hk a _ _ _ H).
Qed.

(** The normalized error text is never empty. *)
Lemma parseErrorMessage_truthy e : truthy (parseErrorMessage e) = true.
Proof.
  destruct e as [message|r]; [|reflexivity].
  unfold parseErrorMessage.
  destruct (parseErrorMessage_json message) as [v|] eqn:Hj.
  - unfold parseErrorMessage_json in Hj.
    destruct (JSON_parse message) as [parsed|]; [|discriminate].
    destruct (getProp parsed "error") as [err|]; [|discriminate].
    destruct (truthy_opt err); [|discriminate].
    destruct err as [e0|]; [|discriminate].
    destruct (getProp e0 "message") as [[m|]|]; try discriminate.
    destruct (truthy m) eqn:Hm; [|discriminate].
    destruct m; try (injection Hj as <-; exact Hm).
    destruct (includes (toLowerCase s) "quota"); injection Hj as <-; [reflexivity | exact Hm].
  - unfold parseErrorMessage_match. cbn zeta.
    repeat match goal with
           | |- context [if ?c then _ else _] =>
               lazymatch c with
               | String.eqb _ _ => fail
               | _ => destruct c; [reflexivity|]
               end
           end.
    destruct (String.eqb message "") eqn:E; [reflexivity|]. cbn [truthy]. rewrite E.
    reflexivity.
Qed.

Lemma getAiClient_ok w :
  truthy_str (API_KEY (store w)) = true -> getAiClient w = (Resolved tt, w).
Proof. intros H. unfold getAiClient, bind, get_store. rewrite H. reflexivity. Qed.

Lemma try_catch_resolved {St A} (m : M St A) h w a w' :
  try_catch m h w = (Resolved a, w') ->
  m w = (Resolved a, w') \/ exists e w1, m w = (Rejected e, w1) /\ h e w1 = (Resolved a, w').
Proof.
  unfold try_catch. destruct (m w) as [[a0|e] w1]; intros H; [left; exact H | right; eauto].
Qed.

Section ScenePipeline.
Variable host : Host.
Variables (ar st g : string) (cs all : list Character) (model : string).




(** With a key, an image generation always resolves: with a success, or
    with no image and a populated error. *)
Lemma generateSingleImage_total p ref over w :
  truthy_str (API_KEY (store w)) = true ->
  exists r w',
    generateSingleImage host p ar st g cs all model ref over w = (Resolved r, w') /\
    image_shape r.
Proof.
  intros Hkey. unfold generateSingleImage. unfold bind at 1.
  rewrite (getAiClient_ok w Hkey).
  match goal with |- context [try_catch ?m ?h] => set (inner := m); set (handler := h) end.
  assert (returns image_shape inner) as Hinner.
  { unfold inner. apply returns_bind. intros desc.
    destruct (String.eqb model "gemini-2.5-flash-image" || existsb has_reference_image all).
    - apply returns_bind. intros r.
      destruct (first_inlineData _); apply returns_ret; [left; reflexivity|].
      right. split; reflexivity.
    - apply returns_bind. intros r.
      destruct (generatedImages r) as [[|image ?]|];
        try (apply returns_ret; right; split; reflexivity).
      destruct (truthy_str image); apply returns_ret; [left; reflexivity|].
      right. split; reflexivity. }
  unfold try_catch. destruct (inner w) as [[r|e] w1] eqn:E.
  - exists r, w1. split; [reflexivity|]. exact (Hinner _ _ _ E).
  - exists (mkImageResult None (Some (parseErrorMessage e))), w1. split; [reflexivity|].
    right. split; [reflexivity|]. apply parseErrorMessage_truthy.
Qed.

(** Whatever the callback, a loop that resolves has appended one scene per
    prompt, in order. *)
Lemma images_loop_prompts onp rest : forall i total acc w scenes w',
  generateImagesFromPrompts_loop host rest i total acc ar st g cs all model onp w
  = (Resolved scenes, w') ->
  map prompt scenes = map prompt acc ++ rest.
Proof.
  induction rest as [|p rest IH]; intros i total acc w scenes w' H.
  - cbn in H. injection H as <- _. rewrite app_nil_r. reflexivity.
  - cbn [generateImagesFromPrompts_loop] in H.
    apply bind_resolved in H as (? & w0 & _ & H).
    apply bind_resolved in H as (r & w1 & _ & H).
    apply bind_resolved in H as (? & w2 & _ & H).
    apply IH in H. rewrite H, map_app, <- app_assoc. reflexivity.
Qed.








End ScenePipeline.

(** ** Scene count *)

Lemma generatePromptsFromBase_nonempty host basePrompt sceneCount genre characters w prompts w' :
  generatePromptsFromBase host basePrompt sceneCount genre characters w = (Resolved prompts, w') ->
  prompts <> [].
Proof.
  unfold generatePromptsFromBase. intros H.
  apply bind_resolved in H as (? & w0 & _ & H).
  apply bind_resolved in H as (response & w1 & _ & H).
  apply bind_resolved in H as (jsonStr & w2 & _ & H).
  apply bind_resolved in H as (parsed & w3 & _ & H).
  unfold validate_prompts in H.
  destruct (getProp parsed "prompts") as [[[| | | |[|p ps]|]|]|]; try discriminate.
  injection H as <- _. discriminate.
Qed.

(** C1 fails: asked for three scenes, a breakdown reply with two prompts
    passes the validation and the pipeline returns two scenes. *)
Lemma generateImageSet_count_counterexample :
  fst (generateImageSet sample_host "a robot explores a garden" 3 "16:9" "Anime" "General"
         [] [] "gemini-2.5-flash-image" setLoadingMessage
         (start (steady_backend two_prompts_json "png")))
  = Resolved [scene (JString "one") (Some "png") None; scene (JString "two") (Some "png") None]
  /\ (1 <= 3 <= 10)
  /\ length [scene (JString "one") (Some "png") None; scene (JString "two") (Some "png") None]
     <> 3.
Proof.
  split; [vm_compute; reflexivity|]. split; [lia|]. cbn. lia.
Qed.

(** C1, amended: a pipeline invocation that completes has run the
    breakdown, right after the first progress message, and then the image
    loop on the prompts that this breakdown returned; it returns one scene
    per prompt of that list, in its order; the list is not empty, and
    nothing compares its length with the requested count.  A storyboard
    request that ends idle has added one item whose scenes are those of the
    pipeline it ran, with one fresh idle video state, with no clips, per
    scene. *)
Theorem generateImageSet_scenes host :
  (forall promptText N ar st g cs all model onProgress w scenes w',
      generateImageSet host promptText N ar st g cs all model onProgress w
      = (Resolved scenes, w') ->
      exists w0 prompts w1,
        onProgress "Breaking down the story into scenes..." w = (Resolved tt, w0) /\
        generatePromptsFromBase host promptText N g cs w0 = (Resolved prompts, w1) /\
        generateImagesFromPrompts host prompts ar st g cs all model onProgress w1
        = (Resolved scenes, w') /\
        prompts <> [] /\
        map prompt scenes = prompts /\
        length scenes = length prompts) /\
  (forall now inputs prev w h app w',
      handleGenerateImage host now inputs prev w = (Resolved (h, app), w') ->
      app_status app = idle ->
      exists item,
        h = item :: prev /\
        generateImageSet host (promptText inputs) (imageCount inputs) (aspectRatio inputs)
          (imageStyle inputs) (genre inputs)
          (List.filter
             (fun c => negb (String.eqb (name c) "") && truthy_str (description c))
             (characters inputs))
          (characters inputs) (imageModel inputs) setLoadingMessage
          (said "Initializing..." w)
        = (Resolved (imageSet item), w') /\
        videoStates item = replicate (length (imageSet item)) getInitialVideoState /\
        length (videoStates item) = length (imageSet item) /\
        status getInitialVideoState = idle /\
        clips getInitialVideoState = []).
Proof.
  split.
  - intros promptText N ar st g cs all model onProgress w scenes w' E.
    unfold generateImageSet in E. apply try_catch_resolved in E as [E | (e & w1 & _ & E)].
    + apply bind_resolved in E as ([] & w0 & H0 & E).
      apply bind_resolved in E as (prompts & w1 & Hp & E).
      exists w0, prompts, w1. split; [exact H0|]. split; [exact Hp|]. split; [exact E|].
      split; [exact (generatePromptsFromBase_nonempty _ _ _ _ _ _ _ _ Hp)|].
      apply images_loop_prompts in E. cbn in E.
      split; [exact E|]. rewrite <- E. symmetry. apply length_map.
    + destruct e; discriminate.
  - intros now inputs prev w h app w' H Hidle. unfold handleGenerateImage in H.
    destruct (String.eqb (promptText inputs) "").
    { cbn in H. injection H as <- <- _. discriminate. }
    unfold bind at 1 in H. cbn [setLoadingMessage emit] in H.
    fold (said "Initializing..." w) in H.
    unfold try_catch, bind in H.
    match type of H with context [generateImageSet ?a ?b ?c ?d ?e ?f ?g ?h ?i ?j ?k] =>
      destruct (generateImageSet a b c d e f g h i j k) as [[storyboard|e0] w1] eqn:E end.
    + cbn in H. injection H as <- <- <-. eexists. split; [reflexivity|].
      cbn [imageSet videoStates]. split; [reflexivity|].
      split; [apply initial_states|]. split; [|split; reflexivity].
      rewrite length_map, length_replicate. reflexivity.
    + cbn in H. injection H as <- <- _. discriminate.
Qed.

Lemma generateImageSet_scenes_witness :
  (exists w0 prompts w1,
      setLoadingMessage "Breaking down the story into scenes..."
        (start (steady_backend two_prompts_json "png")) = (Resolved tt, w0) /\
      generatePromptsFromBase sample_host "a robot explores a garden" 3 "General" [] w0
      = (Resolved prompts, w1) /\
      generateImagesFromPrompts sample_host prompts "16:9" "Anime" "General" [] []
        "gemini-2.5-flash-image" setLoadingMessage w1
      = (Resolved [scene (JString "one") (Some "png") None;
                   scene (JString "two") (Some "png") None],
         snd (generateImageSet sample_host "a robot explores a garden" 3 "16:9" "Anime"
                "General" [] [] "gemini-2.5-flash-image" setLoadingMessage
                (start (steady_backend two_prompts_json "png")))) /\
      prompts <> [] /\
      map prompt [scene (JString "one") (Some "png") None; scene (JString "two") (Some "png") None]
      = prompts /\
      length [scene (JString "one") (Some "png") None; scene (JString "two") (Some "png") None]
      = length prompts) /\
  (exists item,
      [mkGenerationItem 7 "a robot explores a garden"
         [scene (JString "one") (Some "png") None; scene (JString "two") (Some "png") None]
         [getInitialVideoState; getInitialVideoState]
         "16:9" "Anime" "General" [] "gemini-2.5-flash-image"]
      = item :: [] /\
      generateImageSet sample_host "a robot explores a garden" 3 "16:9" "Anime" "General"
        (List.filter
           (fun c => negb (String.eqb (name c) "") && truthy_str (description c)) [])
        [] "gemini-2.5-flash-image" setLoadingMessage
        (said "Initializing..." (start (steady_backend two_prompts_json "png")))
      = (Resolved (imageSet item),
         snd (handleGenerateImage sample_host 7
                (mkInputs "a robot explores a garden" 3 "16:9" "Anime" "gemini-2.5-flash-image"
                   "General" [])
                [] (start (steady_backend two_prompts_json "png")))) /\
      videoStates item = replicate (length (imageSet item)) getInitialVideoState /\
      length (videoStates item) = length (imageSet item) /\
      status getInitialVideoState = idle /\
      clips getInitialVideoState = []).
Proof.
  split.
  - apply (proj1 (generateImageSet_scenes sample_host)
             "a robot explores a garden" 3 "16:9" "Anime" "General" [] []
             "gemini-2.5-flash-image" setLoadingMessage
             (start (steady_backend two_prompts_json "png"))).
    vm_compute. reflexivity.
  - apply (proj2 (generateImageSet_scenes sample_host) 7
             (mkInputs "a robot explores a garden" 3 "16:9" "Anime" "gemini-2.5-flash-image"
                "General" [])
             [] (start (steady_backend two_prompts_json "png")) _ (mkAppStatus idle None)).
    + vm_compute. reflexivity.
    + reflexivity.
Defined.

(** On a backend that refuses the first image request, the first scene has
    no image and the content-policy text, and the second scene is
    generated as if nothing had happened. *)
Example refused_image_is_local :
  fst (generateImagesFromPrompts sample_host [JString "one"; JString "two"] "16:9" "Anime"
         "General" [] [] "gemini-2.5-flash-image" setLoadingMessage
         (start (refusing_backend "png")))
  = Resolved [scene (JString "one") None (Some (JString msg_content_policy));
              scene (JString "two") (Some "png") None].
Proof. vm_compute. reflexivity. Qed.


(** ** Video with a failed audio branch *)

(** C10: when the audio branch fails (the speech synthesis rejects, or the
    audio data does not decode) and the video job succeeds, the call
    resolves with the video and with null audio URL and null audio data. *)
Theorem generateVideoFromScene_audio_failure
  host fuel sc ar script cs options st vm vr cam w :
  truthy_str (API_KEY (store w)) = true ->
  truthy_str (src sc) = true ->
  (forall e w1 url obj w2,
      audio_try host options cs st (said "Generating voiceover..." w) = (Rejected e, w1) ->
      videoJob host fuel setLoadingMessage
        (said "Starting video generation..."
           (said "Audio generation failed. Continuing without audio." w1))
      = (Resolved (Some (url, obj)), w2) ->
      generateVideoFromScene host fuel sc ar script cs (Some options) st vm vr cam
        setLoadingMessage w
      = (Resolved (Some (mkVideoClip (Some url) None (Some obj) None)), w2)) /\
  (forall data e w0 w1,
      options = AudioTts data ->
      String.eqb data "" = false ->
      generateSpeech host data cs st w0 = (Rejected e, w1) ->
      audio_try host options cs st w0 = (Rejected e, w1)) /\
  (forall data mimeType assignment w0,
      options = AudioUpload data mimeType assignment ->
      String.eqb data "" = false ->
      atob_valid data = false ->
      audio_try host options cs st w0 = (Rejected (JsThrown "InvalidCharacterError"), w0)).
Proof.
  intros Hkey Hsrc. split; [|split].
  - intros e w1 url obj w2 Haudio Hjob.
    unfold generateVideoFromScene, bind at 1. rewrite (getAiClient_ok w Hkey), Hsrc.
    cbn [negb]. unfold bind at 1. unfold audioDataPromise, bind at 1.
    cbn [setLoadingMessage emit]. fold (said "Generating voiceover..." w).
    unfold bind at 1, try_catch. rewrite Haudio. unfold bind at 1.
    cbn [setLoadingMessage emit ret]. unfold bind at 1. cbn [setLoadingMessage emit].
    fold (said "Audio generation failed. Continuing without audio." w1).
    fold (said "Starting video generation..."
            (said "Audio generation failed. Continuing without audio." w1)).
    unfold bind. rewrite Hjob. reflexivity.
  - intros data e w0 w1 -> Hdata Hspeech. unfold audio_try, bind.
    rewrite Hdata. cbn [negb]. rewrite Hspeech. reflexivity.
  - intros data mimeType assignment w0 -> Hdata Hbad. unfold audio_try, bind, ret.
    cbn [truthy_str default]. rewrite Hdata. cbn [negb]. unfold base64ToBytes, Datatypes.id.
    rewrite Hbad. reflexivity.
Qed.

Lemma generateVideoFromScene_audio_failure_witness :
  fst (generateVideoFromScene sample_host 5 (node "a" None) "16:9" "" []
         (Some (AudioUpload "@@@" "audio/mp3" None)) "Anime" "veo" "720p" "Static Hold"
         setLoadingMessage (start (steady_backend two_prompts_json "png")))
  = Resolved (Some (mkVideoClip (Some "blob:0") None
                      (Some (mkVideoObject (Some "https://video/1"))) None)) /\
  audio_try sample_host (AudioUpload "@@@" "audio/mp3" None) [] "Anime"
    (start (steady_backend two_prompts_json "png"))
  = (Rejected (JsThrown "InvalidCharacterError"), start (steady_backend two_prompts_json "png")).
Proof.
  pose proof (generateVideoFromScene_audio_failure sample_host 5 (node "a" None) "16:9" "" []
                (AudioUpload "@@@" "audio/mp3" None) "Anime" "veo" "720p" "Static Hold"
                (start (steady_backend two_prompts_json "png")) eq_refl eq_refl)
    as (Hrun & _ & Hdecode).
  split.
  - erewrite Hrun; [reflexivity | vm_compute; reflexivity | vm_compute; reflexivity].
  - apply (Hdecode "@@@" "audio/mp3" None); reflexivity.
Defined.

(** ** What keeps the tree shape *)

Lemma reindex_root removed (imap : gmap nat nat) s :
  isCameraAngleFor s = None -> reindex removed imap s = s.
Proof. intros H. unfold reindex. rewrite H. reflexivity. Qed.

(** What a deletion removes in a well-formed sequence contains the scene
    that was asked for, and never the parent of a scene that stays. *)
Lemma deletion_keeps_parents l sceneIndex sc :
  well_formed l ->
  l !! sceneIndex = Some sc ->
  sceneIndex ∈ cascade l (snd (deletion_request l sceneIndex sc)) /\
  (forall i s p,
      l !! i = Some s -> i ∉ cascade l (snd (deletion_request l sceneIndex sc)) ->
      isCameraAngleFor s = Some p ->
      p ∉ cascade l (snd (deletion_request l sceneIndex sc))).
Proof.
  intros Hwf Hsc.
  assert (forall r rootScene,
             l !! r = Some rootScene -> isCameraAngleFor rootScene = None ->
             forall i s p, l !! i = Some s -> i ∉ removed_block l r ->
                           isCameraAngleFor s = Some p -> p ∉ removed_block l r) as Hblock.
  { intros r rootScene Hr Hnone i s q Hi Hout Hq Hin.
    apply elem_of_removed_block in Hin as [-> | (x & Hx & Hxq)].
    - apply Hout. apply elem_of_removed_block. right. eauto.
    - destruct (Hwf i s q Hi Hq) as (y & Hy & Hyn). congruence. }
  destruct (isCameraAngleFor sc) as [q|] eqn:Hq.
  - destruct (Hwf sceneIndex sc q Hsc Hq) as (root & Hroot & Hnone).
    destruct (Nat.eqb_spec (length (List.filter (is_angle_of q) l)) 1) as [Hone|Hmany].
    + rewrite (deletion_targets l sceneIndex sc q root Hsc Hroot Hnone (or_intror (conj Hq Hone))).
      split; [apply elem_of_removed_block; right; eauto|].
      exact (Hblock q root Hroot Hnone).
    + assert (cascade l (snd (deletion_request l sceneIndex sc)) = {[sceneIndex]}) as ->.
      { unfold deletion_request. rewrite Hq.
        destruct (Nat.eqb_spec (length (List.filter (is_angle_of q) l)) 1); [contradiction|].
        cbn [snd]. unfold cascade, root_or_missing. cbn [fold_left]. rewrite Hsc, Hq.
        apply list_to_set_singleton_L. }
      split; [apply elem_of_singleton; reflexivity|].
      intros i s p Hi _ Hp Hin. apply elem_of_singleton in Hin as ->.
      destruct (Hwf i s sceneIndex Hi Hp) as (y & Hy & Hyn). congruence.
  - rewrite (deletion_targets l sceneIndex sc sceneIndex sc Hsc Hsc Hq (or_introl eq_refl)).
    split; [apply elem_of_removed_block; left; reflexivity|].
    exact (Hblock sceneIndex sc Hsc Hq).
Qed.

(** A deletion keeps the tree shape, and keeps every family together: the
    scenes that stay are the scenes outside the removed set, in their
    order; the parent of a scene that stays stays too; the scene is found
    at its new index with its parent reference set to the new index of that
    parent, and at that index there is the same root as before. *)
Theorem deleteScene_well_formed confirm sceneIndex item item' :
  length (videoStates item) = length (imageSet item) ->
  well_formed (imageSet item) ->
  deleteScene confirm sceneIndex item = Some (Deleted item') ->
  exists removed : gset nat,
    sceneIndex ∈ removed /\
    imageSet item' = moved removed <$> keep_from removed 0 (imageSet item) /\
    (forall i s p,
        imageSet item !! i = Some s -> i ∉ removed -> isCameraAngleFor s = Some p ->
        exists root,
          (p ∉ removed) /\
          imageSet item !! p = Some root /\ isCameraAngleFor root = None /\
          imageSet item' !! new_index removed i
          = Some (set_parent s (Some (new_index removed p))) /\
          imageSet item' !! new_index removed p = Some root) /\
    well_formed (imageSet item').
Proof.
  intros Hal Hwf Hdel. unfold deleteScene in Hdel.
  destruct (imageSet item !! sceneIndex) as [sc|] eqn:Hsc; [|discriminate].
  destruct (deletion_keeps_parents (imageSet item) sceneIndex sc Hwf Hsc) as (Hin & Hpar).
  destruct (deletion_request (imageSet item) sceneIndex sc) as [msg initial].
  cbn [snd] in Hin, Hpar.
  destruct (negb (confirm msg)); [discriminate|].
  set (removed := cascade (imageSet item) initial) in *.
  destruct (removal_spec (imageSet item) (videoStates item) removed Hal)
    as (c & Hc & H1 & _ & _ & Hnew & Hmap).
  rewrite Hc in Hdel. injection Hdel as <-. cbn [imageSet with_scenes].
  assert (forall i s, imageSet item !! i = Some s -> i ∉ removed ->
                      reindex removed (indexMap c) s = moved removed s) as Hmoved.
  { intros i s Hi Hout. unfold reindex, moved.
    destruct (isCameraAngleFor s) as [p|] eqn:Hp;
      [|destruct s; cbn in Hp |- *; subst; reflexivity].
    destruct (Hwf i s p Hi Hp) as (root & Hroot & _).
    rewrite bool_decide_eq_false_2 by exact (Hpar i s p Hi Hout Hp).
    rewrite Hmap, bool_decide_eq_true_2
      by (split; [apply lookup_lt_Some in Hroot; exact Hroot | exact (Hpar i s p Hi Hout Hp)]).
    reflexivity. }
  assert (map (reindex removed (indexMap c)) (newImageSet c)
          = moved removed <$> keep_from removed 0 (imageSet item)) as Hlist.
  { rewrite H1. apply list_fmap_ext. intros j s Hj.
    apply keep_from_lookup_inv in Hj as (i & Hi & Hout & _). exact (Hmoved i s Hi Hout). }
  exists removed. split; [exact Hin|]. split; [exact Hlist|].
  assert (forall i s p,
             imageSet item !! i = Some s -> i ∉ removed -> isCameraAngleFor s = Some p ->
             exists root,
               (p ∉ removed) /\
               imageSet item !! p = Some root /\ isCameraAngleFor root = None /\
               map (reindex removed (indexMap c)) (newImageSet c) !! new_index removed i
               = Some (set_parent s (Some (new_index removed p))) /\
               map (reindex removed (indexMap c)) (newImageSet c) !! new_index removed p
               = Some root) as Hfamily.
  { intros i s p Hi Hout Hp.
    destruct (Hwf i s p Hi Hp) as (root & Hroot & Hnone).
    pose proof (Hpar i s p Hi Hout Hp) as Hpout.
    exists root. split; [exact Hpout|]. split; [exact Hroot|]. split; [exact Hnone|]. split.
    - rewrite (Hnew i s Hi Hout), (Hmoved i s Hi Hout). unfold moved. rewrite Hp. reflexivity.
    - rewrite (Hnew p root Hroot Hpout), reindex_root by exact Hnone. reflexivity. }
  split; [exact Hfamily|].
  intros k x q Hk Hq. rewrite Hlist in Hk. rewrite list_lookup_fmap in Hk.
  destruct (keep_from removed 0 (imageSet item) !! k) as [s|] eqn:Hs; [|discriminate].
  injection Hk as <-.
  apply keep_from_lookup_inv in Hs as (i & Hi & Hout & ->).
  unfold moved in Hq. cbn [isCameraAngleFor set_parent] in Hq.
  destruct (isCameraAngleFor s) as [p|] eqn:Hp; [|discriminate].
  injection Hq as <-.
  destruct (Hfamily i s p Hi Hout Hp) as (root & _ & _ & Hnone & _ & Hroot').
  exists root. split; [exact Hroot' | exact Hnone].
Qed.

Lemma deleteScene_well_formed_witness :
  exists item',
    deleteScene (fun _ => true) 5 (item_of eleven_scenes eleven_videos) = Some (Deleted item') /\
    exists removed : gset nat,
      5 ∈ removed /\
      imageSet item' = moved removed <$> keep_from removed 0 eleven_scenes /\
      (forall i s p,
          eleven_scenes !! i = Some s -> i ∉ removed -> isCameraAngleFor s = Some p ->
          exists root,
            (p ∉ removed) /\
            eleven_scenes !! p = Some root /\ isCameraAngleFor root = None /\
            imageSet item' !! new_index removed i
            = Some (set_parent s (Some (new_index removed p))) /\
            imageSet item' !! new_index removed p = Some root) /\
      well_formed (imageSet item').
Proof.
  eexists. split; [vm_compute; reflexivity|].
  apply (deleteScene_well_formed (fun _ => true) 5 (item_of eleven_scenes eleven_videos)).
  - reflexivity.
  - apply well_formedb_correct. vm_compute. reflexivity.
  - vm_compute. reflexivity.
Defined.

(** A camera-angle insertion on a root keeps the tree shape. *)
Theorem insertAngles_well_formed r new item s item' :
  well_formed (imageSet item) ->
  imageSet item !! r = Some s ->
  isCameraAngleFor s = None ->
  insertAngles r new item = Some item' ->
  well_formed (imageSet item').
Proof.
  intros Hwf Hr Hroot Hins.
  destruct (insertAngles_lookups r new item s Hr) as (it & Hit & Hlen & Hnew & Hold & Hat).
  rewrite Hit in Hins. injection Hins as <-.
  assert (r < length (imageSet item)) as Hlt by (apply lookup_lt_Some in Hr; exact Hr).
  assert (exists root, imageSet it !! r = Some root /\ isCameraAngleFor root = None) as Hrr.
  { eexists. split; [exact Hat|]. cbn [settle_angles isCameraAngleFor].
    rewrite shift_parent_spec, Hroot. reflexivity. }
  assert (forall i x q, imageSet item !! i = Some x -> i <> r ->
            isCameraAngleFor (shift_parent r (length new) x) = Some q ->
            exists root, imageSet it !! q = Some root /\ isCameraAngleFor root = None) as Hshift.
  { intros i x q Hi Hne Hq. rewrite shift_parent_spec in Hq.
    destruct (isCameraAngleFor x) as [p|] eqn:Hp; [|discriminate].
    cbn [fmap option_fmap option_map] in Hq. injection Hq as <-. destruct (Hwf i x p Hi Hp) as (root & Hp' & Hnone).
    destruct (decide (p = r)) as [->|Hpr].
    - rewrite Nat.ltb_irrefl. exact Hrr.
    - exists (shift_parent r (length new) root).
      split; [|rewrite shift_parent_spec, Hnone; reflexivity].
      rewrite <- (Hold p root Hp' Hpr).
      destruct (Nat.ltb_spec r p), (Nat.leb_spec p r); try lia; reflexivity. }
  intros k x q Hk Hq.
  assert (k < length (imageSet item) + length new) as Hk'
    by (rewrite <- Hlen; apply lookup_lt_Some in Hk; exact Hk).
  destruct (decide (k = r)) as [->|Hkr].
  { rewrite Hat in Hk. injection Hk as <-. cbn [settle_angles isCameraAngleFor] in Hq.
    rewrite shift_parent_spec, Hroot in Hq. discriminate. }
  destruct (decide (k < r)) as [Hlow|Hhigh].
  { assert (is_Some (imageSet item !! k)) as [x0 Hx0] by (apply lookup_lt_is_Some_2; lia).
    pose proof (Hold k x0 Hx0 Hkr) as Hx.
    replace (k <=? r)%nat with true in Hx by (symmetry; apply Nat.leb_le; lia).
    rewrite Hk in Hx. injection Hx as ->. exact (Hshift k x0 q Hx0 Hkr Hq). }
  destruct (decide (k <= r + length new)) as [Hmid|Hpast].
  { assert (is_Some (new !! (k - r - 1))) as [n Hn] by (apply lookup_lt_is_Some_2; lia).
    pose proof (Hnew _ n Hn) as Hx. replace (r + 1 + (k - r - 1)) with k in Hx by lia.
    rewrite Hk in Hx. injection Hx as ->. cbn [set_parent isCameraAngleFor] in Hq.
    injection Hq as <-. exact Hrr. }
  assert (is_Some (imageSet item !! (k - length new))) as [x0 Hx0]
    by (apply lookup_lt_is_Some_2; lia).
  assert (k - length new <> r) as Hne by lia.
  pose proof (Hold _ x0 Hx0 Hne) as Hx.
  replace (k - length new <=? r)%nat with false in Hx by (symmetry; apply Nat.leb_gt; lia).
  replace (k - length new + length new) with k in Hx by lia.
  rewrite Hk in Hx. injection Hx as ->. exact (Hshift _ x0 q Hx0 Hne Hq).
Qed.

Lemma insertAngles_well_formed_witness :
  exists item',
    insertAngles 1 [node "n1" None] (item_of five_scenes five_videos) = Some item' /\
    well_formed (imageSet item').
Proof.
  eexists. split; [vm_compute; reflexivity|].
  apply (insertAngles_well_formed 1 [node "n1" None] (item_of five_scenes five_videos)
           (node "b" None)).
  - apply well_formedb_correct. vm_compute. reflexivity.
  - reflexivity.
  - reflexivity.
  - vm_compute. reflexivity.
Defined.

(** ** The whole pipeline *)





(* ===================================================================== *)
(** * Part II, continued — the rest of the application *)
(* ===================================================================== *)

(** ** Invariants of a computation *)

Section Preserves.
Variable R : world Backend -> world Backend -> Prop.
Hypothesis R_refl : forall w, R w w.
Hypothesis R_trans : forall a b c, R a b -> R b c -> R a c.

Lemma preserves_ret {A} (a : A) : preserves R (ret a).
Proof. intros w r w' [= _ <-]. apply R_refl. Qed.

Lemma preserves_throw {A} e : preserves R (throw e : M Backend A).
Proof. intros w r w' [= _ <-]. apply R_refl. Qed.

Lemma preserves_bind {A B} (m : M Backend A) (k : A -> M Backend B) :
  preserves R m -> (forall a, preserves R (k a)) -> preserves R (bind m k).
Proof.
  intros Hm Hk w r w' H. unfold bind in H.
  destruct (m w) as [[a|e] w1] eqn:Em.
  - eapply R_trans; [exact (Hm _ _ _ Em) | exact (Hk a _ _ _ H)].
  - injection H as _ <-. exact (Hm _ _ _ Em).
Qed.

Lemma preserves_try_catch {A} (m : M Backend A) h :
  preserves R m -> (forall e, preserves R (h e)) -> preserves R (try_catch m h).
Proof.
  intros Hm Hh w r w' H. unfold try_catch in H.
  destruct (m w) as [[a|e] w1] eqn:Em.
  - injection H as _ <-. exact (Hm _ _ _ Em).
  - eapply R_trans; [exact (Hm _ _ _ Em) | exact (Hh e _ _ _ H)].
Qed.

Lemma preserves_getAiClient : preserves R getAiClient.
Proof.
  unfold getAiClient. apply preserves_bind.
  - intros w r w' [= _ <-]. apply R_refl.
  - intros b. destruct (truthy_str (API_KEY b)); [apply preserves_ret | apply preserves_throw].
Qed.

Lemma preserves_withRetry_loop {A} (apiCall : M Backend A) cb remaining :
  preserves R apiCall ->
  (forall attempt, preserves R (match cb with
                                | Some callback => callback (retryMsg (S attempt))
                                | None => console_log (retryMsg (S attempt))
                                end)) ->
  (forall attempt, preserves R (delay (delaySeconds (S attempt) * 1000))) ->
  forall attempt, preserves R (withRetry_loop apiCall cb remaining attempt).
Proof.
  intros Hc Hn Hd. induction remaining as [|n IH]; intros attempt; cbn [withRetry_loop].
  - apply preserves_throw.
  - apply preserves_try_catch; [exact Hc|]. intros e.
    destruct (isRetryable (errorMessageOf e) && (S attempt <? maxRetries)%nat);
      [|apply preserves_throw].
    apply preserves_bind; [apply Hn|]. intros _.
    apply preserves_bind; [apply Hd|]. intros _. apply IH.
Qed.

End Preserves.

Lemma same_calls_refl ep w : same_calls ep w w.
Proof. reflexivity. Qed.

Lemma same_calls_trans ep a b c : same_calls ep a b -> same_calls ep b c -> same_calls ep a c.
Proof. unfold same_calls. congruence. Qed.

Lemma same_calls_emit ep e : preserves (same_calls ep) (emit e).
Proof. intros w r w' [= _ <-]. reflexivity. Qed.

Lemma same_calls_request {A} ep ep' (replies : Backend -> nat -> outcome A) :
  endpoint_eqb ep ep' = false -> preserves (same_calls ep) (request ep' replies).
Proof.
  intros Hne w r w' [= _ <-]. unfold same_calls, answered. cbn [store served].
  rewrite Hne. reflexivity.
Qed.

Lemma same_calls_withRetry {A} ep ep' (replies : Backend -> nat -> outcome A) :
  endpoint_eqb ep ep' = false ->
  preserves (same_calls ep) (withRetry (request ep' replies) None).
Proof.
  intros Hne. apply preserves_withRetry_loop.
  - apply same_calls_refl.
  - apply same_calls_trans.
  - apply same_calls_request. exact Hne.
  - intros attempt. apply same_calls_emit.
  - intros attempt. apply same_calls_emit.
Qed.

Ltac calls_tac :=
  repeat first
    [ apply preserves_ret; apply same_calls_refl
    | apply preserves_throw; apply same_calls_refl
    | apply same_calls_emit
    | apply preserves_getAiClient; [apply same_calls_refl | apply same_calls_trans]
    | apply same_calls_withRetry; reflexivity
    | apply preserves_bind; [apply same_calls_trans | | intros ?]
    | apply preserves_try_catch; [apply same_calls_trans | | intros ?] ].

Lemma adds_no_refl P w : adds_no P w w.
Proof. exists []. rewrite app_nil_r. done. Qed.

Lemma adds_no_trans P a b c : adds_no P a b -> adds_no P b c -> adds_no P a c.
Proof.
  intros (n1 & J1 & F1) (n2 & J2 & F2). exists (n1 ++ n2).
  rewrite J2, J1, <- app_assoc. split; [done|]. rewrite List.filter_app, F1, F2. done.
Qed.

Lemma adds_no_emit P e : P e = false -> preserves (adds_no P) (emit e).
Proof.
  intros He w r w' [= _ <-]. exists [e]. split; [done|]. cbn. rewrite He. done.
Qed.

Lemma adds_no_request {A} P ep (replies : Backend -> nat -> outcome A) :
  P (EvRemote ep) = false -> preserves (adds_no P) (request ep replies).
Proof.
  intros He w r w' [= _ <-]. exists [EvRemote ep]. split; [done|]. cbn. rewrite He. done.
Qed.

Lemma returns_try_catch {A} (P : A -> Prop) (m : M Backend A) h :
  returns P m -> (forall e, returns P (h e)) -> returns P (try_catch m h).
Proof.
  intros Hm Hh w a w' H. unfold try_catch in H.
  destruct (m w) as [[a0|e] w1] eqn:E.
  - injection H as <- <-. exact (Hm _ _ _ E).
  - exact (Hh e _ _ _ H).
Qed.

Lemma getAiClient_missing w :
  truthy_str (API_KEY (store w)) = false ->
  getAiClient w = (Rejected (JsErr "API_KEY environment variable not set"), w).
Proof. intros H. unfold getAiClient, bind, get_store. rewrite H. reflexivity. Qed.

(** ** Image calls *)

Lemma editImage_shape p ar st g cs : returns image_shape (editImage p ar st g cs).
Proof.
  unfold editImage. apply returns_bind. intros _. apply returns_try_catch.
  - apply returns_bind. intros r. destruct (first_inlineData _); apply returns_ret.
    + left. reflexivity.
    + right. split; reflexivity.
  - intros e. apply returns_ret. right. split; [reflexivity|]. apply parseErrorMessage_truthy.
Qed.

Section ImageCalls.
Variable host : Host.

(** Image generation and image editing never reject once the key is
    there: every failure of the request, of the reference description or
    of the reply becomes a result without image and with an error text;
    without the key both reject before any request. *)
Theorem image_calls_settle p ar st g cs all model ref over w :
  if truthy_str (API_KEY (store w)) then
    (exists r w', generateSingleImage host p ar st g cs all model ref over w = (Resolved r, w')
                  /\ image_shape r) /\
    (exists r w', editImage p ar st g cs w = (Resolved r, w') /\ image_shape r)
  else
    generateSingleImage host p ar st g cs all model ref over w
    = (Rejected (JsErr "API_KEY environment variable not set"), w) /\
    editImage p ar st g cs w = (Rejected (JsErr "API_KEY environment variable not set"), w).
Proof.
  destruct (truthy_str (API_KEY (store w))) eqn:Hkey.
  - split; [exact (generateSingleImage_total host ar st g cs all model p ref over w Hkey)|].
    pose proof (editImage_shape p ar st g cs) as Hshape.
    unfold editImage in *. unfold bind at 1. unfold bind at 1 in Hshape.
    rewrite (getAiClient_ok w Hkey).
    match goal with |- context [try_catch ?m ?h] => set (body := try_catch m h) in * end.
    destruct (body w) as [[r|e] w1] eqn:E.
    + exists r, w1. split; [reflexivity|]. apply (Hshape w r w1).
      rewrite (getAiClient_ok w Hkey). exact E.
    + exfalso. unfold body, try_catch in E.
      match type of E with context [match ?x with _ => _ end] => destruct x as [[?|?] ?] end;
        discriminate.
  - split.
    + unfold generateSingleImage, bind at 1. rewrite (getAiClient_missing w Hkey). reflexivity.
    + unfold editImage, bind at 1. rewrite (getAiClient_missing w Hkey). reflexivity.
Qed.

(** ** Camera angles *)

Lemma angles_loop_shape rest : forall i total acc cp ar st g cs onp w scenes w',
  Forall scene_shape acc ->
  generateCameraAngles_loop host rest i total acc cp ar st g cs onp w = (Resolved scenes, w') ->
  Forall scene_shape scenes.
Proof.
  induction rest as [|angle rest IH]; intros i total acc cp ar st g cs onp w scenes w' Hacc H;
    cbn [generateCameraAngles_loop] in H.
  - injection H as <- _. exact Hacc.
  - apply bind_resolved in H as (p & w0 & _ & H).
    destruct (negb (truthy_opt p)).
    + apply IH in H; [exact H|]. apply Forall_app. split; [exact Hacc|].
      constructor; [|constructor]. right. split; reflexivity.
    + apply bind_resolved in H as (? & w1 & _ & H).
      apply bind_resolved in H as (r & w2 & Hr & H).
      apply bind_resolved in H as (? & w3 & _ & H).
      apply IH in H; [exact H|]. apply Forall_app. split; [exact Hacc|].
      constructor; [|constructor]. exact (editImage_shape _ _ _ _ _ _ _ _ Hr).
Qed.

(** The camera-angle pipeline, when it completes, has produced one scene
    per requested angle; each is a success or has no image and an error
    text; and it only completes from a scene that has an image. *)
Theorem camera_angles_one_per_name sc ar st g cs model angleNames onp w scenes w' :
  generateCameraAnglesFromImage host sc ar st g cs model angleNames onp w
  = (Resolved scenes, w') ->
  length scenes = length angleNames /\
  Forall scene_shape scenes /\
  truthy_str (src sc) = true.
Proof.
  intros H. split; [exact (angles_pipeline_length _ _ _ _ _ _ _ _ _ _ _ _ H)|].
  unfold generateCameraAnglesFromImage in H.
  destruct (truthy_str (src sc)); [|discriminate]. cbn [negb] in H.
  split; [|reflexivity].
  apply bind_resolved in H as (? & w0 & _ & H).
  apply bind_resolved in H as (ext & w1 & _ & H).
  destruct (truthy_opt (result_error ext) || negb (truthy_str (result_src ext)));
    [discriminate|].
  apply bind_resolved in H as (? & w2 & _ & H).
  apply bind_resolved in H as (plan0 & w3 & _ & H).
  apply bind_resolved in H as (cp & w4 & _ & H).
  exact (angles_loop_shape _ _ _ _ _ _ _ _ _ _ _ _ _ (List.Forall_nil _) H).
Qed.

Lemma editImage_no_text p ar st g cs : preserves (same_calls EpText) (editImage p ar st g cs).
Proof.
  unfold editImage. calls_tac.
  destruct (first_inlineData _); calls_tac.
Qed.

Lemma lookup_prompt_no_text cp angle : preserves (same_calls EpText) (lookup_prompt host cp angle).
Proof.
  unfold lookup_prompt.
  destruct (front_view_prompt cp); [destruct (String.eqb _ _)|];
    try destruct (getProp _ _); calls_tac.
Qed.

Lemma angles_loop_no_text rest : forall i total acc cp ar st g cs onp,
  (forall msg, preserves (same_calls EpText) (onp msg)) ->
  preserves (same_calls EpText) (generateCameraAngles_loop host rest i total acc cp ar st g cs onp).
Proof.
  induction rest as [|angle rest IH]; intros i total acc cp ar st g cs onp Honp;
    cbn [generateCameraAngles_loop].
  - calls_tac.
  - apply preserves_bind; [apply same_calls_trans | apply lookup_prompt_no_text |].
    intros p. destruct (negb (truthy_opt p)); [apply IH; exact Honp|].
    apply preserves_bind; [apply same_calls_trans | apply Honp |]. intros _.
    apply preserves_bind; [apply same_calls_trans | apply editImage_no_text |]. intros r.
    apply preserves_bind; [apply same_calls_trans | | intros _; apply IH; exact Honp].
    destruct (i <? total - 1)%nat; [|calls_tac].
    apply preserves_bind; [apply same_calls_trans | apply Honp |]. intros _. calls_tac.
Qed.

(** When only the front view is asked for, the camera-angle pipeline
    never calls the text model: the placement analysis is skipped, whatever
    the image requests do. *)
Theorem front_only_no_analysis sc ar st g cs model angleNames onp w :
  (forall msg, preserves (same_calls EpText) (onp msg)) ->
  Forall (fun name => name = "front") angleNames ->
  served (store (snd (generateCameraAnglesFromImage host sc ar st g cs model angleNames onp w)))
    EpText
  = served (store w) EpText.
Proof.
  intros Honp Hfront.
  assert (List.filter (fun name => negb (String.eqb name "front")) angleNames = []) as Hnone.
  { induction Hfront as [|x l -> _ IH]; [reflexivity|]. cbn. exact IH. }
  assert (preserves (same_calls EpText)
            (generateCameraAnglesFromImage host sc ar st g cs model angleNames onp)) as H.
  { unfold generateCameraAnglesFromImage. rewrite Hnone.
    destruct (negb (truthy_str (src sc))); [calls_tac|].
    apply preserves_bind; [apply same_calls_trans | apply Honp |]. intros _.
    apply preserves_bind; [apply same_calls_trans | apply editImage_no_text |]. intros ext.
    destruct (truthy_opt (result_error ext) || negb (truthy_str (result_src ext))); [calls_tac|].
    apply preserves_bind; [apply same_calls_trans | apply Honp |]. intros _.
    apply preserves_bind; [apply same_calls_trans | calls_tac |]. intros plan0.
    apply preserves_bind; [apply same_calls_trans | |].
    - destruct (existsb _ _); [|calls_tac]. unfold assign_front. cbn [plan].
      destruct plan0; calls_tac.
    - intros cp. apply angles_loop_no_text. exact Honp. }
  destruct (generateCameraAnglesFromImage host sc ar st g cs model angleNames onp w)
    as [r w'] eqn:E. exact (H _ _ _ E).
Qed.

End ImageCalls.

Lemma camera_angles_one_per_name_witness :
  length [scene (JString front_instruction) (Some "png") None] = length ["front"] /\
  Forall scene_shape [scene (JString front_instruction) (Some "png") None] /\
  truthy_str (src (node "a" None)) = true.
Proof.
  eapply (camera_angles_one_per_name sample_host (node "a" None) "16:9" "Anime" "General" []
            "gemini-2.5-flash-image" ["front"] noProgress
            (start (steady_backend two_prompts_json "png"))).
  vm_compute. reflexivity.
Defined.

Lemma front_only_no_analysis_witness :
  served (store (snd (generateCameraAnglesFromImage sample_host (node "a" None) "16:9" "Anime"
                        "General" [] "gemini-2.5-flash-image" ["front"; "front"] noProgress
                        (start (steady_backend two_prompts_json "png")))))
    EpText
  = served (store (start (steady_backend two_prompts_json "png"))) EpText.
Proof.
  apply (front_only_no_analysis sample_host).
  - intros msg w r w' [= _ <-]. reflexivity.
  - repeat constructor.
Defined.

(** ** Video *)

Lemma retry_delay_not_poll attempt : ((delaySeconds (S attempt) * 1000 =? 10000) = false)%N.
Proof.
  apply N.eqb_neq. unfold delaySeconds.
  rewrite Nat2N.inj_succ, N.pow_succ_r'.
  assert (2 ^ N.of_nat attempt <> 0)%N by (apply N.pow_nonzero; lia). nia.
Qed.

Lemma poll_request_quiet :
  preserves (adds_no is_poll_tick)
    (withRetry (request EpPoll poll_replies)
       (Some (fun msg => setLoadingMessage ("Polling: " ++ msg)%string))).
Proof.
  apply preserves_withRetry_loop.
  - apply adds_no_refl.
  - apply adds_no_trans.
  - apply adds_no_request. reflexivity.
  - intros attempt. apply adds_no_emit. reflexivity.
  - intros attempt. apply adds_no_emit. apply retry_delay_not_poll.
Qed.

(** The polling loop waits 10 seconds and announces the check before each
    status request, as many times as it takes for the operation to be
    done; an operation that is done already is returned without waiting;
    what it returns is a done operation, unless the bound on the rounds of
    the model is reached. *)
Theorem poll_rounds fuel : forall operation w r w',
  poll fuel operation setLoadingMessage w = (Resolved r, w') ->
  exists k new,
    k <= fuel /\
    journal w' = journal w ++ new /\
    List.filter is_poll_tick new = rounds k /\
    match r with
    | Some final => done final = true /\ (done operation = true -> k = 0 /\ w' = w)
    | None => k = fuel
    end.
Proof.
  induction fuel as [|fuel IH]; intros operation w r w' H.
  - cbn [poll] in H. destruct (done operation) eqn:Hd.
    + injection H as <- <-. exists 0, []. rewrite app_nil_r. repeat split; done.
    + injection H as <- <-. exists 0, []. rewrite app_nil_r. repeat split; done.
  - cbn [poll] in H. destruct (done operation) eqn:Hd.
    + injection H as <- <-. exists 0, []. rewrite app_nil_r.
      repeat split; try done; lia.
    + apply bind_resolved in H as (? & w1 & H1 & H).
      apply bind_resolved in H as (? & w2 & H2 & H).
      apply bind_resolved in H as (op' & w3 & H3 & H).
      injection H1 as _ <-. injection H2 as _ <-.
      destruct (poll_request_quiet _ _ _ H3) as (n3 & J3 & F3).
      destruct (IH _ _ _ _ H) as (k & new & Hk & J & F & Hr).
      exists (S k), (poll_round ++ n3 ++ new).
      split; [lia|]. split.
      * rewrite J, J3. cbn [journal]. unfold poll_round. rewrite <- !app_assoc. reflexivity.
      * split.
        -- rewrite !List.filter_app, F3, F. reflexivity.
        -- destruct r as [final|].
           ++ destruct Hr as [Hf _]. split; [exact Hf|]. intros; discriminate.
           ++ lia.
Qed.

Lemma poll_rounds_witness :
  exists k new,
    k <= 3 /\
    journal (snd (poll 3 (mkOperation false None None) setLoadingMessage
                    (start (steady_backend two_prompts_json "png"))))
    = journal (start (steady_backend two_prompts_json "png")) ++ new /\
    List.filter is_poll_tick new = rounds k /\
    done (mkOperation true None (Some (mkVideoObject (Some "https://video/1")))) = true /\
    (done (mkOperation false None None) = true ->
     k = 0 /\
     snd (poll 3 (mkOperation false None None) setLoadingMessage
            (start (steady_backend two_prompts_json "png")))
     = start (steady_backend two_prompts_json "png")).
Proof.
  apply (poll_rounds 3 (mkOperation false None None)
           (start (steady_backend two_prompts_json "png"))
           (Some (mkOperation true None (Some (mkVideoObject (Some "https://video/1")))))).
  vm_compute. reflexivity.
Defined.

Section VideoFacts.
Variable host : Host.

(** The audio branch never rejects. *)
Lemma audioDataPromise_resolves options cs st w :
  exists a w',
    audioDataPromise host options cs st setLoadingMessage w = (Resolved a, w') /\
    (fst a = None <-> snd a = None) /\
    (options = None -> a = (None, None) /\ w' = w).
Proof.
  unfold audioDataPromise. destruct options as [o|].
  - unfold bind at 1. cbn [setLoadingMessage emit]. unfold bind at 1, try_catch.
    destruct (audio_try host o cs st _) as [[[[url b64]|]|e] w1].
    + eexists _, _. split; [reflexivity|]. cbn. split; [split; discriminate | discriminate].
    + eexists _, _. split; [reflexivity|]. cbn. split; [done | discriminate].
    + cbn. eexists _, _. split; [reflexivity|]. cbn. split; [done | discriminate].
  - eexists _, _. split; [reflexivity|]. cbn. split; [done|]. intros _. split; reflexivity.
Qed.

(** A video call without key, or for a scene without image, rejects
    before anything is requested or announced.  Otherwise the audio branch
    resolves, with both audio fields or with neither, and the call settles
    as the video job does: it rejects with the error of the job, or resolves
    with its video and the two audio fields. *)
Theorem generateVideoFromScene_follows_job fuel sc ar script cs options st vm vr cam w :
  if negb (truthy_str (API_KEY (store w))) then
    generateVideoFromScene host fuel sc ar script cs options st vm vr cam setLoadingMessage w
    = (Rejected (JsErr "API_KEY environment variable not set"), w)
  else if negb (truthy_str (src sc)) then
    generateVideoFromScene host fuel sc ar script cs options st vm vr cam setLoadingMessage w
    = (Rejected (JsErr "Cannot generate video from an empty or failed scene."), w)
  else
    exists a w1,
      audioDataPromise host options cs st setLoadingMessage w = (Resolved a, w1) /\
      (fst a = None <-> snd a = None) /\
      (forall e w2,
          videoJob host fuel setLoadingMessage (said "Starting video generation..." w1)
          = (Rejected e, w2) ->
          generateVideoFromScene host fuel sc ar script cs options st vm vr cam
            setLoadingMessage w = (Rejected e, w2)) /\
      (forall url obj w2,
          videoJob host fuel setLoadingMessage (said "Starting video generation..." w1)
          = (Resolved (Some (url, obj)), w2) ->
          generateVideoFromScene host fuel sc ar script cs options st vm vr cam
            setLoadingMessage w
          = (Resolved (Some (mkVideoClip (Some url) (fst a) (Some obj) (snd a))), w2)).
Proof.
  destruct (truthy_str (API_KEY (store w))) eqn:Hkey; cbn [negb].
  2:{ unfold generateVideoFromScene, bind at 1. rewrite (getAiClient_missing w Hkey).
      reflexivity. }
  destruct (truthy_str (src sc)) eqn:Hsrc; cbn [negb].
  2:{ unfold generateVideoFromScene, bind at 1. rewrite (getAiClient_ok w Hkey), Hsrc.
      reflexivity. }
  destruct (audioDataPromise_resolves options cs st w) as (a & w1 & Ha & Hboth & _).
  exists a, w1. split; [exact Ha|]. split; [exact Hboth|].
  split.
  - intros e w2 Hjob. unfold generateVideoFromScene, bind at 1.
    rewrite (getAiClient_ok w Hkey), Hsrc. cbn [negb]. unfold bind at 1. rewrite Ha.
    unfold bind at 1. cbn [setLoadingMessage emit]. fold (said "Starting video generation..." w1).
    unfold bind. rewrite Hjob. reflexivity.
  - intros url obj w2 Hjob. unfold generateVideoFromScene, bind at 1.
    rewrite (getAiClient_ok w Hkey), Hsrc. cbn [negb]. unfold bind at 1. rewrite Ha.
    unfold bind at 1. cbn [setLoadingMessage emit]. fold (said "Starting video generation..." w1).
    unfold bind. rewrite Hjob. reflexivity.
Qed.

End VideoFacts.

(** ** Error messages *)

Lemma parseErrorMessage_match_stable message :
  parseErrorMessage_json message = None ->
  parseErrorMessage (JsErr (parseErrorMessage_match message))
  = JString (parseErrorMessage_match message).
Proof.
  intros Hjson. unfold parseErrorMessage_match at 1 2. cbn zeta.
  destruct (includes (toLowerCase message) "api key not valid") eqn:E1;
    [vm_compute; reflexivity|].
  destruct (includes (toLowerCase message) "blocked" || includes (toLowerCase message) "safety")
    eqn:E2; [vm_compute; reflexivity|].
  destruct (includes (toLowerCase message) "429"
            || includes (toLowerCase message) "resource_exhausted"
            || includes (toLowerCase message) "rate limit") eqn:E3; [vm_compute; reflexivity|].
  destruct (includes (toLowerCase message) "503"
            || includes (toLowerCase message) "unavailable"
            || includes (toLowerCase message) "overloaded") eqn:E4; [vm_compute; reflexivity|].
  destruct (includes (toLowerCase message) "requested entity was not found") eqn:E5;
    [vm_compute; reflexivity|].
  destruct (String.eqb message "") eqn:E6; [vm_compute; reflexivity|].
  unfold parseErrorMessage. rewrite Hjson. unfold parseErrorMessage_match. cbn zeta.
  rewrite E1, E2, E3, E4, E5, E6. reflexivity.
Qed.

Lemma parseErrorMessage_twice host message :
  parseErrorMessage_json message = None ->
  parseErrorMessage (newError host (parseErrorMessage (JsErr message)))
  = parseErrorMessage (JsErr message).
Proof.
  intros Hjson. unfold parseErrorMessage at 2 3. rewrite Hjson.
  unfold newError. cbn [toString]. apply parseErrorMessage_match_stable. exact Hjson.
Qed.

(** Normalizing the message of an error that was already normalized
    changes nothing, unless the first message was a JSON error envelope:
    the inner message of an envelope is matched against the known patterns
    only the second time. *)
Theorem parseErrorMessage_idempotent host message :
  parseErrorMessage_json message = None ->
  parseErrorMessage (newError host (parseErrorMessage (JsErr message)))
  = parseErrorMessage (JsErr message) /\
  parseErrorMessage
    (JsErr ("{" ++ quoted "error" ++ ":{" ++ quoted "message" ++ ":"
              ++ quoted "model overloaded" ++ "}}"))
  = JString "model overloaded" /\
  parseErrorMessage (newError host (JString "model overloaded")) = JString msg_unavailable.
Proof.
  intros Hjson. split; [exact (parseErrorMessage_twice host message Hjson)|].
  split; vm_compute; reflexivity.
Qed.

Lemma parseErrorMessage_idempotent_witness :
  parseErrorMessage (newError sample_host (parseErrorMessage (JsErr "disk full")))
  = parseErrorMessage (JsErr "disk full") /\
  parseErrorMessage
    (JsErr ("{" ++ quoted "error" ++ ":{" ++ quoted "message" ++ ":"
              ++ quoted "model overloaded" ++ "}}"))
  = JString "model overloaded" /\
  parseErrorMessage (newError sample_host (JString "model overloaded"))
  = JString msg_unavailable.
Proof.
  apply (parseErrorMessage_idempotent sample_host "disk full"). vm_compute. reflexivity.
Defined.

Section Display.
Variable host : Host.

Lemma generateImageSet_rejects promptText N ar st g cs all model w e w1 :
  generatePromptsFromBase host promptText N g cs
    (said "Breaking down the story into scenes..." w) = (Rejected e, w1) ->
  generateImageSet host promptText N ar st g cs all model setLoadingMessage w
  = (Rejected (match e with
               | JsErr _ => newError host (parseErrorMessage e)
               | JsThrown _ => JsErr "An unknown error occurred during image set generation."
               end), w1).
Proof.
  intros H. unfold generateImageSet, try_catch. unfold bind at 1.
  cbn [setLoadingMessage emit]. fold (said "Breaking down the story into scenes..." w).
  unfold bind at 1. rewrite H. destruct e; reflexivity.
Qed.

(** When the script breakdown fails with a message that is no JSON error
    envelope, the storyboard request leaves the history as it was and shows
    the normalized message of that error: the two normalizations on the way
    (in the pipeline and in the handler) amount to one. *)
Theorem handleGenerateImage_breakdown_failure now inputs prev w message w1 :
  String.eqb (promptText inputs) "" = false ->
  parseErrorMessage_json message = None ->
  generatePromptsFromBase host (promptText inputs) (imageCount inputs) (genre inputs)
    (List.filter (fun c => negb (String.eqb (name c) "") && truthy_str (description c))
       (characters inputs))
    (said "Breaking down the story into scenes..." (said "Initializing..." w))
  = (Rejected (JsErr message), w1) ->
  handleGenerateImage host now inputs prev w
  = (Resolved (prev, mkAppStatus failed (Some (parseErrorMessage (JsErr message)))), w1).
Proof.
  intros Hprompt Hjson Hfail. unfold handleGenerateImage. rewrite Hprompt.
  unfold bind at 1. cbn [setLoadingMessage emit]. fold (said "Initializing..." w).
  unfold try_catch, bind.
  rewrite (generateImageSet_rejects _ _ _ _ _ _ _ _ _ _ _ Hfail).
  unfold ret. rewrite (parseErrorMessage_twice host message Hjson). reflexivity.
Qed.

End Display.

Lemma handleGenerateImage_breakdown_failure_witness :
  fst (handleGenerateImage sample_host 7
         (mkInputs "a robot explores a garden" 3 "16:9" "Anime" "gemini-2.5-flash-image"
            "General" [])
         [] (start (offline_backend "network down")))
  = Resolved ([], mkAppStatus failed (Some (JString "network down"))).
Proof.
  erewrite (handleGenerateImage_breakdown_failure sample_host 7
              (mkInputs "a robot explores a garden" 3 "16:9" "Anime" "gemini-2.5-flash-image"
                 "General" [])
              [] (start (offline_backend "network down")) "network down").
  - reflexivity.
  - reflexivity.
  - vm_compute. reflexivity.
  - vm_compute. reflexivity.
Defined.

Lemma findIndex_Some gid prev k :
  findIndex gid prev = Some k ->
  exists item, prev !! k = Some item /\ item_id item = gid.
Proof.
  revert k. induction prev as [|x prev IH]; intros k H; [discriminate|].
  cbn [findIndex] in H. destruct (Nat.eqb_spec (item_id x) gid) as [Heq|Hne].
  - injection H as <-. exists x. done.
  - destruct (findIndex gid prev) as [j|]; [|discriminate]. injection H as <-.
    destruct (IH j eq_refl) as (item & Hi & Hid). exists item. done.
Qed.

Lemma deleteScene_id confirm sceneIndex item item' :
  deleteScene confirm sceneIndex item = Some (Deleted item') -> item_id item' = item_id item.
Proof.
  unfold deleteScene. destruct (imageSet item !! sceneIndex) as [sc|]; [|discriminate].
  destruct (deletion_request (imageSet item) sceneIndex sc) as [msg initial].
  destruct (negb (confirm msg)); [discriminate|].
  destruct (compact _ _ _) as [c|]; [|discriminate]. intros [= <-]. reflexivity.
Qed.

(** A deletion that the user declines, that names no generation, or that
    names a scene index outside the generation it names, changes nothing.
    And whatever a deletion does, it does to the generation it names: the
    other generations stay as they are, in their order, and at most that
    one generation disappears. *)
Theorem handleDeleteScene_frame confirm gid sceneIndex prev :
  ((forall msg, confirm msg = false) ->
     handleDeleteScene confirm gid sceneIndex prev = Some prev) /\
  (findIndex gid prev = None ->
     handleDeleteScene confirm gid sceneIndex prev = Some prev) /\
  (forall k item,
     findIndex gid prev = Some k -> prev !! k = Some item ->
     imageSet item !! sceneIndex = None ->
     handleDeleteScene confirm gid sceneIndex prev = Some prev) /\
  (forall next,
     handleDeleteScene confirm gid sceneIndex prev = Some next ->
     List.filter (fun item => negb (item_id item =? gid)%nat) next
     = List.filter (fun item => negb (item_id item =? gid)%nat) prev /\
     length prev - 1 <= length next <= length prev).
Proof.
  split; [|split; [|split]].
  - intros Hno. unfold handleDeleteScene.
    destruct (findIndex gid prev) as [k|]; [|reflexivity].
    destruct (prev !! k) as [item|]; [|reflexivity].
    unfold deleteScene. destruct (imageSet item !! sceneIndex) as [sc|]; [|reflexivity].
    destruct (deletion_request (imageSet item) sceneIndex sc) as [msg initial].
    rewrite Hno. reflexivity.
  - intros Hnone. unfold handleDeleteScene. rewrite Hnone. reflexivity.
  - intros k item Hfind Hk Hout. unfold handleDeleteScene, deleteScene.
    rewrite Hfind, Hk, Hout. reflexivity.
  - intros next H. unfold handleDeleteScene in H.
    destruct (findIndex gid prev) as [k|] eqn:Hfind;
      [|injection H as <-; split; [reflexivity | lia]].
    destruct (findIndex_Some gid prev k Hfind) as (item & Hk & Hid).
    rewrite Hk in H.
    assert (length (take k prev) = k /\ S (length (drop (S k) prev)) = length prev - k)
      as (Ht & Hd).
    { apply lookup_lt_Some in Hk. rewrite length_take, length_drop. lia. }
    assert (List.filter (fun item => negb (item_id item =? gid)%nat) prev
            = List.filter (fun item => negb (item_id item =? gid)%nat) (take k prev)
                ++ List.filter (fun item => negb (item_id item =? gid)%nat) (drop (S k) prev))
      as Hprev.
    { rewrite <- (take_drop_middle prev k item Hk) at 1.
      rewrite List.filter_app. cbn [List.filter]. rewrite Hid, Nat.eqb_refl. reflexivity. }
    destruct (deleteScene confirm sceneIndex item) as [[|item']|] eqn:Hdel; [| |discriminate].
    + injection H as <-. split; [reflexivity | lia].
    + destruct (imageSet item') as [|x l]; injection H as <-.
      * rewrite List.filter_app, Hprev. split; [reflexivity|].
        rewrite length_app. lia.
      * rewrite length_insert. split; [|lia].
        rewrite insert_take_drop by (apply lookup_lt_Some in Hk; exact Hk).
        rewrite List.filter_app, Hprev. cbn [List.filter].
        rewrite (deleteScene_id _ _ _ _ Hdel), Hid, Nat.eqb_refl. reflexivity.
Qed.

Lemma handleDeleteScene_frame_witness :
  handleDeleteScene (fun _ => true) 1 9 [item_of five_scenes five_videos]
  = Some [item_of five_scenes five_videos].
Proof.
  apply (proj1 (proj2 (proj2 (handleDeleteScene_frame (fun _ => true) 1 9
                                [item_of five_scenes five_videos])))
           0 (item_of five_scenes five_videos)); reflexivity.
Defined.

Lemma kept_between_all (removed : gset nat) n : forall a,
  (forall i, a <= i < a + n -> i ∈ removed) -> kept_between removed a n = 0.
Proof.
  induction n as [|n IH]; intros a H; cbn [kept_between]; [reflexivity|].
  rewrite bool_decide_eq_true_2 by (apply H; lia). rewrite IH; [reflexivity|].
  intros i Hi. apply H. lia.
Qed.

(** Deleting a root whose angle-children are all the other scenes of the
    generation removes the generation from the history. *)
Theorem handleDeleteScene_last_block confirm gid root prev k item rootScene :
  (forall msg, confirm msg = true) ->
  findIndex gid prev = Some k ->
  prev !! k = Some item ->
  length (videoStates item) = length (imageSet item) ->
  imageSet item !! root = Some rootScene ->
  isCameraAngleFor rootScene = None ->
  (forall i s, imageSet item !! i = Some s -> i <> root -> isCameraAngleFor s = Some root) ->
  handleDeleteScene confirm gid root prev = Some (take k prev ++ drop (S k) prev).
Proof.
  intros Hyes Hfind Hk Hal Hroot Hnone Hchildren.
  unfold handleDeleteScene. rewrite Hfind, Hk. unfold deleteScene. rewrite Hroot.
  destruct (deletion_request (imageSet item) root rootScene) as [msg initial] eqn:Hreq.
  rewrite Hyes. cbn [negb].
  assert (cascade (imageSet item) initial = removed_block (imageSet item) root) as ->.
  { replace initial with (snd (deletion_request (imageSet item) root rootScene))
      by (rewrite Hreq; reflexivity).
    eapply deletion_targets; eauto. }
  destruct (removal_spec (imageSet item) (videoStates item)
              (removed_block (imageSet item) root) Hal) as (c & Hc & _ & _ & Hlen & _).
  rewrite Hc. cbn [imageSet with_scenes].
  rewrite kept_between_all in Hlen.
  - destruct (newImageSet c); [reflexivity | discriminate].
  - intros i Hi. apply elem_of_removed_block.
    destruct (decide (i = root)) as [->|Hne]; [left; reflexivity|]. right.
    assert (is_Some (imageSet item !! i)) as [s Hs] by (apply lookup_lt_is_Some_2; lia).
    exists s. split; [exact Hs|]. exact (Hchildren i s Hs Hne).
Qed.

Lemma keep_from_above {A} c (l : list A) : forall b,
  c < b -> keep_from {[c]} b l = l.
Proof.
  induction l as [|y l IH]; intros b Hb; [reflexivity|]. cbn [keep_from].
  rewrite bool_decide_eq_false_2 by (rewrite elem_of_singleton; lia).
  rewrite IH by lia. reflexivity.
Qed.

Lemma keep_from_singleton {A} c (l : list A) : forall a,
  a <= c -> keep_from {[c]} a l = delete (c - a) l.
Proof.
  induction l as [|x l IH]; intros a Ha; [reflexivity|].
  cbn [keep_from]. destruct (decide (a = c)) as [->|Hne].
  - rewrite bool_decide_eq_true_2 by (apply elem_of_singleton; reflexivity).
    rewrite Nat.sub_diag. cbn [delete list_delete]. apply keep_from_above. lia.
  - rewrite bool_decide_eq_false_2 by (rewrite elem_of_singleton; lia).
    rewrite (IH (S a)) by lia. replace (c - a) with (S (c - S a)) by lia. reflexivity.
Qed.

Lemma kept_between_singleton c n : forall a,
  kept_between {[c]} a n = n - (if bool_decide (a <= c < a + n) then 1 else 0).
Proof.
  induction n as [|n IH]; intros a; cbn [kept_between].
  - rewrite bool_decide_eq_false_2 by lia. reflexivity.
  - rewrite IH. destruct (decide (a = c)) as [->|Hne].
    + rewrite bool_decide_eq_true_2 by (apply elem_of_singleton; reflexivity).
      rewrite (bool_decide_eq_false_2 (S c <= c < S c + n)) by lia.
      rewrite (bool_decide_eq_true_2 (c <= c < c + S n)) by lia. lia.
    + rewrite bool_decide_eq_false_2 by (rewrite elem_of_singleton; lia).
      assert ((S a <= c < S a + n) <-> (a <= c < a + S n)) as Hiff by lia.
      rewrite (bool_decide_ext _ _ Hiff). case_bool_decide; lia.
Qed.


(** Deleting one of several angle-children removes that scene alone and
    closes the gap: later parent references move down by one. *)
Theorem deleteScene_one_child confirm c item sc p :
  (forall msg, confirm msg = true) ->
  length (videoStates item) = length (imageSet item) ->
  well_formed (imageSet item) ->
  imageSet item !! c = Some sc ->
  isCameraAngleFor sc = Some p ->
  length (List.filter (is_angle_of p) (imageSet item)) <> 1 ->
  deleteScene confirm c item
  = Some (Deleted (with_scenes item (closed_up c <$> delete c (imageSet item))
                     (delete c (videoStates item)))).
Proof.
  intros Hyes Hal Hwf Hc Hp Hmany. unfold deleteScene. rewrite Hc.
  unfold deletion_request. rewrite Hp.
  destruct (Nat.eqb_spec (length (List.filter (is_angle_of p) (imageSet item))) 1)
    as [Hone|_]; [contradiction|].
  rewrite Hyes. cbn [negb].
  assert (cascade (imageSet item) [c] = {[c]}) as ->.
  { unfold cascade, root_or_missing. cbn [fold_left]. rewrite Hc, Hp.
    apply list_to_set_singleton_L. }
  destruct (removal_spec (imageSet item) (videoStates item) {[c]} Hal)
    as (cm & Hcm & H1 & H2 & _ & _ & Hmap).
  rewrite Hcm. do 2 f_equal. rewrite H1, H2, !keep_from_singleton by lia.
  rewrite Nat.sub_0_r. f_equal.
  apply list_fmap_ext. intros j s Hj.
  assert (s ∈ imageSet item) as Hin.
  { apply list_elem_of_lookup_2 in Hj. exact (list_subseteq_delete c _ _ Hj). }
  apply list_elem_of_lookup in Hin as (i & Hi).
  unfold reindex, closed_up. destruct (isCameraAngleFor s) as [q|] eqn:Hq;
    [|cbn; rewrite <- Hq; symmetry; apply set_parent_same].
  destruct (Hwf i s q Hi Hq) as (r & Hr & Hroot).
  assert (q <> c) as Hqc by (intros ->; congruence).
  rewrite bool_decide_eq_false_2 by (rewrite elem_of_singleton; exact Hqc).
  rewrite Hmap. rewrite bool_decide_eq_true_2
    by (split; [apply lookup_lt_Some in Hr; exact Hr | rewrite elem_of_singleton; exact Hqc]).
  cbn [fmap option_fmap option_map]. f_equal. f_equal.
  unfold new_index. rewrite kept_between_singleton.
  destruct (Nat.ltb_spec c q).
  - rewrite bool_decide_eq_true_2 by lia. reflexivity.
  - rewrite bool_decide_eq_false_2 by lia. lia.
Qed.

Lemma scan_children_ge p rest : forall i last,
  last < i -> last <= scan_children p rest i last.
Proof.
  induction rest as [|s rest IH]; intros i last Hlt; cbn [scan_children]; [lia|].
  destruct (is_angle_of p s); [|lia].
  specialize (IH (S i) i). lia.
Qed.

(** Extending from the last frame keeps the tree shape when no parent
    reference of the sequence points past the scene that is extended --
    in particular when it is the last root. *)
Theorem extendItem_well_formed sceneIndex newScene item rootScene :
  well_formed (imageSet item) ->
  imageSet item !! sceneIndex = Some rootScene ->
  isCameraAngleFor rootScene = None ->
  isCameraAngleFor newScene = Some sceneIndex ->
  (forall s p, s ∈ imageSet item -> isCameraAngleFor s = Some p -> p <= sceneIndex) ->
  well_formed (imageSet (extendItem sceneIndex newScene item)).
Proof.
  intros Hwf Hroot Hnone Hnew Hlow. unfold extendItem. cbn [imageSet with_scenes].
  set (l := imageSet item) in *.
  set (ip := scan_children sceneIndex (drop (sceneIndex + 1) l) (sceneIndex + 1) sceneIndex + 1).
  assert (sceneIndex < ip) as Hip
    by (unfold ip; pose proof (scan_children_ge sceneIndex (drop (sceneIndex + 1) l)
                                 (sceneIndex + 1) sceneIndex); lia).
  assert (sceneIndex < length l) as Hlen by (apply lookup_lt_Some in Hroot; exact Hroot).
  assert (forall q, q <= sceneIndex -> splice l ip [newScene] !! q = l !! q) as Hsame.
  { intros q Hq. unfold splice. rewrite lookup_app_l by (rewrite length_take; lia).
    apply lookup_take_lt. lia. }
  intros k s p Hk Hp.
  assert (s ∈ l \/ s = newScene) as [Hin | ->].
  { apply list_elem_of_lookup_2 in Hk. unfold splice in Hk.
    rewrite !elem_of_app in Hk. rewrite <- (take_drop ip l).
    rewrite elem_of_app. destruct Hk as [Hk | [Hk | Hk]].
    - left. left. exact Hk.
    - right. apply list_elem_of_singleton in Hk. exact Hk.
    - left. right. exact Hk. }
  - pose proof (Hlow s p Hin Hp) as Hple.
    apply list_elem_of_lookup in Hin as (i & Hi).
    destruct (Hwf i s p Hi Hp) as (r & Hr & Hrn).
    exists r. rewrite Hsame by exact Hple. done.
  - rewrite Hnew in Hp. injection Hp as <-. exists rootScene.
    rewrite Hsame by lia. done.
Qed.

Lemma handleDeleteScene_last_block_witness :
  handleDeleteScene (fun _ => true) 1 0
    [item_of [node "a" None; node "a1" (Some 0)] [vstate "va"; vstate "va1"]]
  = Some [].
Proof.
  apply (handleDeleteScene_last_block (fun _ => true) 1 0
           [item_of [node "a" None; node "a1" (Some 0)] [vstate "va"; vstate "va1"]] 0
           (item_of [node "a" None; node "a1" (Some 0)] [vstate "va"; vstate "va1"])
           (node "a" None)).
  - intros msg. reflexivity.
  - reflexivity.
  - reflexivity.
  - reflexivity.
  - reflexivity.
  - reflexivity.
  - intros i s Hi Hne. destruct i as [|[|i]]; [contradiction | | discriminate Hi].
    injection Hi as <-. reflexivity.
Defined.

Lemma deleteScene_one_child_witness :
  deleteScene (fun _ => true) 1
    (item_of [node "a" None; node "a1" (Some 0); node "a2" (Some 0); node "b" None;
              node "b1" (Some 3)]
       five_videos)
  = Some (Deleted
            (with_scenes
               (item_of [node "a" None; node "a1" (Some 0); node "a2" (Some 0); node "b" None;
                         node "b1" (Some 3)]
                  five_videos)
               (closed_up 1 <$>
                  delete 1 [node "a" None; node "a1" (Some 0); node "a2" (Some 0);
                            node "b" None; node "b1" (Some 3)])
               (delete 1 five_videos))).
Proof.
  apply (deleteScene_one_child (fun _ => true) 1
           (item_of [node "a" None; node "a1" (Some 0); node "a2" (Some 0); node "b" None;
                     node "b1" (Some 3)]
              five_videos)
           (node "a1" (Some 0)) 0).
  - intros msg. reflexivity.
  - reflexivity.
  - apply well_formedb_correct. vm_compute. reflexivity.
  - reflexivity.
  - reflexivity.
  - cbn. lia.
Defined.

Lemma extendItem_well_formed_witness :
  well_formed (imageSet (extendItem 1 (node "frame" (Some 1)) (item_of three_scenes three_videos))).
Proof.
  apply (extendItem_well_formed 1 (node "frame" (Some 1)) (item_of three_scenes three_videos)
           (node "b" None)).
  - apply well_formedb_correct. vm_compute. reflexivity.
  - reflexivity.
  - reflexivity.
  - reflexivity.
  - intros s p Hin Hp. apply list_elem_of_In in Hin. cbn in Hin.
    destruct Hin as [<- | [<- | [<- | []]]]; cbn in Hp; try discriminate Hp.
    injection Hp as <-. lia.
Defined.

Lemma map_at_ext i f g l :
  (forall s, f s = g s) -> map_at i f l = map_at i g l.
Proof.
  intros H. unfold map_at. apply imap_ext. intros j x _. cbn.
  destruct (j =? i)%nat; [apply H | reflexivity].
Qed.

Lemma map_at_map_at i f g l : map_at i f (map_at i g l) = map_at i (fun s => f (g s)) l.
Proof.
  unfold map_at. apply list_eq. intros j. rewrite !list_lookup_imap.
  destruct (l !! j) as [x|]; [|reflexivity]. cbn. destruct (j =? i)%nat; reflexivity.
Qed.

Lemma map_at_parents i f l :
  (forall s, isCameraAngleFor (f s) = isCameraAngleFor s) ->
  map isCameraAngleFor (map_at i f l) = map isCameraAngleFor l.
Proof.
  intros H. unfold map_at. apply list_eq. intros j.
  rewrite !list_lookup_fmap, list_lookup_imap.
  destruct (l !! j) as [x|]; [|reflexivity]. cbn. destruct (j =? i)%nat; [|reflexivity].
  rewrite H. reflexivity.
Qed.

Lemma rewrite_scene_twice gid i f g h :
  rewrite_scene gid i f (rewrite_scene gid i g h) = rewrite_scene gid i (fun s => f (g s)) h.
Proof.
  unfold rewrite_scene. rewrite map_map. apply map_ext. intros item.
  destruct (item_id item =? gid)%nat eqn:E; cbn [item_id with_imageSet with_scenes].
  - rewrite E. cbn [imageSet with_imageSet with_scenes videoStates].
    unfold with_imageSet, with_scenes. cbn. rewrite map_at_map_at. reflexivity.
  - rewrite E. reflexivity.
Qed.

Lemma handleUndoEdit_rewrite gid i h :
  handleUndoEdit gid i h
  = rewrite_scene gid i
      (fun s => if truthy_str (previousSrc s)
                then mkScene (previousSrc s) (prompt s) (error s) (isCameraAngleFor s)
                       (isRegenerating s) (isGeneratingAngles s) (isEditing s) None
                else s) h.
Proof.
  unfold handleUndoEdit, rewrite_scene. apply map_ext. intros item.
  destruct (item_id item =? gid)%nat; reflexivity.
Qed.

(** An edit followed by its undo: whatever the edit did (a new image, a
    refusal, a failure), the scene has its old image again, no edit is in
    progress and nothing is left to undo; every other scene is untouched.
    The error the edit reported stays. *)
Theorem edit_then_undo gid sceneIndex editPrompt history item sc w :
  List.find (fun item => (item_id item =? gid)%nat) history = Some item ->
  imageSet item !! sceneIndex = Some sc ->
  truthy_str (src sc) = true ->
  exists edited e w',
    handleEditImage gid sceneIndex editPrompt history w = (Resolved edited, w') /\
    handleUndoEdit gid sceneIndex edited
    = rewrite_scene gid sceneIndex (restored (src sc) e) history.
Proof.
  intros Hfind Hsc Hsrc. unfold handleEditImage. rewrite Hfind, Hsc, Hsrc. cbn [negb].
  unfold try_catch, bind.
  destruct (editImage _ _ _ _ _ w) as [[r|err] w1].
  - exists (rewrite_scene gid sceneIndex
              (fun s => mkScene (result_src r) (prompt s) (result_error r) (isCameraAngleFor s)
                          (isRegenerating s) (isGeneratingAngles s) false (previousSrc s))
              (rewrite_scene gid sceneIndex
                 (fun s => mkScene (src s) (prompt s) (error s) (isCameraAngleFor s)
                             (isRegenerating s) (isGeneratingAngles s) true (src sc))
                 history)), (result_error r), w1.
    split; [reflexivity|].
    rewrite handleUndoEdit_rewrite, !rewrite_scene_twice.
    unfold rewrite_scene. apply map_ext. intros it. destruct (item_id it =? gid)%nat; [|done].
    f_equal. apply map_at_ext. intros s. cbn. rewrite Hsrc. reflexivity.
  - exists (rewrite_scene gid sceneIndex
              (fun s => mkScene (src s) (prompt s) (Some (parseErrorMessage err))
                          (isCameraAngleFor s) (isRegenerating s) (isGeneratingAngles s) false
                          (previousSrc s))
              (rewrite_scene gid sceneIndex
                 (fun s => mkScene (src s) (prompt s) (error s) (isCameraAngleFor s)
                             (isRegenerating s) (isGeneratingAngles s) true (src sc))
                 history)), (Some (parseErrorMessage err)), w1.
    split; [reflexivity|].
    rewrite handleUndoEdit_rewrite, !rewrite_scene_twice.
    unfold rewrite_scene. apply map_ext. intros it. destruct (item_id it =? gid)%nat; [|done].
    f_equal. apply map_at_ext. intros s. cbn. rewrite Hsrc. reflexivity.
Qed.


Lemma same_structure_refl a : same_structure a a.
Proof. repeat split. Qed.

Lemma same_structure_trans a b c :
  same_structure a b -> same_structure b c -> same_structure a c.
Proof. intros (?&?&?&?) (?&?&?&?). repeat split; congruence. Qed.

Lemma Forall2_same_structure_trans x y z :
  Forall2 same_structure x y -> Forall2 same_structure y z -> Forall2 same_structure x z.
Proof.
  intros H. revert z. induction H as [|a b x y Hab _ IH]; intros z Hz; inversion Hz; subst.
  - constructor.
  - constructor; [eapply same_structure_trans; eauto | apply IH; assumption].
Qed.

Lemma Forall2_map_same (f : GenerationItem -> GenerationItem) l :
  (forall a, same_structure a (f a)) -> Forall2 same_structure l (map f l).
Proof. intros H. induction l; cbn; constructor; auto. Qed.

Lemma rewrite_scene_structure gid i f h :
  (forall s, isCameraAngleFor (f s) = isCameraAngleFor s) ->
  Forall2 same_structure h (rewrite_scene gid i f h).
Proof.
  intros Hf. unfold rewrite_scene. apply Forall2_map_same. intros a.
  destruct (item_id a =? gid)%nat; [|apply same_structure_refl].
  repeat split; cbn [imageSet videoStates with_imageSet with_scenes].
  - apply map_at_parents. exact Hf.
  - apply length_map_at.
Qed.

Lemma well_formed_parents l l' :
  map isCameraAngleFor l' = map isCameraAngleFor l -> well_formed l -> well_formed l'.
Proof.
  intros Hmap Hwf i s p Hi Hp.
  assert (forall j, isCameraAngleFor <$> (l' !! j) = isCameraAngleFor <$> (l !! j)) as Hj.
  { intros j. rewrite <- !list_lookup_fmap. change (isCameraAngleFor <$> l') with
      (map isCameraAngleFor l'). rewrite Hmap. reflexivity. }
  pose proof (Hj i) as Hi'. rewrite Hi in Hi'. cbn in Hi'.
  destruct (l !! i) as [s0|] eqn:Hs0; [|discriminate]. cbn in Hi'.
  destruct (Hwf i s0 p Hs0 ltac:(congruence)) as (r & Hr & Hroot).
  pose proof (Hj p) as Hp'. rewrite Hr in Hp'. cbn in Hp'.
  destruct (l' !! p) as [r'|]; [|discriminate]. cbn in Hp'.
  exists r'. split; [reflexivity|]. congruence.
Qed.

Lemma filter_index_delete {A} c (l : list A) : forall a,
  filter_index (fun index => negb (index =? c)%nat) l a
  = if (a <=? c)%nat then delete (c - a) l else l.
Proof.
  induction l as [|x l IH]; intros a; cbn [filter_index].
  - destruct (a <=? c)%nat; reflexivity.
  - rewrite IH. destruct (Nat.eqb_spec a c) as [->|Hne]; cbn [negb].
    + rewrite Nat.leb_refl, Nat.sub_diag.
      replace (S c <=? c)%nat with false by (symmetry; apply Nat.leb_gt; lia). reflexivity.
    + destruct (Nat.leb_spec a c).
      * replace (S a <=? c)%nat with true by (symmetry; apply Nat.leb_le; lia).
        replace (c - a) with (S (c - S a)) by lia. reflexivity.
      * replace (S a <=? c)%nat with false by (symmetry; apply Nat.leb_gt; lia). reflexivity.
Qed.

Lemma with_scenes_same item : with_scenes item (imageSet item) (videoStates item) = item.
Proof. destruct item; reflexivity. Qed.

(** Deleting a clip: the clip goes, the others keep their order, and the
    current clip index afterwards points at a clip; deleting the only clip
    resets the whole video state; a clip index out of range changes
    nothing. *)
Theorem deleteClip_keeps_index sceneIndex clipIndex item cur :
  videoStates item !! sceneIndex = Some cur ->
  (clipIndex < length (clips cur) ->
   exists v',
     deleteClip sceneIndex clipIndex item
     = with_scenes item (imageSet item) (<[sceneIndex := v']> (videoStates item)) /\
     clips v' = delete clipIndex (clips cur) /\
     (length (clips cur) = 1 -> v' = getInitialVideoState) /\
     (1 < length (clips cur) ->
        currentClipIndex v' < length (clips v') /\
        currentClipIndex v' = Nat.min (currentClipIndex cur) (length (clips cur) - 2) /\
        scriptPrompt v' = scriptPrompt cur /\ status v' = status cur)) /\
  (length (clips cur) <= clipIndex -> deleteClip sceneIndex clipIndex item = item).
Proof.
  intros Hcur. split.
  - intros Hlt. unfold deleteClip. rewrite Hcur.
    replace (clipIndex <? length (clips cur))%nat with true
      by (symmetry; apply Nat.ltb_lt; exact Hlt).
    rewrite filter_index_delete. cbn [Nat.leb]. rewrite Nat.sub_0_r.
    assert (length (delete clipIndex (clips cur)) = length (clips cur) - 1) as Hlen.
    { rewrite length_delete; [lia|]. apply lookup_lt_is_Some_2. exact Hlt. }
    rewrite Hlen.
    destruct (Nat.eqb_spec (length (clips cur) - 1) 0) as [Hz|Hnz].
    + exists getInitialVideoState. split; [reflexivity|]. split.
      * cbn. symmetry. apply length_zero_iff_nil. lia.
      * split; [reflexivity | lia].
    + eexists. split; [reflexivity|]. cbn [clips currentClipIndex scriptPrompt status].
      split; [reflexivity|]. split; [lia|]. intros _. rewrite Hlen.
      destruct (Nat.leb_spec (length (clips cur) - 1) (currentClipIndex cur)); repeat split; lia.
  - intros Hge. unfold deleteClip. rewrite Hcur.
    replace (clipIndex <? length (clips cur))%nat with false
      by (symmetry; apply Nat.ltb_ge; exact Hge).
    apply with_scenes_same.
Qed.

Lemma changeVideoState_structure i c a : same_structure a (changeVideoState i c a).
Proof.
  unfold changeVideoState. repeat split; cbn [imageSet videoStates with_scenes].
  destruct (videoStates a !! i); [apply length_insert | reflexivity].
Qed.

Lemma deleteClip_structure i c a : same_structure a (deleteClip i c a).
Proof.
  unfold deleteClip. repeat split; cbn [imageSet videoStates with_scenes].
  destruct (videoStates a !! i) as [cur|]; [|reflexivity].
  destruct (c <? length (clips cur))%nat; [|reflexivity].
  destruct (_ =? 0)%nat; apply length_insert.
Qed.

Lemma Forall2_same_structure_refl l : Forall2 same_structure l l.
Proof. induction l; constructor; [apply same_structure_refl | assumption]. Qed.

(** The handlers that rewrite a scene or a video state in place keep the
    shape of every generation: the parent references, the number of scenes
    and the number of video states; so they keep the alignment of the two
    sequences and the tree shape.  The asynchronous ones never reject. *)
Theorem in_place_handlers_keep_structure host gid sceneIndex clipIndex changes editPrompt prev :
  Forall2 same_structure prev (handleVideoStateChange gid sceneIndex changes prev) /\
  Forall2 same_structure prev (handleDeleteVideo gid sceneIndex prev) /\
  Forall2 same_structure prev (handleDeleteClip gid sceneIndex clipIndex prev) /\
  Forall2 same_structure prev (handleUndoEdit gid sceneIndex prev) /\
  (forall w, exists next w',
      handleEditImage gid sceneIndex editPrompt prev w = (Resolved next, w') /\
      Forall2 same_structure prev next) /\
  (forall w, exists next w',
      handleRegenerateImage host gid sceneIndex prev w = (Resolved next, w') /\
      Forall2 same_structure prev next) /\
  (forall a b, same_structure a b ->
      (length (videoStates a) = length (imageSet a) ->
       length (videoStates b) = length (imageSet b)) /\
      (well_formed (imageSet a) -> well_formed (imageSet b))).
Proof.
  assert (forall i c, Forall2 same_structure prev (handleVideoStateChange gid i c prev)) as Hchange.
  { intros i c. unfold handleVideoStateChange. apply Forall2_map_same. intros a.
    destruct (negb _); [apply same_structure_refl | apply changeVideoState_structure]. }
  split; [apply Hchange|]. split; [apply Hchange|].
  split.
  { unfold handleDeleteClip. apply Forall2_map_same. intros a.
    destruct (negb _); [apply same_structure_refl | apply deleteClip_structure]. }
  split.
  { rewrite handleUndoEdit_rewrite. apply rewrite_scene_structure. intros s.
    destruct (truthy_str (previousSrc s)); reflexivity. }
  split.
  { intros w. unfold handleEditImage.
    destruct (List.find _ prev) as [item|];
      [|eexists _, _; split; [reflexivity | apply Forall2_same_structure_refl]].
    destruct (imageSet item !! sceneIndex) as [sc|];
      [|eexists _, _; split; [reflexivity | apply Forall2_same_structure_refl]].
    destruct (negb (truthy_str (src sc)));
      [eexists _, _; split; [reflexivity | apply Forall2_same_structure_refl]|].
    unfold try_catch, bind. destruct (editImage _ _ _ _ _ w) as [[r|err] w1];
      (eexists _, _; split; [reflexivity|]; rewrite rewrite_scene_twice;
       apply rewrite_scene_structure; reflexivity). }
  split.
  { intros w. unfold handleRegenerateImage.
    destruct (List.find _ prev) as [item|];
      [|eexists _, _; split; [reflexivity | apply Forall2_same_structure_refl]].
    destruct (imageSet item !! sceneIndex) as [sc|];
      [|eexists _, _; split; [reflexivity | apply Forall2_same_structure_refl]].
    unfold try_catch, bind.
    destruct (generateSingleImage _ _ _ _ _ _ _ _ _ _ w) as [[r|err] w1];
      (eexists _, _; split; [reflexivity|]; rewrite rewrite_scene_twice;
       apply rewrite_scene_structure; reflexivity). }
  intros a b (_ & Hp & Hl & Hv). split; [congruence|]. apply well_formed_parents. exact Hp.
Qed.

Lemma edit_then_undo_witness :
  exists edited e w',
    handleEditImage 1 0 "make it night" [item_of three_scenes three_videos]
      (start (refusing_backend "png")) = (Resolved edited, w') /\
    handleUndoEdit 1 0 edited
    = rewrite_scene 1 0 (restored (src (node "a" None)) e) [item_of three_scenes three_videos].
Proof.
  apply (edit_then_undo 1 0 "make it night" [item_of three_scenes three_videos]
           (item_of three_scenes three_videos) (node "a" None)); reflexivity.
Defined.

Lemma deleteClip_keeps_index_witness :
  exists v',
    deleteClip 0 0 (item_of [node "a" None] [two_clips])
    = with_scenes (item_of [node "a" None] [two_clips]) [node "a" None] (<[0 := v']> [two_clips]) /\
    clips v' = delete 0 (clips two_clips) /\
    (length (clips two_clips) = 1 -> v' = getInitialVideoState) /\
    (1 < length (clips two_clips) ->
       currentClipIndex v' < length (clips v') /\
       currentClipIndex v' = Nat.min (currentClipIndex two_clips) (length (clips two_clips) - 2) /\
       scriptPrompt v' = scriptPrompt two_clips /\ status v' = status two_clips).
Proof.
  apply (proj1 (deleteClip_keeps_index 0 0 (item_of [node "a" None] [two_clips]) two_clips
                  eq_refl)).
  cbn. lia.
Defined.

Lemma insert_by_expiry_sorted x l :
  StronglySorted by_expiry l -> StronglySorted by_expiry (insert_by_expiry x l).
Proof.
  induction 1 as [|y r Hr IH Hall]; cbn [insert_by_expiry].
  - constructor; constructor.
  - destruct (Z.leb_spec (expiresAt x) (expiresAt y)) as [Hle|Hgt].
    + constructor; [constructor; assumption|].
      constructor; [exact Hle|]. eapply List.Forall_impl; [|exact Hall].
      intros z Hz. unfold by_expiry in *. lia.
    + constructor; [exact IH|].
      assert (forall l', List.Forall (by_expiry y) l' ->
                List.Forall (by_expiry y) (insert_by_expiry x l')) as Hins.
      { induction l' as [|z l' IHl']; intros HF; cbn [insert_by_expiry].
        - constructor; [unfold by_expiry; lia | constructor].
        - inversion HF; subst. destruct (expiresAt x <=? expiresAt z)%Z.
          + constructor; [unfold by_expiry; lia | constructor; assumption].
          + constructor; [assumption | apply IHl'; assumption]. }
      apply Hins. exact Hall.
Qed.

Lemma sort_by_expiry_sorted l : StronglySorted by_expiry (sort_by_expiry l).
Proof.
  induction l as [|x l IH]; [constructor|].
  change (sort_by_expiry (x :: l)) with (insert_by_expiry x (sort_by_expiry l)).
  apply insert_by_expiry_sorted. exact IH.
Qed.

Lemma insert_by_expiry_perm x l : insert_by_expiry x l ≡ₚ x :: l.
Proof.
  induction l as [|y r IH]; cbn [insert_by_expiry]; [reflexivity|].
  destruct (expiresAt x <=? expiresAt y)%Z; [reflexivity|].
  rewrite IH. apply Permutation_swap.
Qed.

Lemma sort_by_expiry_perm l : sort_by_expiry l ≡ₚ l.
Proof.
  induction l as [|x l IH]; [reflexivity|].
  change (sort_by_expiry (x :: l)) with (insert_by_expiry x (sort_by_expiry l)).
  rewrite insert_by_expiry_perm, IH. reflexivity.
Qed.

Lemma length_sort_by_expiry l : length (sort_by_expiry l) = length l.
Proof. apply Permutation_length, sort_by_expiry_perm. Qed.

Lemma sort_by_expiry_id l : StronglySorted by_expiry l -> sort_by_expiry l = l.
Proof.
  induction 1 as [|x r Hr IH Hall]; [reflexivity|].
  change (sort_by_expiry (x :: r)) with (insert_by_expiry x (sort_by_expiry r)). rewrite IH.
  destruct r as [|y r']; [reflexivity|]. cbn [insert_by_expiry].
  inversion Hall as [|? ? Hxy _]; subst. unfold by_expiry in Hxy.
  replace (expiresAt x <=? expiresAt y)%Z with true by (symmetry; apply Z.leb_le; exact Hxy).
  reflexivity.
Qed.

Lemma StronglySorted_drop {A} (R : A -> A -> Prop) n l :
  StronglySorted R l -> StronglySorted R (drop n l).
Proof.
  revert l. induction n as [|n IH]; intros l H; [rewrite drop_0; exact H|].
  destruct l as [|x l]; [constructor|]. cbn. apply IH. inversion H; assumption.
Qed.

Lemma tail_drop {A} (l : list A) : tail l = drop 1 l.
Proof. destruct l; [reflexivity|]. cbn. rewrite drop_0. reflexivity. Qed.

Lemma attempt_of_next items n :
  attempt_of (tail (sort_by_expiry items)) n = attempt_of items (S n).
Proof.
  assert (StronglySorted by_expiry (tail (sort_by_expiry items))) as Hs
    by (rewrite tail_drop; apply StronglySorted_drop, sort_by_expiry_sorted).
  destruct n as [|n]; cbn [attempt_of]; [apply tail_drop|].
  rewrite (sort_by_expiry_id _ Hs), tail_drop, drop_drop. f_equal.
Qed.

Lemma saveItems_loop_spec fuel : forall cur w,
  length cur <= fuel ->
  exists b w',
    saveItems_loop fuel cur w = (Resolved b, w') /\
    write (store w') = write (store w) /\
    ((content (store w') = content (store w) /\
      (b = false -> forall m, m < length cur -> quota_refused (store w) (attempt_of cur m)))
     \/ exists n, n < length cur /\ b = true /\
          content (store w') = Entry (attempt_of cur n) /\
          write (store w) (attempt_of cur n) = Written /\
          forall m, m < n -> quota_refused (store w) (attempt_of cur m)).
Proof.
  induction fuel as [|fuel IH]; intros cur w Hlen.
  - destruct cur as [|x cur]; [|cbn in Hlen; lia].
    exists false, w. split; [reflexivity|]. split; [reflexivity|]. left.
    split; [reflexivity|]. intros _ m Hm. cbn in Hm. lia.
  - destruct cur as [|x cur].
    { exists false, w. split; [reflexivity|]. split; [reflexivity|]. left.
      split; [reflexivity|]. intros _ m Hm. cbn in Hm. lia. }
    cbn [saveItems_loop]. unfold bind at 1. unfold saveData, bind at 1, get_store.
    destruct (write (store w) (x :: cur)) as [|name message] eqn:Hw.
    + eexists true, _. split; [reflexivity|]. split; [reflexivity|]. right.
      exists 0. cbn [attempt_of length store content]. split; [lia|].
      split; [reflexivity|]. split; [reflexivity|]. split; [exact Hw|]. intros m Hm. lia.
    + cbn [ret]. destruct (is_quota_error name message) eqn:Hq.
      * unfold bind at 1. cbn [console_log emit].
        set (w1 := mkWorld (store w) _).
        assert (length (tail (sort_by_expiry (x :: cur))) <= fuel) as Hlen'.
        { rewrite tail_drop, length_drop, length_sort_by_expiry. cbn in *. lia. }
        destruct (IH _ w1 Hlen') as (b & w' & Hrun & Hwrite & Hcases).
        exists b, w'. split; [exact Hrun|]. split; [exact Hwrite|].
        assert (length (tail (sort_by_expiry (x :: cur))) = length cur) as Hl
          by (rewrite tail_drop, length_drop, length_sort_by_expiry; cbn; lia).
        assert (quota_refused (store w) (attempt_of (x :: cur) 0)) as H0
          by (exists name, message; split; assumption).
        destruct Hcases as [[Hc Hall] | (n & Hn & Hb & Hc & Hwn & Hprev)].
        -- left. split; [exact Hc|]. intros Hbf m Hm. destruct m as [|m]; [exact H0|].
           rewrite <- attempt_of_next. apply (Hall Hbf). cbn in Hm. lia.
        -- right. exists (S n). split; [cbn; lia|]. split; [exact Hb|].
           rewrite <- attempt_of_next. split; [exact Hc|]. split; [exact Hwn|].
           intros m Hm. destruct m as [|m]; [exact H0|].
           rewrite <- attempt_of_next. apply Hprev. lia.
      * unfold bind at 1. cbn [console_log emit ret]. eexists true, _.
        split; [reflexivity|]. split; [reflexivity|]. left. split; [reflexivity|].
        intros Hb. discriminate.
Qed.

Lemma StronglySorted_split {A} (R : A -> A -> Prop) n l x y :
  StronglySorted R l -> x ∈ take n l -> y ∈ drop n l -> R x y.
Proof.
  revert l. induction n as [|n IH]; intros l Hs Hx Hy.
  - rewrite take_0 in Hx. inversion Hx.
  - destruct l as [|z l]; [inversion Hx|]. cbn in Hx, Hy. inversion Hs as [|? ? Hs' Hall]; subst.
    apply elem_of_cons in Hx as [-> | Hx].
    + rewrite List.Forall_forall in Hall. apply Hall. apply list_elem_of_In.
      rewrite <- (take_drop n l). apply elem_of_app. right. exact Hy.
    + exact (IH l Hs' Hx Hy).
Qed.

Lemma saveItems_settles items w :
  exists w',
    saveItems items w = (Resolved tt, w') /\
    write (store w') = write (store w) /\
    (content (store w') = content (store w) \/
     exists n, n < length items /\
       content (store w') = Entry (attempt_of items n) /\
       write (store w) (attempt_of items n) = Written /\
       (forall m, m < n -> quota_refused (store w) (attempt_of items m))).
Proof.
  destruct (saveItems_loop_spec (length items) items w (Nat.le_refl _))
    as (b & w1 & Hrun & Hwrite & Hcases).
  assert (exists w', saveItems items w = (Resolved tt, w') /\ store w' = store w1)
    as (w' & Hsave & Hstore).
  { unfold saveItems, bind. rewrite Hrun. destruct b; [eexists; split; reflexivity|].
    destruct (0 <? length items)%nat; eexists; split; reflexivity. }
  exists w'. split; [exact Hsave|]. rewrite Hstore. split; [exact Hwrite|].
  destruct Hcases as [[Hc _] | (n & Hn & _ & Hc & Hwn & Hprev)]; [left; exact Hc|].
  right. exists n. auto.
Qed.

(** [saveItems] never rejects and never writes an empty array.  It stores
    the items it is given or, after quota errors, the items in order of
    expiry without the [n] that expire first, for the least [n] the storage
    accepts; when no attempt is accepted the stored value stays as it was. *)
Theorem saveItems_evicts_soonest items w :
  exists w',
    saveItems items w = (Resolved tt, w') /\
    write (store w') = write (store w) /\
    (content (store w') = content (store w) \/
     exists n, n < length items /\
       content (store w') = Entry (attempt_of items n) /\
       write (store w) (attempt_of items n) = Written /\
       (forall m, m < n -> quota_refused (store w) (attempt_of items m))) /\
    (forall n x y, 0 < n -> x ∈ take n (sort_by_expiry items) -> y ∈ attempt_of items n ->
       (expiresAt x <= expiresAt y)%Z) /\
    (forall n, 0 < n -> take n (sort_by_expiry items) ++ attempt_of items n ≡ₚ items).
Proof.
  destruct (saveItems_settles items w) as (w' & Hsave & Hwrite & Hcases).
  exists w'. split; [exact Hsave|]. split; [exact Hwrite|]. split; [exact Hcases|].
  split.
  - intros n x y Hn Hx Hy. destruct n as [|n]; [lia|]. cbn [attempt_of] in Hy.
    exact (StronglySorted_split by_expiry (S n) _ x y (sort_by_expiry_sorted items) Hx Hy).
  - intros n Hn. destruct n as [|n]; [lia|]. cbn [attempt_of].
    rewrite take_drop. apply sort_by_expiry_perm.
Qed.

(** [loadItems] never rejects; it returns the stored items that have not
    expired, in their stored order, and nothing when the entry is missing
    or unreadable.  It writes only when some item has expired; when all of
    them have, nothing is written and the expired entry stays. *)
Theorem loadItems_valid now w :
  exists w',
    loadItems now w
    = (Resolved (match content (store w) with
                 | Entry items => List.filter (fun item => (now <? expiresAt item)%Z) items
                 | _ => []
                 end), w') /\
    (forall items,
        content (store w) = Entry items ->
        (List.Forall (fun item => (now < expiresAt item)%Z) items -> w' = w) /\
        (List.Forall (fun item => (expiresAt item <= now)%Z) items ->
           content (store w') = Entry items)).
Proof.
  unfold loadItems, bind at 1, get_store. cbn [fst snd].
  destruct (content (store w)) as [| |items] eqn:Hc.
  - exists w. split; [reflexivity|]. intros items H. discriminate.
  - eexists. split; [reflexivity|]. intros items H. discriminate.
  - set (valid := List.filter _ items).
    destruct (Nat.eqb_spec (length valid) (length items)) as [Heq|Hne]; cbn [negb].
    + exists w. split; [reflexivity|]. intros items' [= <-]. split; [reflexivity|].
      intros _. exact Hc.
    + destruct (saveItems_settles valid w) as (w' & Hsave & _ & Hcases).
      exists w'. split; [unfold bind; rewrite Hsave; reflexivity|].
      intros items' [= <-]. split.
      * intros Hall. exfalso. apply Hne. unfold valid. f_equal.
        apply forallb_filter_id. rewrite forallb_forall. rewrite List.Forall_forall in Hall.
        intros x Hx. apply Z.ltb_lt. apply Hall. exact Hx.
      * intros Hall. assert (valid = []) as Hnil.
        { unfold valid. clear -Hall. induction Hall as [|x l Hx _ IH]; [reflexivity|].
          cbn. replace (now <? expiresAt x)%Z with false by (symmetry; apply Z.ltb_ge; exact Hx).
          exact IH. }
        rewrite Hnil in Hcases. destruct Hcases as [Hsame | (n & Hn & _)]; [congruence|].
        cbn in Hn. lia.
Qed.

Lemma filter_other_ids itemId (l : list SavedItem) :
  existsb (fun item => String.eqb (saved_id item) itemId) l = false ->
  List.filter (fun item => negb (String.eqb (saved_id item) itemId)) l = l.
Proof.
  induction l as [|x l IH]; [reflexivity|]. cbn. intros H.
  apply orb_false_iff in H as [Hx Hl]. rewrite Hx. cbn. rewrite IH by exact Hl. reflexivity.
Qed.

(** Saving a scene and toggling it again gives back the list of saved
    items there was; the list kept in memory is the new list whatever the
    storage did with it. *)
Theorem toggle_save_twice now now' generationItem sceneIndex savedItems sc w :
  imageSet generationItem !! sceneIndex = Some sc ->
  truthy_str (src sc) = true ->
  existsb (fun item => String.eqb (saved_id item) (saved_item_id generationItem sceneIndex))
    savedItems = false ->
  exists newItem w1 w2,
    handleToggleSaveScene now generationItem sceneIndex savedItems w
    = (Resolved (newItem :: savedItems), w1) /\
    saved_id newItem = saved_item_id generationItem sceneIndex /\
    saved_scene newItem = sc /\
    expiresAt newItem = (now + 432000000)%Z /\
    handleToggleSaveScene now' generationItem sceneIndex (newItem :: savedItems) w1
    = (Resolved savedItems, w2).
Proof.
  intros Hsc Hsrc Hfresh. unfold handleToggleSaveScene. rewrite Hsc, Hsrc. cbn [negb].
  rewrite Hfresh.
  match goal with |- context [saveItems (?x :: savedItems)] => set (newItem := x) end.
  destruct (saveItems_settles (newItem :: savedItems) w) as (w1 & Hs1 & _).
  exists newItem, w1.
  cbn [existsb saved_id newItem]. 
  assert (String.eqb (saved_item_id generationItem sceneIndex)
            (saved_item_id generationItem sceneIndex) = true) as Hrefl
    by (apply String.eqb_refl).
  cbn [List.filter].
  assert (saved_id newItem = saved_item_id generationItem sceneIndex) as Hid by reflexivity.
  rewrite Hid, Hrefl. cbn [orb negb].
  rewrite (filter_other_ids _ _ Hfresh).
  destruct (saveItems_settles savedItems w1) as (w2 & Hs2 & _).
  exists w2. split; [unfold bind; rewrite Hs1; reflexivity|].
  split; [reflexivity|]. split; [reflexivity|]. split; [reflexivity|].
  unfold bind. rewrite Hs2. reflexivity.
Qed.

(** The time shown for a saved item: it reads Expired exactly from the
    moment of expiry on; with less than a minute left it reads
    [Expires in 0 min]; and with four to five days left -- so right after
    saving, which grants five days -- it reads [Expires in 4 days]. *)
Theorem calculateTimeRemaining_edges now expires :
  (calculateTimeRemaining now expires = "Expired" <-> (expires <= now)%Z) /\
  ((0 < expires - now < 60000)%Z -> calculateTimeRemaining now expires = "Expires in 0 min") /\
  ((345600000 <= expires - now < 432000000)%Z ->
     calculateTimeRemaining now expires = "Expires in 4 days").
Proof.
  unfold calculateTimeRemaining. cbn zeta. split; [|split].
  - destruct (Z.leb_spec (expires - now) 0) as [Hle|Hgt].
    + split; [lia | reflexivity].
    + split; [|lia]. intros H. exfalso.
      destruct (0 <? _)%Z; [discriminate H|]. destruct (0 <? _)%Z; discriminate H.
  - intros H. replace (expires - now <=? 0)%Z with false by (symmetry; apply Z.leb_gt; lia).
    assert ((expires - now) / (1000 * 60 * 60 * 24) = 0)%Z as -> by (apply Z.div_small; lia).
    assert ((expires - now) / (1000 * 60 * 60) = 0)%Z as -> by (apply Z.div_small; lia).
    assert ((expires - now) / (1000 * 60) = 0)%Z as -> by (apply Z.div_small; lia).
    reflexivity.
  - intros H. replace (expires - now <=? 0)%Z with false by (symmetry; apply Z.leb_gt; lia).
    assert ((expires - now) / (1000 * 60 * 60 * 24) = 4)%Z as ->.
    { symmetry. apply (Z.div_unique_pos _ _ 4 (expires - now - 345600000)); lia. }
    reflexivity.
Qed.

Lemma toggle_save_twice_witness :
  exists newItem w1 w2,
    handleToggleSaveScene 1000 (item_of three_scenes three_videos) 0 [] (start roomy_storage)
    = (Resolved [newItem], w1) /\
    saved_id newItem = saved_item_id (item_of three_scenes three_videos) 0 /\
    saved_scene newItem = node "a" None /\
    expiresAt newItem = (1000 + 432000000)%Z /\
    handleToggleSaveScene 2000 (item_of three_scenes three_videos) 0 [newItem] w1
    = (Resolved [], w2).
Proof.
  apply (toggle_save_twice 1000 2000 (item_of three_scenes three_videos) 0 [] (node "a" None)
           (start roomy_storage)); reflexivity.
Defined.

(** The character description resolves exactly when the reply is the JSON
    text of an object whose [description] and [detectedStyle] are strings,
    with both trimmed; every other reply text is reported with one fixed
    message, and a reply without text with another. *)
Theorem generateCharacterDescription_outcome host img mime w response w1 :
  truthy_str (API_KEY (store w)) = true ->
  withRetry (request EpText text_replies) None w = (Resolved response, w1) ->
  generateCharacterDescription host img mime w
  = (match text response with
     | None => Rejected (JsErr msg_no_text)
     | Some t =>
         match description_fields t with
         | Some (d, s) => Resolved (trim d, trim s)
         | None => Rejected (JsErr msg_bad_description)
         end
     end, w1).
Proof.
  intros Hkey Hrun. unfold generateCharacterDescription, bind at 1.
  rewrite (getAiClient_ok w Hkey). unfold bind at 1. rewrite Hrun.
  destruct (text response) as [t|]; [|reflexivity].
  unfold description_fields, try_catch, bind, JSON_parse_or_throw.
  destruct (JSON_parse t) as [parsed|]; [|reflexivity].
  unfold trimmed_property.
  unfold ret, throw.
  destruct parsed as [| | | | |members]; try reflexivity.
  cbn [getProp].
  destruct (lookup_member "description" members) as [[| | |d| |]|]; try reflexivity.
  destruct (lookup_member "detectedStyle" members) as [[| | |s| |]|]; reflexivity.
Qed.

Lemma generateCharacterDescription_outcome_witness :
  fst (generateCharacterDescription sample_host "img" "image/png"
         (start (steady_backend description_json "png")))
  = Resolved ("tall, red coat", "Anime").
Proof.
  let r := eval vm_compute in
    (withRetry (request EpText text_replies) None
       (start (steady_backend description_json "png"))) in
  match r with
  | (Resolved ?response, ?w1) =>
      rewrite (generateCharacterDescription_outcome sample_host "img" "image/png"
                 (start (steady_backend description_json "png")) response w1
                 ltac:(vm_compute; reflexivity) ltac:(vm_compute; reflexivity))
  end.
  vm_compute. reflexivity.
Defined.

Lemma string_app_cons c (s t : string) : (String c s ++ t)%string = String c (s ++ t)%string.
Proof. reflexivity. Qed.

Lemma string_app_nil_l (t : string) : ("" ++ t)%string = t.
Proof. reflexivity. Qed.

Ltac push_string_app := rewrite ?string_app_cons, ?string_app_nil_l.

Lemma string_app_nil_r (s : string) : (s ++ "")%string = s.
Proof. induction s as [|c s IH]; [reflexivity|]. rewrite string_app_cons, IH. reflexivity. Qed.

Lemma string_app_assoc (a b c : string) : ((a ++ b) ++ c = a ++ (b ++ c))%string.
Proof. induction a as [|x a IH]; [reflexivity|]. rewrite !string_app_cons, IH. reflexivity. Qed.

Lemma string_app_length (a b : string) :
  String.length (a ++ b)%string = String.length a + String.length b.
Proof. induction a as [|x a IH]; [reflexivity|]. rewrite string_app_cons. cbn. rewrite IH. reflexivity. Qed.

Lemma startsWith_inv p : forall t, startsWith t p = true -> exists u, t = (p ++ u)%string.
Proof.
  induction p as [|a p IH]; intros t H.
  - exists t. reflexivity.
  - destruct t as [|b t]; [discriminate|]. cbn in H.
    apply andb_true_iff in H as [Hab Ht]. apply Ascii.eqb_eq in Hab as ->.
    destruct (IH t Ht) as (u & ->). exists u. reflexivity.
Qed.

Lemma occurs_app c (a b : string) : occurs c (a ++ b)%string = occurs c a || occurs c b.
Proof.
  induction a as [|x a IH]; [reflexivity|]. rewrite string_app_cons. cbn. rewrite IH.
  apply orb_assoc.
Qed.

(** A pattern with a character that the text does not have is not found. *)
Lemma lastIndexOf_from_absent c p s :
  occurs c p = true -> occurs c s = false ->
  forall i found, lastIndexOf_from s p i found = found.
Proof.
  intros Hp. induction s as [|x s IH]; intros Hs i found.
  - destruct p; [discriminate Hp | reflexivity].
  - cbn [lastIndexOf_from]. destruct (startsWith (String x s) p) eqn:E.
    + exfalso. apply startsWith_inv in E as (u & Hu). rewrite Hu, occurs_app, Hp in Hs.
      discriminate.
    + apply IH. cbn in Hs. apply orb_false_iff in Hs as [_ Hs]. exact Hs.
Qed.

Lemma lastIndexOf_from_skip s1 : forall s2 p i found k,
  (forall f, lastIndexOf_from s2 p (i + String.length s1) f = Some k) ->
  lastIndexOf_from (s1 ++ s2)%string p i found = Some k.
Proof.
  induction s1 as [|c s1 IH]; intros s2 p i found k H.
  - rewrite string_app_nil_l. specialize (H found). cbn in H. rewrite Nat.add_0_r in H. exact H.
  - rewrite string_app_cons. cbn [lastIndexOf_from]. apply IH. intros f.
    specialize (H f). cbn in H. replace (S i + String.length s1) with (i + S (String.length s1))
      by lia. exact H.
Qed.

Lemma startsWith_nil s : startsWith s "" = true.
Proof. destruct s; reflexivity. Qed.

Lemma marker_found rest j f :
  occurs "["%char rest = false ->
  lastIndexOf_from ("--chars--[" ++ rest)%string "--chars--[" j f = Some j.
Proof.
  intros Hrest. push_string_app. cbn. rewrite startsWith_nil.
  apply (lastIndexOf_from_absent "["%char); [reflexivity | exact Hrest].
Qed.

Lemma bracket_found j f : lastIndexOf_from "].png" "]" j f = Some j.
Proof. reflexivity. Qed.

Lemma substring_app (a b c : string) :
  String.substring (String.length a) (String.length b) (a ++ b ++ c)%string = b.
Proof.
  induction a as [|x a IH]; [rewrite string_app_nil_l | rewrite string_app_cons; exact IH].
  cbn [String.length]. revert c. induction b as [|y b IHb]; intros c.
  - rewrite string_app_nil_l. destruct c; reflexivity.
  - rewrite string_app_cons. cbn. rewrite IHb. reflexivity.
Qed.

Lemma split_on_app sep n t :
  occurs sep n = false ->
  split_on sep (n ++ t)%string
  = match split_on sep t with
    | x :: r => (n ++ x)%string :: r
    | [] => [n]
    end.
Proof.
  induction n as [|c n IH]; intros Hn.
  - rewrite string_app_nil_l. destruct (split_on sep t) eqn:E; [|reflexivity].
    destruct t as [|d t]; cbn in E; [discriminate|].
    destruct (Ascii.eqb d sep); [discriminate|]. destruct (split_on sep t); discriminate.
  - cbn in Hn. apply orb_false_iff in Hn as [Hc Hn]. rewrite string_app_cons.
    cbn [split_on]. rewrite Hc, IH by exact Hn.
    destruct (split_on sep t); reflexivity.
Qed.

Lemma split_on_whole sep n : occurs sep n = false -> split_on sep n = [n].
Proof.
  intros Hn. pose proof (split_on_app sep n "" Hn) as H.
  rewrite string_app_nil_r in H. cbn in H. rewrite string_app_nil_r in H. exact H.
Qed.

Lemma split_join names :
  names <> [] ->
  List.Forall (fun n => occurs ","%char n = false) names ->
  split_on ","%char (join "," names) = names.
Proof.
  induction names as [|n names IH]; intros Hne Hall; [contradiction|].
  inversion Hall as [|? ? Hn Hrest]; subst.
  destruct names as [|m names].
  - cbn [join]. rewrite <- (string_app_nil_r n) at 1. rewrite split_on_app by exact Hn.
    cbn. rewrite string_app_nil_r. reflexivity.
  - change (join "," (n :: m :: names)) with (n ++ "," ++ join "," (m :: names))%string.
    rewrite split_on_app by exact Hn. push_string_app. cbn [split_on].
    rewrite Ascii.eqb_refl, IH by (try discriminate; exact Hrest).
    rewrite string_app_nil_r. reflexivity.
Qed.

Lemma sanitize_no_bracket s : occurs "["%char (sanitize s) = false.
Proof.
  induction s as [|c s IH]; [reflexivity|]. cbn [sanitize].
  destruct (is_lower c || is_upper c || is_digit c) eqn:E.
  - cbn [occurs]. rewrite IH, orb_false_r.
    destruct (Ascii.eqb_spec c "["%char) as [->|Hne]; [discriminate E | reflexivity].
  - destruct (nat_of_ascii c <? 128)%nat; [cbn [occurs]; rewrite IH; reflexivity|].
    destruct (nat_of_ascii c <? 192)%nat; [exact IH|].
    destruct (nat_of_ascii c <? 240)%nat; cbn [occurs]; rewrite IH; reflexivity.
Qed.

Lemma occurs_substring_prefix c s : forall n,
  occurs c s = false -> occurs c (String.substring 0 n s) = false.
Proof.
  induction s as [|d s IH]; intros n H; [destruct n; reflexivity|].
  cbn [occurs] in H. apply orb_false_iff in H as [Hd Hs].
  destruct n as [|n]; [reflexivity|].
  cbn [String.substring occurs]. rewrite Hd, (IH n Hs). reflexivity.
Qed.

Lemma occurs_join c names :
  occurs c "," = false ->
  List.Forall (fun n => occurs c n = false) names -> occurs c (join "," names) = false.
Proof.
  intros Hsep. induction names as [|n names IH]; intros Hall; [reflexivity|].
  inversion Hall as [|? ? Hn Hrest]; subst. destruct names as [|m names]; [exact Hn|].
  change (join "," (n :: m :: names)) with (n ++ "," ++ join "," (m :: names))%string.
  rewrite !occurs_app, Hn, Hsep, IH by exact Hrest. reflexivity.
Qed.

Lemma join_nonempty n names : n <> "" -> 0 < String.length (join "," (n :: names)).
Proof.
  intros Hn. destruct n as [|c n]; [contradiction|].
  destruct names; cbn [join]; rewrite ?string_app_cons; cbn; lia.
Qed.

Lemma filter_nonempty_id names :
  List.Forall (fun n => n <> "") names -> List.filter nonempty names = names.
Proof.
  induction 1 as [|n names Hn _ IH]; [reflexivity|]. cbn. unfold nonempty at 1.
  destruct (String.eqb_spec n ""); [contradiction|]. cbn. rewrite IH. reflexivity.
Qed.

(** The characters written into the name of a downloaded image are read
    back from it when the image is uploaded again, provided their names go
    through a file name unchanged. *)
Theorem file_name_round_trip prompt characters :
  List.Forall plain_name (List.filter nonempty (map name characters)) ->
  detectCharacters (downloadFileName prompt characters)
  = List.filter nonempty (map name characters).
Proof.
  unfold downloadFileName. cbn zeta.
  generalize (List.filter nonempty (map name characters)). intros names Hplain.
  set (head := ("scene_" ++ String.substring 0 30 (sanitize prompt))%string).
  assert (occurs "["%char head = false) as Hhead
    by (unfold head;
        rewrite occurs_app, (occurs_substring_prefix _ _ _ (sanitize_no_bracket prompt));
        reflexivity).
  destruct names as [|n rest].
  - cbn [length Nat.ltb Nat.leb]. unfold detectCharacters, lastIndexOf.
    rewrite (lastIndexOf_from_absent "["%char); [reflexivity | reflexivity |].
    rewrite occurs_app, Hhead. reflexivity.
  - cbn [length Nat.ltb Nat.leb].
    set (J := join "," (n :: rest)).
    assert (occurs "["%char J = false) as HJ.
    { apply occurs_join; [reflexivity|]. eapply List.Forall_impl; [|exact Hplain].
      intros x (_ & _ & Hx & _). exact Hx. }
    assert (0 < String.length J) as Hlen.
    { apply join_nonempty. inversion Hplain as [|? ? (Hne & _) _]. exact Hne. }
    unfold detectCharacters, lastIndexOf.
    rewrite (lastIndexOf_from_skip head _ _ 0 None (String.length head)).
    2:{ intros f. apply marker_found. rewrite occurs_app, HJ. reflexivity. }
    replace (head ++ "--chars--[" ++ J ++ "].png")%string
      with ((head ++ "--chars--[" ++ J) ++ "].png")%string
      by (rewrite !string_app_assoc; reflexivity).
    rewrite (lastIndexOf_from_skip (head ++ "--chars--[" ++ J) _ _ 0 None
               (String.length (head ++ "--chars--[" ++ J))).
    2:{ intros f. apply bracket_found. }
    rewrite !string_app_length. cbn [String.length].
    replace (String.length head + 10 <? String.length head + (10 + String.length J))%nat
      with true by (symmetry; apply Nat.ltb_lt; lia).
    replace (String.length head + (10 + String.length J) - (String.length head + 10))
      with (String.length J) by lia.
    replace ((head ++ "--chars--[" ++ J) ++ "].png")%string
      with ((head ++ "--chars--[") ++ J ++ "].png")%string
      by (rewrite !string_app_assoc; reflexivity).
    replace (String.length head + 10) with (String.length (head ++ "--chars--[")%string)
      by (rewrite string_app_length; reflexivity).
    rewrite substring_app. unfold J. rewrite split_join.
    + replace (map trim (n :: rest)) with (n :: rest).
      * apply filter_nonempty_id. eapply List.Forall_impl; [|exact Hplain].
        intros x (Hx & _). exact Hx.
      * symmetry. clear -Hplain. induction Hplain as [|x l (_ & _ & _ & Hx) _ IH];
          [reflexivity|]. cbn. rewrite Hx, IH. reflexivity.
    + discriminate.
    + eapply List.Forall_impl; [|exact Hplain]. intros x (_ & Hx & _). exact Hx.
Qed.

Lemma file_name_round_trip_witness :
  detectCharacters (downloadFileName "a red fox" [character_named "Ada"; character_named "Bo"])
  = ["Ada"; "Bo"].
Proof.
  apply (file_name_round_trip "a red fox" [character_named "Ada"; character_named "Bo"]).
  vm_compute List.filter.
  repeat (apply List.Forall_cons;
          [split; [discriminate | repeat split; vm_compute; reflexivity] |]).
  apply List.Forall_nil.
Defined.

(** [fileToBase64] resolves with what stands between the first comma of
    the data URL and the next one, and rejects when there is no comma or
    nothing after it. *)
Theorem fileToBase64_payload {St} (header payload : string) (w : world St) :
  occurs ","%char header = false ->
  occurs ","%char payload = false ->
  fileToBase64 (Resolved (header ++ "," ++ payload)%string) w
  = (if nonempty payload then Resolved payload
     else Rejected (JsErr "Failed to read file as Base64."), w) /\
  fileToBase64 (Resolved header) w = (Rejected (JsErr "Failed to read file as Base64."), w).
Proof.
  intros Hh Hp. unfold fileToBase64. split.
  - rewrite split_on_app by exact Hh. rewrite string_app_cons, string_app_nil_l. cbn [split_on].
    rewrite Ascii.eqb_refl, (split_on_whole _ _ Hp). cbn.
    destruct (nonempty payload); reflexivity.
  - rewrite (split_on_whole _ _ Hh). reflexivity.
Qed.

Section AngleFailure.
Variable host : Host.

(** A camera-angle generation that fails leaves the sequence as it was --
    the same scenes, parent references and video states -- and writes the
    error on the scene it was asked for. *)
Theorem handleConfirmAngleGeneration_failure front back side gid sceneIndex history item sc
  w e w' :
  selected_names front back side <> [] ->
  List.find (fun item => (item_id item =? gid)%nat) history = Some item ->
  imageSet item !! sceneIndex = Some sc ->
  truthy_str (src sc) = true ->
  generateCameraAnglesFromImage host sc (item_aspectRatio item) (item_imageStyle item)
    (item_genre item) (item_characters item) (item_imageModel item)
    (selected_names front back side) noProgress w = (Rejected e, w') ->
  handleConfirmAngleGeneration host front back side gid sceneIndex history w
  = (Resolved
       (Some (rewrite_scene gid sceneIndex
                (fun s => settle_angles s
                            (Some (JString ("Angle generation failed: "
                                              ++ toString host (parseErrorMessage e)))))
                history)), w') /\
  Forall2 same_structure history
    (rewrite_scene gid sceneIndex
       (fun s => settle_angles s
                   (Some (JString ("Angle generation failed: "
                                     ++ toString host (parseErrorMessage e)))))
       history).
Proof.
  intros Hsel Hfind Hsc Hsrc Hfail. split.
  - unfold handleConfirmAngleGeneration. cbn zeta.
    destruct (selected_names front back side) as [|a names] eqn:Hn; [contradiction|].
    rewrite Hfind, Hsc, Hsrc. cbn [negb]. unfold try_catch, bind. rewrite Hfail.
    unfold ret. do 3 f_equal.
    change (rewrite_scene gid sceneIndex
              (fun s => settle_angles s
                          (Some (JString ("Angle generation failed: "
                                            ++ toString host (parseErrorMessage e)))))
              (rewrite_scene gid sceneIndex (fun s => set_generating s true) history)
            = rewrite_scene gid sceneIndex
                (fun s => settle_angles s
                            (Some (JString ("Angle generation failed: "
                                              ++ toString host (parseErrorMessage e)))))
                history).
    rewrite rewrite_scene_twice. reflexivity.
  - apply rewrite_scene_structure. reflexivity.
Qed.
End AngleFailure.

Lemma fileToBase64_payload_witness :
  fileToBase64 (Resolved "data:audio/mpeg;base64,QUJD") (start tt)
  = (Resolved "QUJD", start tt).
Proof.
  apply (proj1 (fileToBase64_payload "data:audio/mpeg;base64" "QUJD" (start tt)
                  eq_refl eq_refl)).
Defined.

Lemma handleConfirmAngleGeneration_failure_witness :
  exists e w',
    handleConfirmAngleGeneration sample_host true false false 1 0
      [item_of three_scenes three_videos] (start (refusing_backend "png"))
    = (Resolved
         (Some (rewrite_scene 1 0
                  (fun s => settle_angles s
                              (Some (JString ("Angle generation failed: "
                                                ++ toString sample_host (parseErrorMessage e)))))
                  [item_of three_scenes three_videos])), w').
Proof.
  eexists _, _.
  apply (proj1 (handleConfirmAngleGeneration_failure sample_host true false false 1 0
                  [item_of three_scenes three_videos] (item_of three_scenes three_videos)
                  (node "a" None) (start (refusing_backend "png")) _ _
                  ltac:(discriminate) eq_refl eq_refl eq_refl
                  ltac:(vm_compute; reflexivity))).
Defined.
